(** * Go_LogDB: the store, the index and the segment of the commit log

    A shallow embedding of [internal/log] (store, index, segment, config)
    and of the handlers of [internal/server], and the properties of the
    on-disk format, the offset bookkeeping and the streaming calls.

    Conventions.
    - Go's [uint64], [uint32] and [int64] values are [Z]; every conversion
      and every arithmetic operation of the source that can wrap is written
      with [u64], [u32] or [i64].
    - A byte slice, a file and the memory map are [list byte].
    - A Go method with a pointer receiver returns the new receiver state
      next to its result.
    - [error] results and run-time panics are the two failure constructors
      of [result].
    - The calls into the operating system and into the libraries ([os],
      [bufio], [gommap], [proto]) are modelled by what they return and
      what they leave in the files; where the device may fail, the
      outcome is an argument of the operation.
    - The methods run one at a time: the mutex of the store serialises
      them, and the index has a single writer.
    - The handlers of the gRPC service of [internal/server] use the log
      through the interface [CommitLog]; they are modelled over any
      implementation of it, the stream of a streaming call being the
      list of what its [Recv], [Send] and [Context] calls return. *)

From Stdlib Require Import ZArith Lia List.
From Stdlib.Strings Require Import Byte.
From stdpp Require Import base list gmap strings pretty.

Local Open Scope Z_scope.

(** ** Machine integers *)

Definition u64 (z : Z) : Z := z mod 2 ^ 64.
Definition u32 (z : Z) : Z := z mod 2 ^ 32.

(** [int64(x)] for a [uint64] x: the two's complement reading. *)
Definition i64 (z : Z) : Z :=
  let w := u64 z in if w <? 2 ^ 63 then w else w - 2 ^ 64.

Definition is_u64 (z : Z) : Prop := 0 <= z < 2 ^ 64.
Definition is_u32 (z : Z) : Prop := 0 <= z < 2 ^ 32.

(** ** Errors *)

Inductive error : Type :=
  | EOF            (* io.EOF *)
  | EIO            (* a failure of the device under a write or a flush *)
  | EINVAL         (* an argument the system call refuses *)
  | ECodec.        (* proto.Marshal / proto.Unmarshal *)

Inductive result (A : Type) : Type :=
  | Ok (a : A)
  | Err (e : error)
  | Panic.
Arguments Ok {A} a.
Arguments Err {A} e.
Arguments Panic {A}.

Definition bind {A B} (r : result A) (k : A -> result B) : result B :=
  match r with
  | Ok a => k a
  | Err e => Err e
  | Panic => Panic
  end.

Notation "'let*' x := r 'in' k" := (bind r (fun x => k))
  (at level 10, x name, r at level 100, k at level 200).

Definition is_Ok {A} (r : result A) : bool :=
  match r with Ok _ => true | _ => false end.

(** ** encoding/binary, big endian *)

Definition byte_of_Z (z : Z) : byte :=
  match Byte.of_N (Z.to_N (Z.land z 255)) with
  | Some b => b
  | None => x00
  end.

Definition Z_of_byte (b : byte) : Z := Z.of_N (Byte.to_N b).

(** The [n] low bytes of [v], most significant first. *)
Fixpoint be_bytes (n : nat) (v : Z) : list byte :=
  match n with
  | O => []
  | S k => byte_of_Z (Z.shiftr v (8 * Z.of_nat k)) :: be_bytes k v
  end.

Fixpoint be_value (acc : Z) (bs : list byte) : Z :=
  match bs with
  | [] => acc
  | b :: rest => be_value (Z.lor (Z.shiftl acc 8) (Z_of_byte b)) rest
  end.

Definition PutUint32 (v : Z) : list byte := be_bytes 4 v.
Definition PutUint64 (v : Z) : list byte := be_bytes 8 v.
Definition Uint32 (bs : list byte) : Z := be_value 0 bs.
Definition Uint64 (bs : list byte) : Z := be_value 0 bs.

(** ** Go slices *)

(** [s[lo:hi]]; a slice expression out of range panics. *)
Definition slice (lo hi : Z) (s : list byte) : result (list byte) :=
  if (0 <=? lo) && (lo <=? hi) && (hi <=? Z.of_nat (length s))
  then Ok (take (Z.to_nat (hi - lo)) (drop (Z.to_nat lo) s))
  else Panic.

(** [put(s[lo:hi], bs)]: [bs] stored through the slice [s[lo:hi]], as
    [PutUint32] and [PutUint64] do; they panic on a slice shorter than
    the value. *)
Definition slice_put (lo hi : Z) (bs : list byte) (s : list byte)
  : result (list byte) :=
  if (0 <=? lo) && (lo <=? hi) && (hi <=? Z.of_nat (length s))
     && (Z.of_nat (length bs) <=? hi - lo)
  then Ok (take (Z.to_nat lo) s ++ bs
           ++ drop (Z.to_nat lo + length bs) s)
  else Panic.

(** ** Configuration (config.go) *)

Record SegmentConfig : Type := {
  MaxStoreBytes : Z;
  MaxIndexBytes : Z;
  InitialOffset : Z
}.

Record Config : Type := { Segment : SegmentConfig }.

(** ** Files and the memory map

    A directory is the finite map from the names of its files to their
    bytes.  An open file carries its name and its bytes; the directory
    sees them again when the file is closed. *)

Module os.

Record File : Type := { Name : string; data : list byte }.

(** What the device does with one write request: it takes all the
    bytes, or it fails after taking the first [k]. *)
Inductive outcome : Type :=
  | Done
  | Failed (k : nat).

(** [os.OpenFile(name, O_RDWR|O_CREATE|..., 0644)]: an absent file is
    created empty. *)
Definition OpenFile (d : gmap string (list byte)) (name : string) : File :=
  {| Name := name; data := default [] (d !! name) |}.

(** [fi.Size()] of [os.Stat(f.Name())]. *)
Definition Size (f : File) : Z := Z.of_nat (length (data f)).

(** [os.Truncate(name, n)]: cuts the file or extends it with zero
    bytes; a negative length is refused. *)
Definition Truncate (n : Z) (f : File) : result File :=
  if n <? 0 then Err EINVAL
  else Ok {| Name := Name f; data := resize (Z.to_nat n) x00 (data f) |}.

(** [f.ReadAt(b, off)] with [len(b) = n]: a negative offset is refused,
    an empty [b] reads nothing, and fewer than [n] bytes before the end
    of the file is [io.EOF]. *)
Definition ReadAt (n off : Z) (f : File) : result (list byte) :=
  if off <? 0 then Err EINVAL
  else
    let bs := take (Z.to_nat n) (drop (Z.to_nat off) (data f)) in
    if Z.of_nat (length bs) <? n then Err EOF else Ok bs.

(** [gommap.Map(fd, PROT_READ|PROT_WRITE, MAP_SHARED)]: the whole file
    is mapped; mapping no bytes is refused. *)
Definition Map (f : File) : result (list byte) :=
  if Size f =? 0 then Err EINVAL else Ok (data f).

End os.

(** The file that [OpenFile] creates. *)
Definition emptyFile (name : string) : os.File :=
  {| os.Name := name; os.data := [] |}.

(** ** bufio.Writer

    [pending] are the bytes the writer has accepted and not yet given to
    the file at a [Flush]; [err] is the writer's sticky error: after a
    failed write every later [Write] and [Flush] returns it.  The
    writer of the library also passes bytes on when its buffer of 4096
    bytes fills; here they stay in [pending] until the flush, so only
    the bytes of the file and of [pending] together, in this order,
    are those of the program. *)

Module bufio.

Record Writer : Type := { pending : list byte; err : option error }.

Definition NewWriter : Writer := {| pending := []; err := None |}.

Definition Write (o : os.outcome) (p : list byte) (b : Writer)
  : Writer * result Z :=
  match err b with
  | Some e => (b, Err e)
  | None =>
      match o with
      | os.Done =>
          ({| pending := pending b ++ p; err := None |},
           Ok (Z.of_nat (length p)))
      | os.Failed k =>
          ({| pending := pending b ++ take k p; err := Some EIO |},
           Err EIO)
      end
  end.

Definition Flush (o : os.outcome) (b : Writer) (f : os.File)
  : Writer * os.File * result unit :=
  match err b with
  | Some e => (b, f, Err e)
  | None =>
      match o with
      | os.Done =>
          ({| pending := []; err := None |},
           {| os.Name := os.Name f; os.data := os.data f ++ pending b |},
           Ok tt)
      | os.Failed k =>
          ({| pending := drop k (pending b); err := Some EIO |},
           {| os.Name := os.Name f;
              os.data := os.data f ++ take k (pending b) |},
           Err EIO)
      end
  end.

End bufio.

(** ** The store (store.go) *)

Module store.

Definition lenWidth : Z := 8.

Record t : Type := {
  File : os.File;
  buf : bufio.Writer;
  size : Z
}.

Definition newStore (f : os.File) : result t :=
  let size := u64 (os.Size f) in
  Ok {| File := f; size := size; buf := bufio.NewWriter |}.

(** [o1] is the outcome of writing the length prefix, [o2] of writing
    the payload. *)
Definition Append (o1 o2 : os.outcome) (p : list byte) (s : t)
  : t * result (Z * Z) :=
  let pos := size s in
  let '(b1, r1) :=
    bufio.Write o1 (PutUint64 (u64 (Z.of_nat (length p)))) (buf s) in
  match r1 with
  | Ok _ =>
      let '(b2, r2) := bufio.Write o2 p b1 in
      match r2 with
      | Ok w =>
          let w := w + lenWidth in
          ({| File := File s; buf := b2; size := u64 (size s + u64 w) |},
           Ok (u64 w, pos))
      | Err e => ({| File := File s; buf := b2; size := size s |}, Err e)
      | Panic => ({| File := File s; buf := b2; size := size s |}, Panic)
      end
  | Err e => ({| File := File s; buf := b1; size := size s |}, Err e)
  | Panic => ({| File := File s; buf := b1; size := size s |}, Panic)
  end.

(** [make([]byte, n)] for a [uint64] n panics when [n] is no [int]; the
    lower bound of the allocator, which depends on the machine, is not
    modelled. *)
Definition make (n : Z) : result Z :=
  if n <? 2 ^ 63 then Ok n else Panic.

Definition Read (o : os.outcome) (pos : Z) (s : t)
  : t * result (list byte) :=
  let '(b, f, r) := bufio.Flush o (buf s) (File s) in
  let s' := {| File := f; buf := b; size := size s |} in
  (s',
   let* _ := r in
   let* size := os.ReadAt lenWidth (i64 pos) f in
   let* n := make (Uint64 size) in
   os.ReadAt n (i64 (u64 (pos + lenWidth))) f).

Definition ReadAt (o : os.outcome) (n off : Z) (s : t)
  : t * result (list byte) :=
  let '(b, f, r) := bufio.Flush o (buf s) (File s) in
  ({| File := f; buf := b; size := size s |},
   let* _ := r in os.ReadAt n off f).

Definition Close (o : os.outcome) (s : t) (d : gmap string (list byte))
  : gmap string (list byte) * result unit :=
  let '(_, f, r) := bufio.Flush o (buf s) (File s) in
  (<[os.Name f := os.data f]> d, r).

(** All the bytes given to the store, flushed or not. *)
Definition contents (s : t) : list byte :=
  os.data (File s) ++ bufio.pending (buf s).

End store.

(** ** The index (index.go) *)

Module index.

Definition offWidth : Z := 4.
Definition posWidth : Z := 8.
Definition entWidth : Z := offWidth + posWidth.

(** The mapping is shared with the file, so the mapped bytes are the
    bytes of the file: the model keeps them once, in [mmap], and keeps
    the name of [file].  The field [config] of the source is never
    assigned nor read, and is left out. *)
Record t : Type := {
  file : string;
  mmap : list byte;
  size : Z
}.

Definition newIndex (f : os.File) (c : Config) : result t :=
  let size := u64 (os.Size f) in
  let* f' := os.Truncate (i64 (MaxIndexBytes (Segment c))) f in
  let* m := os.Map f' in
  Ok {| file := os.Name f; mmap := m; size := size |}.

Definition IsMaxed (i : t) : bool :=
  Z.of_nat (length (mmap i)) <? u64 (size i + entWidth).

Definition Read (off : Z) (i : t) : result (Z * Z) :=
  if size i =? 0 then Err EOF
  else
    let out :=
      if off =? -1 then u32 (u64 (size i / entWidth - 1)) else u32 off in
    let startingPos := u64 (out * entWidth) in
    if size i <? u64 (startingPos + entWidth) then Err EOF
    else
      let* b4 := slice startingPos (u64 (startingPos + offWidth)) (mmap i) in
      let* b8 := slice (u64 (startingPos + offWidth))
                       (u64 (startingPos + entWidth)) (mmap i) in
      Ok (Uint32 b4, Uint64 b8).

Definition Write (off pos : Z) (i : t) : t * result unit :=
  if IsMaxed i then (i, Err EOF)
  else
    match slice_put (size i) (u64 (size i + offWidth))
                    (PutUint32 off) (mmap i) with
    | Ok m1 =>
        match slice_put (u64 (size i + offWidth)) (u64 (size i + entWidth))
                        (PutUint64 pos) m1 with
        | Ok m2 =>
            ({| file := file i; mmap := m2;
                size := u64 (size i + entWidth) |}, Ok tt)
        | Err e => ({| file := file i; mmap := m1; size := size i |}, Err e)
        | Panic => ({| file := file i; mmap := m1; size := size i |}, Panic)
        end
    | Err e => (i, Err e)
    | Panic => (i, Panic)
    end.

Definition Name (i : t) : string := file i.

(** Sync, sync, truncate to the logical size, close. *)
Definition Close (i : t) (d : gmap string (list byte))
  : gmap string (list byte) * result unit :=
  match os.Truncate (i64 (size i)) {| os.Name := file i; os.data := mmap i |} with
  | Ok f => (<[file i := os.data f]> d, Ok tt)
  | Err e => (<[file i := mmap i]> d, Err e)
  | Panic => (<[file i := mmap i]> d, Panic)
  end.

(** The entry stored in slot [k] of the map. *)
Definition entry (k : nat) (m : list byte) : Z * Z :=
  (Uint32 (take 4 (drop (12 * k) m)),
   Uint64 (take 8 (drop (12 * k + 4) m))).

End index.

(** ** Records (api/v1/log.proto) and their serializer *)

Module api.

(** [message Record { bytes value = 1; uint64 offset = 2; }] *)
Record Record_ : Type := { Value : list byte; Offset : Z }.

End api.

(** [proto.Marshal] and [proto.Unmarshal] at [api.Record]. *)
Class Codec : Type := {
  Marshal : api.Record_ -> result (list byte);
  Unmarshal : list byte -> result api.Record_
}.

(** ** The segment (segment.go) *)

Module segment.

Record t : Type := {
  store : store.t;
  index : index.t;
  baseOffset : Z;
  nextOffset : Z;
  config : Config
}.

(** [fmt.Sprintf("%d%s", baseOffset, suffix)] *)
Definition fileName (baseOffset : Z) (suffix : string) : string :=
  pretty (Z.to_N baseOffset) +:+ suffix.

(** [d] is the directory [dir] names. *)
Definition newSegment (d : gmap string (list byte)) (baseOffset : Z)
    (c : Config) : result t :=
  let storeFile := os.OpenFile d (fileName baseOffset ".store") in
  let* st := store.newStore storeFile in
  let indexFile := os.OpenFile d (fileName baseOffset ".index") in
  let* ix := index.newIndex indexFile c in
  let* next :=
    match index.Read (-1) ix with
    | Ok (off, _) => Ok (u64 (u64 (baseOffset + off) + 1))
    | Err _ => Ok baseOffset
    | Panic => Panic
    end in
  Ok {| store := st; index := ix; baseOffset := baseOffset;
        nextOffset := next; config := c |}.

Definition with_store (st : store.t) (s : t) : t :=
  {| store := st; index := index s; baseOffset := baseOffset s;
     nextOffset := nextOffset s; config := config s |}.

Definition with_index (ix : index.t) (s : t) : t :=
  {| store := store s; index := ix; baseOffset := baseOffset s;
     nextOffset := nextOffset s; config := config s |}.

Definition with_nextOffset (n : Z) (s : t) : t :=
  {| store := store s; index := index s; baseOffset := baseOffset s;
     nextOffset := n; config := config s |}.

Section WithCodec.
Context {codec : Codec}.

(** The record is passed by pointer: the stamped record is returned
    next to the segment.  The record is one that is there; the call on
    a nil pointer is in [segment_Append_ptr].  [o1] and [o2] are the
    outcomes of the two writes of [store.Append]. *)
Definition Append (o1 o2 : os.outcome) (record : api.Record_) (s : t)
  : t * api.Record_ * result Z :=
  let cur := nextOffset s in
  let record := {| api.Value := api.Value record; api.Offset := cur |} in
  match Marshal record with
  | Ok p =>
      let '(st, r) := store.Append o1 o2 p (store s) in
      let s1 := with_store st s in
      match r with
      | Ok (_, pos) =>
          let '(ix, r') :=
            index.Write (u32 (u64 (nextOffset s1 - baseOffset s1))) pos
                        (index s1) in
          let s2 := with_index ix s1 in
          match r' with
          | Ok _ => (with_nextOffset (u64 (nextOffset s2 + 1)) s2,
                     record, Ok cur)
          | Err e => (s2, record, Err e)
          | Panic => (s2, record, Panic)
          end
      | Err e => (s1, record, Err e)
      | Panic => (s1, record, Panic)
      end
  | Err e => (s, record, Err e)
  | Panic => (s, record, Panic)
  end.

Definition Read (o : os.outcome) (off : Z) (s : t)
  : t * result api.Record_ :=
  match index.Read (i64 (u64 (off - baseOffset s))) (index s) with
  | Ok (_, pos) =>
      let '(st, r) := store.Read o pos (store s) in
      (with_store st s, let* p := r in Unmarshal p)
  | Err e => (s, Err e)
  | Panic => (s, Panic)
  end.

End WithCodec.

Definition IsMaxed (s : t) : bool :=
  (MaxStoreBytes (Segment (config s)) <=? store.size (store s))
  || (MaxIndexBytes (Segment (config s))
      <? u64 (index.size (index s) + index.entWidth)).

Definition Close (o : os.outcome) (s : t) (d : gmap string (list byte))
  : gmap string (list byte) * result unit :=
  let '(d1, r1) := index.Close (index s) d in
  match r1 with
  | Ok _ => store.Close o (store s) d1
  | _ => (d1, r1)
  end.

Definition Remove (o : os.outcome) (s : t) (d : gmap string (list byte))
  : gmap string (list byte) * result unit :=
  let '(d1, r1) := Close o s d in
  match r1 with
  | Ok _ =>
      (delete (os.Name (store.File (store s)))
              (delete (index.Name (index s)) d1), Ok tt)
  | _ => (d1, r1)
  end.

End segment.

(** ** The gRPC service (server.go)

    The messages of [service Log] in [log.proto] have one field each. *)

Module ProduceRequest.
Record t : Type := { Record_ : api.Record_ }.
End ProduceRequest.

Module ProduceResponse.
Record t : Type := { Offset : Z }.
End ProduceResponse.

Module ConsumeRequest.
Record t : Type := { Offset : Z }.
End ConsumeRequest.

Module ConsumeResponse.
Record t : Type := { Record_ : api.Record_ }.
End ConsumeResponse.

Module server.

(** What a call returning a value and an [error] returns: the value
    when the error is nil, the error otherwise. *)
Inductive reply (E A : Type) : Type :=
  | Value (a : A)
  | Error (e : E).
Arguments Value {E A} a.
Arguments Error {E A} e.

(** [type CommitLog interface]: [L] are the states of the log behind
    the interface and [E] the errors it and the stream return. *)
Class CommitLog (L E : Type) : Type := {
  Append : api.Record_ -> L -> L * reply E Z;
  Read : Z -> L -> L * reply E api.Record_
}.

Section Handlers.
Context {L E : Type} {log : CommitLog L E}.

(** [ErrOffsetOutOfRange e]: the error [e] has the type
    [api.ErrOffsetOutOfRange], the second case of the type switch of
    [ConsumeStream]. *)
Variable ErrOffsetOutOfRange : E -> bool.

Definition Produce (req : ProduceRequest.t) (l : L)
  : L * reply E ProduceResponse.t :=
  let '(l', r) := Append (ProduceRequest.Record_ req) l in
  match r with
  | Error e => (l', Error e)
  | Value offset => (l', Value {| ProduceResponse.Offset := offset |})
  end.

Definition Consume (req : ConsumeRequest.t) (l : L)
  : L * reply E ConsumeResponse.t :=
  let '(l', r) := Read (ConsumeRequest.Offset req) l in
  match r with
  | Error e => (l', Error e)
  | Value record => (l', Value {| ConsumeResponse.Record_ := record |})
  end.

(** The stream of [ProduceStream]: [recv] lists the requests [Recv]
    returns, each with what [Send] returns for its response ([None] is
    nil), and [closing] is the error of the [Recv] after the last
    request.  The result is the log, the responses sent and the error
    returned; the loop has no other exit. *)
Fixpoint ProduceStream (recv : list (ProduceRequest.t * option E))
    (closing : E) (l : L) : L * list ProduceResponse.t * E :=
  match recv with
  | [] => (l, [], closing)
  | (req, send) :: rest =>
      let '(l1, r) := Produce req l in
      match r with
      | Error e => (l1, [], e)
      | Value res =>
          match send with
          | Some e => (l1, [], e)
          | None =>
              let '(l2, sent, e) := ProduceStream rest closing l1 in
              (l2, res :: sent, e)
          end
      end
  end.

(** One turn of the loop of [ConsumeStream]: the context is done, or
    it is not and [Send], if the turn calls it, returns [send]. *)
Inductive turn : Type :=
  | Cancelled
  | Running (send : option E).

(** The loop of [ConsumeStream] over the turns [turns].  The result is
    the log, the request (the handler increments the offset in place),
    the responses sent, and what the handler returned: [Some None] is
    nil, [Some (Some e)] the error [e], and [None] a handler still in
    its loop after all the turns. *)
Fixpoint ConsumeStream (turns : list turn) (req : ConsumeRequest.t) (l : L)
  : L * ConsumeRequest.t * list ConsumeResponse.t * option (option E) :=
  match turns with
  | [] => (l, req, [], None)
  | Cancelled :: _ => (l, req, [], Some None)
  | Running send :: rest =>
      let '(l1, r) := Consume req l in
      match r with
      | Value res =>
          match send with
          | Some e => (l1, req, [], Some (Some e))
          | None =>
              let req' :=
                {| ConsumeRequest.Offset :=
                     u64 (ConsumeRequest.Offset req + 1) |} in
              let '(l2, req'', sent, out) := ConsumeStream rest req' l1 in
              (l2, req'', res :: sent, out)
          end
      | Error e =>
          if ErrOffsetOutOfRange e then ConsumeStream rest req l1
          else (l1, req, [], Some (Some e))
      end
  end.

(** [Produce] for each request in turn, as long as the log accepts
    them: the log and the responses. *)
Fixpoint produced (reqs : list ProduceRequest.t) (l : L)
  : L * list ProduceResponse.t :=
  match reqs with
  | [] => (l, [])
  | req :: rest =>
      match Produce req l with
      | (l1, Value res) =>
          let '(l2, ress) := produced rest l1 in (l2, res :: ress)
      | (l1, Error _) => (l1, [])
      end
  end.

End Handlers.

End server.

(** ** The frames of a store

    A store file is a concatenation of frames: the length of the payload
    in eight bytes, big endian, and the payload. *)

Definition frame (p : list byte) : list byte :=
  PutUint64 (u64 (Z.of_nat (length p))) ++ p.

(** The payloads of the frames of [bs], or [None] when [bs] ends inside a
    frame.  [fuel] bounds the number of frames. *)
Fixpoint frames (fuel : nat) (bs : list byte) : option (list (list byte)) :=
  match bs with
  | [] => Some []
  | _ =>
      match fuel with
      | O => None
      | S k =>
          let n := Z.to_nat (Uint64 (take 8 bs)) in
          if (length bs <? 8 + n)%nat then None
          else
            match frames k (drop (8 + n) bs) with
            | Some ps => Some (take n (drop 8 bs) :: ps)
            | None => None
            end
      end
  end.

(** The frames below the logical size of a store. *)
Definition store_frames (s : store.t) : option (list (list byte)) :=
  let bs := take (Z.to_nat (store.size s)) (store.contents s) in
  frames (length bs) bs.

(** ** The wire format of a record

    The protocol buffers encoding of [api.Record]: field 1 is the value,
    length-delimited, field 2 the offset, a varint; a field holding its
    zero value is left out.  [Marshal] refuses a message longer than
    [limit] bytes (2 GiB in the library); [Unmarshal] refuses input that
    is not made of these two fields. *)

Module wire.

Fixpoint varint (fuel : nat) (v : Z) : list byte :=
  match fuel with
  | O => []
  | S k =>
      if v <? 128 then [byte_of_Z v]
      else byte_of_Z (Z.lor (Z.land v 127) 128) :: varint k (Z.shiftr v 7)
  end.

Fixpoint uvarint (fuel : nat) (bs : list byte) : option (Z * list byte) :=
  match fuel, bs with
  | S k, b :: rest =>
      let v := Z_of_byte b in
      if v <? 128 then Some (v, rest)
      else
        match uvarint k rest with
        | Some (hi, rest') =>
            Some (Z.lor (Z.land v 127) (Z.shiftl hi 7), rest')
        | None => None
        end
  | _, _ => None
  end.

Definition marshal (limit : Z) (r : api.Record_) : result (list byte) :=
  let value :=
    match api.Value r with
    | [] => []
    | v => x0a :: varint 10 (Z.of_nat (length v)) ++ v
    end in
  let offset :=
    if api.Offset r =? 0 then [] else x10 :: varint 10 (api.Offset r) in
  if limit <? Z.of_nat (length (value ++ offset)) then Err ECodec
  else Ok (value ++ offset).

Fixpoint fields (fuel : nat) (bs : list byte) (r : api.Record_)
  : result api.Record_ :=
  match bs with
  | [] => Ok r
  | tag :: rest =>
      match fuel with
      | O => Err ECodec
      | S k =>
          match tag, uvarint 10 rest with
          | x0a, Some (n, rest') =>
              if Z.of_nat (length rest') <? n then Err ECodec
              else fields k (drop (Z.to_nat n) rest')
                     {| api.Value := take (Z.to_nat n) rest';
                        api.Offset := api.Offset r |}
          | x10, Some (v, rest') =>
              fields k rest'
                {| api.Value := api.Value r; api.Offset := u64 v |}
          | _, _ => Err ECodec
          end
      end
  end.

Definition unmarshal (bs : list byte) : result api.Record_ :=
  fields (length bs) bs {| api.Value := []; api.Offset := 0 |}.

Definition codec_of (limit : Z) : Codec :=
  {| Marshal := marshal limit; Unmarshal := unmarshal |}.

Definition codec : Codec := codec_of (2 ^ 31 - 1).

End wire.

(** ** Histories

    The states of an index, a store and a segment that the program can
    reach.  A file is smaller than 2^63 bytes ([fi.Size()] is an
    [int64]). *)

(** The index opened on the file [f] under [c], and then written to. *)
Inductive index_reach (c : Config) (f : os.File) : index.t -> Prop :=
  | index_reach_new i :
      os.Size f < 2 ^ 63 ->
      index.newIndex f c = Ok i ->
      index_reach c f i
  | index_reach_Write i off pos :
      index_reach c f i ->
      index_reach c f (fst (index.Write off pos i)).

(** [Write] for each pair of [ws] in turn. *)
Definition index_writes (ws : list (Z * Z)) (i : index.t) : index.t :=
  fold_left (fun i w => fst (index.Write (fst w) (snd w) i)) ws i.

(** The store opened on the file [f], then appended to and read. *)
Inductive store_reach (f : os.File) : store.t -> Prop :=
  | store_reach_new s :
      store.newStore f = Ok s ->
      store_reach f s
  | store_reach_Append s o1 o2 p :
      store_reach f s ->
      store_reach f (fst (store.Append o1 o2 p s))
  | store_reach_Read s o pos :
      store_reach f s ->
      store_reach f (fst (store.Read o pos s))
  | store_reach_ReadAt s o n off :
      store_reach f s ->
      store_reach f (fst (store.ReadAt o n off s)).

(** The states a store goes through after the state [s], whatever is
    called on it and whatever the device does. *)
Inductive store_later (s : store.t) : store.t -> Prop :=
  | store_later_now : store_later s s
  | store_later_Append t o1 o2 p :
      store_later s t ->
      store_later s (fst (store.Append o1 o2 p t))
  | store_later_Read t o pos :
      store_later s t ->
      store_later s (fst (store.Read o pos t))
  | store_later_ReadAt t o n off :
      store_later s t ->
      store_later s (fst (store.ReadAt o n off t)).

(** [Append] for each payload of [ps] in turn, the device taking every
    write. *)
Definition store_appends (ps : list (list byte)) (s : store.t) : store.t :=
  fold_left (fun s p => fst (store.Append os.Done os.Done p s)) ps s.

(** [Append] for each record of [rs] in turn, each with the outcomes of
    its two writes; the results are listed in order. *)
Fixpoint segment_appends {codec : Codec}
    (rs : list (os.outcome * os.outcome * api.Record_)) (s : segment.t)
  : segment.t * list (result Z) :=
  match rs with
  | [] => (s, [])
  | (o1, o2, r) :: rest =>
      let '(s', _, res) := segment.Append o1 o2 r s in
      let '(s'', ress) := segment_appends rest s' in
      (s'', res :: ress)
  end.

(** The number of appends, 0 or 1, that failed and yet left their frame
    in the store. *)
Definition dangling {codec : Codec} (o1 o2 : os.outcome) (r : api.Record_)
    (s : segment.t) : nat :=
  let '(s', _, res) := segment.Append o1 o2 r s in
  if is_Ok res
     || (store.size (segment.store s') =? store.size (segment.store s))
  then 0%nat else 1%nat.

(** The segment opened at [base] under [c] in a directory that has
    neither of its files, then appended to and read, and closed and
    opened again; [k] counts the dangling frames.  A segment that is
    closed and opened again holds at most 2^32 entries, the range of a
    relative offset. *)
Inductive segment_reach {codec : Codec} (c : Config) (base : Z)
  : nat -> segment.t -> Prop :=
  | segment_reach_new d s :
      d !! segment.fileName base ".store" = None ->
      d !! segment.fileName base ".index" = None ->
      segment.newSegment d base c = Ok s ->
      segment_reach c base 0 s
  | segment_reach_Append k s o1 o2 r :
      segment_reach c base k s ->
      segment_reach c base (k + dangling o1 o2 r s)
                    (fst (fst (segment.Append o1 o2 r s)))
  | segment_reach_Read k s o off :
      segment_reach c base k s ->
      segment_reach c base k (fst (segment.Read o off s))
  | segment_reach_reopen k s o d d' s' :
      segment_reach c base k s ->
      index.size (segment.index s) / 12 <= 2 ^ 32 ->
      segment.Close o s d = (d', Ok tt) ->
      segment.newSegment d' base c = Ok s' ->
      segment_reach c base k s'.

(** The store holds the frames of [ps] below its logical size, and
    above it what a failed write left. *)
Definition store_framed (ps : list (list byte)) (s : store.t) : Prop :=
  exists junk,
    store.contents s = concat (map frame ps) ++ junk
    /\ store.size s = Z.of_nat (length (concat (map frame ps)))
    /\ (bufio.err (store.buf s) = None -> junk = []).

(** The files of the segment at [base]. *)
Definition segment_names (base : Z) (s : segment.t) : Prop :=
  os.Name (store.File (segment.store s)) = segment.fileName base ".store"
  /\ index.file (segment.index s) = segment.fileName base ".index".

(** What a segment opened on fresh files keeps, [k] being the number
    of dangling frames. *)
Definition segment_inv (c : Config) (base : Z) (k : nat) (s : segment.t)
  : Prop :=
  segment.baseOffset s = base
  /\ index_reach c (emptyFile (segment.fileName base ".index"))
                 (segment.index s)
  /\ segment.nextOffset s = u64 (base + index.size (segment.index s) / 12)
  /\ (forall j, Z.of_nat j < index.size (segment.index s) / 12 ->
        fst (index.entry j (index.mmap (segment.index s))) = u32 (Z.of_nat j))
  /\ exists ps,
       store_framed ps (segment.store s)
       /\ Z.of_nat (length ps)
          = index.size (segment.index s) / 12 + Z.of_nat k.

(** [Append] on the pointer its callers pass, [None] being nil: the
    first assignment, [record.Offset = cur], panics on a nil record and
    nothing is done. *)
Definition segment_Append_ptr {codec : Codec} (o1 o2 : os.outcome)
    (record : option api.Record_) (s : segment.t)
  : segment.t * option api.Record_ * result Z :=
  match record with
  | None => (s, None, Panic)
  | Some r =>
      let '(s', r', res) := segment.Append o1 o2 r s in (s', Some r', res)
  end.

(** The records a run of appends accepts, stamped with their offsets,
    in order. *)
Fixpoint segment_accepted {codec : Codec}
    (rs : list (os.outcome * os.outcome * api.Record_)) (s : segment.t)
  : list api.Record_ :=
  match rs with
  | [] => []
  | (o1, o2, r) :: rest =>
      let '(s', r', res) := segment.Append o1 o2 r s in
      (if is_Ok res then [r'] else []) ++ segment_accepted rest s'
  end.

(** The states of [segment_reach] with the records the segment has
    accepted so far, as [Append] stamped them. *)
Inductive segment_log {codec : Codec} (c : Config) (base : Z)
  : list api.Record_ -> segment.t -> Prop :=
  | segment_log_new d s :
      d !! segment.fileName base ".store" = None ->
      d !! segment.fileName base ".index" = None ->
      segment.newSegment d base c = Ok s ->
      segment_log c base [] s
  | segment_log_Append rs s o1 o2 r :
      segment_log c base rs s ->
      segment_log c base
        (rs ++ if is_Ok (snd (segment.Append o1 o2 r s))
               then [snd (fst (segment.Append o1 o2 r s))] else [])
        (fst (fst (segment.Append o1 o2 r s)))
  | segment_log_Read rs s o off :
      segment_log c base rs s ->
      segment_log c base rs (fst (segment.Read o off s))
  | segment_log_reopen rs s o d d' s' :
      segment_log c base rs s ->
      index.size (segment.index s) / 12 <= 2 ^ 32 ->
      segment.Close o s d = (d', Ok tt) ->
      segment.newSegment d' base c = Ok s' ->
      segment_log c base rs s'.

(** Entry [j] of the index points at the frame of the [j]-th record
    accepted. *)
Definition segment_holds {codec : Codec} (base : Z) (rs : list api.Record_)
    (s : segment.t) : Prop :=
  Z.of_nat (length rs) = index.size (segment.index s) / 12
  /\ forall j r, rs !! j = Some r ->
       api.Offset r = u64 (base + Z.of_nat j)
       /\ exists pre p post,
            Marshal r = Ok p
            /\ store.contents (segment.store s) = pre ++ frame p ++ post
            /\ snd (index.entry j (index.mmap (segment.index s)))
               = Z.of_nat (length pre).

(** ** Fixtures *)

Definition mkConfig (maxStore maxIndex initial : Z) : Config :=
  {| Segment := {| MaxStoreBytes := maxStore; MaxIndexBytes := maxIndex;
                   InitialOffset := initial |} |}.

Definition bytes_of_string (s : string) : list byte :=
  map Ascii.byte_of_ascii (String.list_ascii_of_string s).

(** A store on an empty file after the appends [ps]. *)
Definition storeAfter (ps : list (list byte)) : store.t :=
  match store.newStore (emptyFile "0.store") with
  | Ok s => store_appends ps s
  | _ => {| store.File := emptyFile ""; store.buf := bufio.NewWriter;
            store.size := 0 |}
  end.

Definition record (value : string) : api.Record_ :=
  {| api.Value := bytes_of_string value; api.Offset := 0 |}.

(** The segment opened in an empty directory at [base], with an index of
    [maxIndex] bytes, after appending the records of [rs]. *)
Definition segmentAfter (maxIndex base : Z)
    (rs : list (os.outcome * os.outcome * api.Record_)) : segment.t :=
  match segment.newSegment ∅ base (mkConfig 1024 maxIndex 0) with
  | Ok s => fst (segment_appends (codec := wire.codec) rs s)
  | _ => {| segment.store := storeAfter [];
            segment.index := {| index.file := ""; index.mmap := [];
                                index.size := 0 |};
            segment.baseOffset := 0; segment.nextOffset := 0;
            segment.config := mkConfig 0 0 0 |}
  end.

(** The directory left by closing [s], and the segment opened on it
    again at [base]. *)
Definition closedDir (s : segment.t) : gmap string (list byte) :=
  fst (segment.Close os.Done s ∅).

Definition reopened (maxIndex base : Z) (s : segment.t) : segment.t :=
  match segment.newSegment (closedDir s) base (mkConfig 1024 maxIndex 0) with
  | Ok s' => s'
  | _ => s
  end.

Definition accepted (value : string) : os.outcome * os.outcome * api.Record_ :=
  (os.Done, os.Done, record value).

(** A fresh index of [maxIndex] bytes after the writes [ws]; an index
    that cannot be mapped stands as the empty one. *)
Definition indexAfter (maxIndex : Z) (ws : list (Z * Z)) : index.t :=
  match index.newIndex (emptyFile "0.index") (mkConfig 1024 maxIndex 0) with
  | Ok i => index_writes ws i
  | _ => {| index.file := ""; index.mmap := []; index.size := 0 |}
  end.

(** A log in memory, for the examples of the service: the records
    appended, the offset of a record being its place in the list; a read
    beyond the last record returns the error of the type
    [api.ErrOffsetOutOfRange]. *)
Inductive memError : Type :=
  | OffsetOutOfRange (off : Z)
  | Unavailable.

Definition memLog : server.CommitLog (list api.Record_) memError :=
  {| server.Append := fun r l =>
       (l ++ [{| api.Value := api.Value r;
                 api.Offset := Z.of_nat (length l) |}],
        server.Value (Z.of_nat (length l)));
     server.Read := fun off l =>
       (l, match l !! Z.to_nat off with
           | Some r => server.Value r
           | None => server.Error (OffsetOutOfRange off)
           end) |}.

Definition memOutOfRange (e : memError) : bool :=
  match e with OffsetOutOfRange _ => true | Unavailable => false end.

Definition produceRequest (value : string) : ProduceRequest.t :=
  {| ProduceRequest.Record_ := record value |}.

(** * Lemmas on the encoding *)

Lemma Z_of_byte_range b : 0 <= Z_of_byte b < 256.
Proof.
  unfold Z_of_byte. pose proof (Byte.to_N_bounded b). lia.
Qed.

Lemma Z_of_byte_of_Z z : Z_of_byte (byte_of_Z z) = z mod 256.
Proof.
  unfold byte_of_Z, Z_of_byte.
  change 255 with (Z.ones 8). rewrite Z.land_ones by lia.
  change (2 ^ 8) with 256.
  pose proof (Z.mod_pos_bound z 256 ltac:(lia)) as Hb.
  destruct (Byte.of_N (Z.to_N (z mod 256))) as [b|] eqn:E.
  - apply Byte.to_of_N in E. rewrite E. lia.
  - apply Byte.of_N_None_iff in E. lia.
Qed.

Lemma be_bytes_length n v : length (be_bytes n v) = n.
Proof. induction n; simpl; congruence. Qed.

Lemma be_value_bytes n : forall acc v,
  0 <= acc ->
  be_value acc (be_bytes n v) = acc * 2 ^ (8 * Z.of_nat n) + v mod 2 ^ (8 * Z.of_nat n).
Proof.
  induction n as [|k IH]; intros acc v Hacc.
  - simpl. rewrite Z.mod_1_r. lia.
  - cbn [be_bytes be_value].
    rewrite Z_of_byte_of_Z.
    pose proof (Z.mod_pos_bound (Z.shiftr v (8 * Z.of_nat k)) 256 ltac:(lia)) as Hb.
    assert (Hdisj : Z.land (acc * 256) (Z.shiftr v (8 * Z.of_nat k) mod 256) = 0).
    { apply Z.bits_inj'. intros i Hi. rewrite Z.land_spec, Z.bits_0.
      change 256 with (2 ^ 8). destruct (Z.ltb_spec i 8).
      - rewrite Z.mul_pow2_bits_low by lia. reflexivity.
      - rewrite Z.mod_pow2_bits_high by lia. apply andb_false_r. }
    assert (Hor : Z.lor (Z.shiftl acc 8) (Z.shiftr v (8 * Z.of_nat k) mod 256)
                  = acc * 256 + Z.shiftr v (8 * Z.of_nat k) mod 256).
    { rewrite Z.shiftl_mul_pow2 by lia. change (2 ^ 8) with 256.
      rewrite <- Z.lxor_lor by exact Hdisj.
      symmetry. apply Z.add_nocarry_lxor. exact Hdisj. }
    rewrite Hor, IH by lia.
    rewrite Z.shiftr_div_pow2 by lia.
    replace (8 * Z.of_nat (S k)) with (8 * Z.of_nat k + 8) by lia.
    rewrite Z.pow_add_r by lia. change (2 ^ 8) with 256.
    rewrite (Z.rem_mul_r v (2 ^ (8 * Z.of_nat k)) 256) by lia.
    ring.
Qed.

Lemma Uint32_PutUint32 v : Uint32 (PutUint32 v) = u32 v.
Proof.
  unfold Uint32, PutUint32, u32. rewrite be_value_bytes by lia. reflexivity.
Qed.

Lemma Uint64_PutUint64 v : Uint64 (PutUint64 v) = u64 v.
Proof.
  unfold Uint64, PutUint64, u64. rewrite be_value_bytes by lia. reflexivity.
Qed.

(** * Lemmas on machine integers and slices *)

Lemma u64_small z : 0 <= z < 2 ^ 64 -> u64 z = z.
Proof. intros H. unfold u64. apply Z.mod_small. exact H. Qed.

Lemma u32_small z : 0 <= z < 2 ^ 32 -> u32 z = z.
Proof. intros H. unfold u32. apply Z.mod_small. exact H. Qed.

Lemma u64_range z : 0 <= u64 z < 2 ^ 64.
Proof. unfold u64. apply Z.mod_pos_bound. lia. Qed.

Lemma u32_range z : 0 <= u32 z < 2 ^ 32.
Proof. unfold u32. apply Z.mod_pos_bound. lia. Qed.

Lemma u32_u64 z : u32 (u64 z) = u32 z.
Proof.
  unfold u32, u64. apply Z.mod_mod_divide.
  exists (2 ^ 32). reflexivity.
Qed.

Lemma u32_i64 z : u32 (i64 z) = u32 z.
Proof.
  unfold i64. destruct (u64 z <? 2 ^ 63).
  - apply u32_u64.
  - rewrite <- (u32_u64 z). unfold u32.
    change (2 ^ 64) with (2 ^ 32 * 2 ^ 32).
    rewrite <- (Z.mod_add (u64 z - 2 ^ 32 * 2 ^ 32) (2 ^ 32) (2 ^ 32)) by lia.
    f_equal. lia.
Qed.

Lemma u64_add_l a b : u64 (u64 a + b) = u64 (a + b).
Proof. unfold u64. apply Zplus_mod_idemp_l. Qed.

Lemma u64_add_r a b : u64 (a + u64 b) = u64 (a + b).
Proof. unfold u64. apply Zplus_mod_idemp_r. Qed.

Lemma u64_sub_l a b : u64 (u64 a - b) = u64 (a - b).
Proof. unfold u64. apply Zminus_mod_idemp_l. Qed.

Lemma u64_neg x : - 2 ^ 64 <= x < 0 -> u64 x = x + 2 ^ 64.
Proof.
  intros H. unfold u64. rewrite <- (Z.mod_add x 1 (2 ^ 64)) by lia.
  apply Z.mod_small. lia.
Qed.

Lemma u32_neg x : - 2 ^ 32 <= x < 0 -> u32 x = x + 2 ^ 32.
Proof.
  intros H. unfold u32. rewrite <- (Z.mod_add x 1 (2 ^ 32)) by lia.
  apply Z.mod_small. lia.
Qed.

Lemma i64_small z : 0 <= z < 2 ^ 63 -> i64 z = z.
Proof.
  intros H. unfold i64. rewrite u64_small by lia.
  destruct (Z.ltb_spec z (2 ^ 63)); lia.
Qed.

Lemma slice_ok lo hi s :
  0 <= lo <= hi -> hi <= Z.of_nat (length s) ->
  slice lo hi s = Ok (take (Z.to_nat (hi - lo)) (drop (Z.to_nat lo) s)).
Proof.
  intros H1 H2. unfold slice.
  destruct (Z.leb_spec 0 lo), (Z.leb_spec lo hi),
    (Z.leb_spec hi (Z.of_nat (length s))); try lia. reflexivity.
Qed.

Lemma slice_put_ok lo hi bs s :
  0 <= lo -> hi = lo + Z.of_nat (length bs) -> hi <= Z.of_nat (length s) ->
  slice_put lo hi bs s
  = Ok (take (Z.to_nat lo) s ++ bs ++ drop (Z.to_nat lo + length bs) s).
Proof.
  intros H1 H2 H3. unfold slice_put.
  destruct (Z.leb_spec 0 lo), (Z.leb_spec lo hi),
    (Z.leb_spec hi (Z.of_nat (length s))),
    (Z.leb_spec (Z.of_nat (length bs)) (hi - lo)); try lia. reflexivity.
Qed.

(** * The index *)

Lemma index_Write_maxed off pos i :
  0 <= index.size i < 2 ^ 63 ->
  Z.of_nat (length (index.mmap i)) < index.size i + 12 ->
  index.Write off pos i = (i, Err EOF).
Proof.
  intros Hs Hm. unfold index.Write, index.IsMaxed.
  change index.entWidth with 12. rewrite u64_small by lia.
  destruct (Z.ltb_spec (Z.of_nat (length (index.mmap i))) (index.size i + 12));
    [reflexivity | lia].
Qed.

Lemma index_Write_ok off pos i :
  0 <= index.size i < 2 ^ 63 ->
  index.size i + 12 <= Z.of_nat (length (index.mmap i)) ->
  index.Write off pos i
  = ({| index.file := index.file i;
        index.mmap :=
          take (Z.to_nat (index.size i)) (index.mmap i)
          ++ PutUint32 off ++ PutUint64 pos
          ++ drop (Z.to_nat (index.size i) + 12) (index.mmap i);
        index.size := index.size i + 12 |}, Ok tt).
Proof.
  intros Hs Hm. unfold index.Write, index.IsMaxed.
  change index.entWidth with 12. change index.offWidth with 4.
  rewrite !u64_small by lia.
  destruct (Z.ltb_spec (Z.of_nat (length (index.mmap i))) (index.size i + 12));
    [lia |].
  set (m := index.mmap i) in *. set (n := Z.to_nat (index.size i)).
  assert (Hn : (n + 12 <= length m)%nat) by lia.
  rewrite (slice_put_ok (index.size i) _ (PutUint32 off) m);
    [| lia | unfold PutUint32; rewrite be_bytes_length; lia | lia].
  fold n.
  assert (Hl4 : length (PutUint32 off) = 4%nat) by apply be_bytes_length.
  assert (Hl8 : length (PutUint64 pos) = 8%nat) by apply be_bytes_length.
  rewrite Hl4.
  rewrite slice_put_ok;
    [| lia | rewrite Hl8; lia
     | rewrite !length_app, length_take, length_drop, Hl4; lia].
  rewrite Hl8. replace (Z.to_nat (index.size i + 4)) with (n + 4)%nat by lia.
  f_equal. f_equal.
  assert (Hlt : length (take n m) = n) by (rewrite length_take; lia).
  rewrite (app_assoc (take n m)).
  rewrite take_app_length' by (rewrite length_app, Hlt, Hl4; lia).
  rewrite drop_app_ge by (rewrite length_app, Hlt, Hl4; lia).
  rewrite length_app, Hlt, Hl4.
  rewrite drop_drop. rewrite <- app_assoc.
  do 3 f_equal. f_equal. lia.
Qed.

Lemma index_Write_cases off pos i :
  0 <= index.size i < 2 ^ 63 ->
  (Z.of_nat (length (index.mmap i)) < index.size i + 12
   /\ index.Write off pos i = (i, Err EOF))
  \/ (index.size i + 12 <= Z.of_nat (length (index.mmap i))
      /\ index.Write off pos i
         = ({| index.file := index.file i;
               index.mmap :=
                 take (Z.to_nat (index.size i)) (index.mmap i)
                 ++ PutUint32 off ++ PutUint64 pos
                 ++ drop (Z.to_nat (index.size i) + 12) (index.mmap i);
               index.size := index.size i + 12 |}, Ok tt)).
Proof.
  intros Hs.
  destruct (Z.lt_ge_cases (Z.of_nat (length (index.mmap i))) (index.size i + 12)).
  - left. split; [assumption | apply index_Write_maxed; assumption].
  - right. split; [assumption | apply index_Write_ok; assumption].
Qed.

Lemma put_entry_length (m : list byte) n off pos :
  (n + 12 <= length m)%nat ->
  length (take n m ++ PutUint32 off ++ PutUint64 pos ++ drop (n + 12) m)
  = length m.
Proof.
  intros H. rewrite !length_app, length_take, length_drop.
  unfold PutUint32, PutUint64. rewrite !be_bytes_length. lia.
Qed.

Lemma newIndex_inv f c i :
  os.Size f < 2 ^ 63 ->
  index.newIndex f c = Ok i ->
  index.size i = os.Size f
  /\ index.file i = os.Name f
  /\ index.mmap i
     = resize (Z.to_nat (i64 (MaxIndexBytes (Segment c)))) x00 (os.data f)
  /\ 0 < Z.of_nat (length (index.mmap i)) < 2 ^ 63
  /\ Z.of_nat (length (index.mmap i)) = i64 (MaxIndexBytes (Segment c)).
Proof.
  intros Hf. unfold index.newIndex, os.Truncate, os.Map.
  set (M := i64 (MaxIndexBytes (Segment c))).
  assert (HM : M < 2 ^ 63).
  { unfold M, i64. pose proof (u64_range (MaxIndexBytes (Segment c))).
    destruct (_ <? _) eqn:E; [apply Z.ltb_lt in E|]; lia. }
  destruct (Z.ltb_spec M 0); [discriminate |]. cbn [bind].
  unfold os.Size at 1. cbn [os.data].
  rewrite length_resize.
  destruct (Z.eqb_spec (Z.of_nat (Z.to_nat M)) 0); [discriminate |].
  cbn [bind os.data os.Name]. intros [= <-]. cbn.
  rewrite length_resize. unfold os.Size in *.
  repeat split; try lia. apply u64_small. lia.
Qed.

(** What every index opened by [newIndex] keeps. *)
Lemma index_reach_inv c f i :
  index_reach c f i ->
  0 <= index.size i < 2 ^ 63
  /\ 0 < Z.of_nat (length (index.mmap i)) < 2 ^ 63
  /\ Z.of_nat (length (index.mmap i)) = i64 (MaxIndexBytes (Segment c)).
Proof.
  induction 1 as [i Hf Hnew | i off pos Hr IH].
  - destruct (newIndex_inv f c i Hf Hnew) as (Hs & _ & _ & Hl & Hl').
    unfold os.Size in *. repeat split; lia.
  - destruct IH as (Hs & Hl & Hl').
    destruct (index_Write_cases off pos i Hs) as [[Hm ->] | [Hm ->]];
      cbn [fst index.size index.mmap index.file].
    + repeat split; lia.
    + rewrite put_entry_length by lia. repeat split; lia.
Qed.

Lemma i64_u64_nonneg z : is_u64 z -> 0 <= i64 z -> i64 z = z.
Proof.
  unfold is_u64, i64. intros Hz. rewrite u64_small by lia.
  destruct (Z.ltb_spec z (2 ^ 63)); lia.
Qed.

Lemma index_reach_length c f i :
  is_u64 (MaxIndexBytes (Segment c)) ->
  index_reach c f i ->
  Z.of_nat (length (index.mmap i)) = MaxIndexBytes (Segment c).
Proof.
  intros Hc Hr. destruct (index_reach_inv c f i Hr) as (_ & Hl & Hl').
  rewrite Hl'. apply i64_u64_nonneg; [assumption | lia].
Qed.

(** An index opened on an empty file. *)
Lemma index_fresh_inv c n i :
  index_reach c (emptyFile n) i ->
  index.size i mod 12 = 0
  /\ 0 <= index.size i <= Z.of_nat (length (index.mmap i)).
Proof.
  induction 1 as [i Hf Hnew | i off pos Hr IH].
  - destruct (newIndex_inv _ c i Hf Hnew) as (Hs & _ & _ & Hl & _).
    rewrite Hs. change (os.Size (emptyFile n)) with 0.
    split; [reflexivity | lia].
  - destruct IH as (Hmod & Hs).
    pose proof (index_reach_inv _ _ _ Hr) as (Hs' & Hl & _).
    destruct (index_Write_cases off pos i Hs') as [[Hm ->] | [Hm ->]];
      cbn [fst index.size index.mmap index.file].
    + split; assumption.
    + rewrite put_entry_length by lia. split; [| lia].
      rewrite <- Z.add_mod_idemp_l, Hmod by lia. reflexivity.
Qed.

(** C4.  On an index opened by [newIndex] under [MaxIndexBytes], a write
    at the logical size [MaxIndexBytes - 12] succeeds, a write at a size
    with [size + 12 > MaxIndexBytes] returns [io.EOF] and changes
    nothing, and a write that succeeds stores the offset in four bytes
    and the position in eight, big endian, at the logical size, which it
    advances by 12: byte [k] of the four is the digit of weight
    [256 ^ (3 - k)] of the offset, byte [k] of the eight the digit of
    weight [256 ^ (7 - k)] of the position, so that [Uint32] and
    [Uint64] read the offset and the position back from the map. *)
Theorem index_write_capacity c f i off pos :
  is_u64 (MaxIndexBytes (Segment c)) ->
  index_reach c f i ->
  (index.size i = MaxIndexBytes (Segment c) - 12 ->
   snd (index.Write off pos i) = Ok tt)
  /\ (MaxIndexBytes (Segment c) < index.size i + 12 ->
      index.Write off pos i = (i, Err EOF))
  /\ (snd (index.Write off pos i) = Ok tt ->
      let i' := fst (index.Write off pos i) in
      let at_size := Z.to_nat (index.size i) in
      index.size i' = index.size i + 12
      /\ index.mmap i'
         = take (Z.to_nat (index.size i)) (index.mmap i)
           ++ PutUint32 off ++ PutUint64 pos
           ++ drop (Z.to_nat (index.size i) + 12) (index.mmap i)
      /\ length (index.mmap i') = length (index.mmap i)
      /\ (forall k, (k < 4)%nat ->
            Z_of_byte <$> index.mmap i' !! (at_size + k)%nat
            = Some ((off / 2 ^ (8 * Z.of_nat (3 - k))) mod 256))
      /\ (forall k, (k < 8)%nat ->
            Z_of_byte <$> index.mmap i' !! (at_size + 4 + k)%nat
            = Some ((pos / 2 ^ (8 * Z.of_nat (7 - k))) mod 256))
      /\ Uint32 (take 4 (drop at_size (index.mmap i'))) = u32 off
      /\ Uint64 (take 8 (drop (at_size + 4) (index.mmap i'))) = u64 pos).
Proof.
  intros Hc Hr.
  pose proof (index_reach_length c f i Hc Hr) as Hlen.
  destruct (index_reach_inv c f i Hr) as (Hs & Hl & _).
  destruct (index_Write_cases off pos i Hs) as [[Hm E] | [Hm E]];
    rewrite E; cbn [fst snd].
  - repeat split; try lia; try discriminate.
  - cbn [index.size index.mmap index.file].
    split; [intros _; reflexivity |]. split; [lia |]. intros _.
    set (m := index.mmap i). set (sz := Z.to_nat (index.size i)).
    assert (Hsz : (sz + 12 <= length m)%nat) by (unfold sz, m; lia).
    assert (Htl : length (take sz m) = sz) by (rewrite length_take; lia).
    assert (Hl4 : length (PutUint32 off) = 4%nat) by apply be_bytes_length.
    assert (Hl8 : length (PutUint64 pos) = 8%nat) by apply be_bytes_length.
    assert (Hbe : forall n v k, (k < n)%nat ->
              Z_of_byte <$> be_bytes n v !! k
              = Some ((v / 2 ^ (8 * Z.of_nat (n - 1 - k))) mod 256)).
    { induction n as [|n IH]; intros v k Hk; [lia |].
      destruct k as [|k]; cbn [be_bytes].
      - replace (S n - 1 - 0)%nat with n by lia.
        change (Some (Z_of_byte (byte_of_Z (Z.shiftr v (8 * Z.of_nat n))))
                = Some ((v / 2 ^ (8 * Z.of_nat n)) mod 256)).
        rewrite Z_of_byte_of_Z, Z.shiftr_div_pow2 by lia. reflexivity.
      - change ((byte_of_Z (Z.shiftr v (8 * Z.of_nat n)) :: be_bytes n v)
                  !! S k) with (be_bytes n v !! k).
        rewrite IH by lia.
        replace (S n - 1 - S k)%nat with (n - 1 - k)%nat by lia.
        reflexivity. }
    split; [reflexivity |]. split; [reflexivity |].
    split; [apply put_entry_length; exact Hsz |].
    split; [| split; [| split]].
    + intros k Hk.
      rewrite lookup_app_r by lia.
      rewrite lookup_app_l by lia.
      replace (sz + k - length (take sz m))%nat with k by lia.
      apply (Hbe 4%nat off k Hk).
    + intros k Hk.
      rewrite lookup_app_r by lia.
      rewrite lookup_app_r by lia.
      rewrite lookup_app_l by lia.
      replace (sz + 4 + k - length (take sz m) - length (PutUint32 off))%nat
        with k by lia.
      apply (Hbe 8%nat pos k Hk).
    + rewrite drop_app_length' by (symmetry; exact Htl).
      rewrite take_app_length' by (symmetry; exact Hl4).
      apply Uint32_PutUint32.
    + rewrite (app_assoc (take sz m)).
      rewrite drop_app_length' by (rewrite length_app; lia).
      rewrite take_app_length' by (symmetry; exact Hl8).
      apply Uint64_PutUint64.
Qed.

Lemma index_writes_reach c f ws : forall i,
  index_reach c f i -> index_reach c f (index_writes ws i).
Proof.
  induction ws as [|w ws IH]; intros i Hr; [exact Hr |].
  apply IH. apply index_reach_Write. exact Hr.
Qed.

Lemma indexAfter_reach M ws :
  is_Ok (index.newIndex (emptyFile "0.index") (mkConfig 1024 M 0)) = true ->
  index_reach (mkConfig 1024 M 0) (emptyFile "0.index") (indexAfter M ws).
Proof.
  unfold indexAfter.
  destruct (index.newIndex _ _) as [i | |] eqn:E; try discriminate.
  intros _. apply index_writes_reach. apply index_reach_new; [| exact E].
  vm_compute. reflexivity.
Qed.

Lemma index_write_capacity_witness :
  let c := mkConfig 1024 36 0 in
  let i := indexAfter 36 [(0, 0); (1, 15)] in
  let i' := fst (index.Write 258 4660 i) in
  is_u64 (MaxIndexBytes (Segment c))
  /\ index_reach c (emptyFile "0.index") i
  /\ index.size i = MaxIndexBytes (Segment c) - 12
  /\ snd (index.Write 258 4660 i) = Ok tt
  /\ index.size i' = MaxIndexBytes (Segment c)
  /\ drop 24 (index.mmap i')
     = [x00; x00; x01; x02; x00; x00; x00; x00; x00; x00; x12; x34]
  /\ Z_of_byte <$> index.mmap i' !! 26%nat = Some 1
  /\ Z_of_byte <$> index.mmap i' !! 34%nat = Some 18
  /\ index.Write 3 47 i' = (i', Err EOF).
Proof.
  intros c i i'.
  assert (Hc : is_u64 (MaxIndexBytes (Segment c))) by (vm_compute; split; congruence).
  assert (Hr : index_reach c (emptyFile "0.index") i)
    by (apply indexAfter_reach; reflexivity).
  split; [exact Hc |]. split; [exact Hr |].
  split; [reflexivity |].
  destruct (index_write_capacity c (emptyFile "0.index") i 258 4660 Hc Hr)
    as (Hok & _ & Hstep).
  assert (Hres : snd (index.Write 258 4660 i) = Ok tt)
    by (apply Hok; reflexivity).
  destruct (Hstep Hres) as (Hsize & Hmap & _ & H4 & H8 & _).
  fold i' in Hsize, Hmap, H4, H8.
  split; [exact Hres |].
  split; [rewrite Hsize; reflexivity |].
  split; [rewrite Hmap; vm_compute; reflexivity |].
  split; [exact (H4 2%nat ltac:(lia)) |].
  split; [exact (H8 6%nat ltac:(lia)) |].
  apply (index_write_capacity c (emptyFile "0.index") i' 3 47 Hc).
  - apply index_reach_Write. exact Hr.
  - vm_compute. reflexivity.
Defined.

(** C10, as the code has it.  On an index opened by [newIndex] on an
    empty file, after any writes (a read changes nothing: [Read] has no
    effect on the index) the logical size is a multiple of 12 and does
    not exceed the mapped length, so every entry below the size lies in
    the map; and a write that returns [io.EOF] leaves the size and the
    map as they were. *)
Theorem index_size_well_formed c n i :
  index_reach c (emptyFile n) i ->
  index.size i mod 12 = 0
  /\ 0 <= index.size i <= Z.of_nat (length (index.mmap i))
  /\ (forall k, 0 <= k < index.size i / 12 ->
        12 * k + 12 <= Z.of_nat (length (index.mmap i)))
  /\ (forall off pos, snd (index.Write off pos i) = Err EOF ->
        fst (index.Write off pos i) = i).
Proof.
  intros Hr. destruct (index_fresh_inv c n i Hr) as (Hmod & Hs).
  pose proof (index_reach_inv _ _ _ Hr) as (Hs' & _).
  split; [exact Hmod |]. split; [exact Hs |]. split.
  - intros k Hk.
    pose proof (Z.div_mod (index.size i) 12 ltac:(lia)). lia.
  - intros off pos.
    destruct (index_Write_cases off pos i Hs') as [[_ ->] | [_ ->]];
      cbn [fst snd]; [reflexivity | discriminate].
Qed.

Lemma index_size_well_formed_witness :
  let c := mkConfig 1024 12 0 in
  let i := indexAfter 12 [(0, 100)] in
  index_reach c (emptyFile "0.index") i
  /\ index.size i mod 12 = 0
  /\ snd (index.Write 1 200 i) = Err EOF
  /\ fst (index.Write 1 200 i) = i.
Proof.
  intros c i.
  assert (Hr : index_reach c (emptyFile "0.index") i)
    by (apply indexAfter_reach; reflexivity).
  destruct (index_size_well_formed c "0.index" i Hr) as (Hmod & _ & _ & Heof).
  split; [exact Hr |]. split; [exact Hmod |].
  split; [reflexivity |]. apply Heof. reflexivity.
Defined.

(** C10 as stated fails: with [MaxIndexBytes = 12], after the write
    [(0, 100)] the size is 12 and [size + 12 = 24] exceeds the mapped
    length 12. *)
Lemma index_size_plus_entry_exceeds_map :
  ~ (forall c n i, index_reach c (emptyFile n) i ->
       index.size i + 12 <= Z.of_nat (length (index.mmap i))).
Proof.
  intros H.
  specialize (H (mkConfig 1024 12 0) "0.index" (indexAfter 12 [(0, 100)])
                (indexAfter_reach 12 [(0, 100)] eq_refl)).
  vm_compute in H. apply H. reflexivity.
Qed.

(** Above its logical size, an index opened on an empty file holds
    zero bytes. *)
Lemma index_fresh_tail c n i :
  index_reach c (emptyFile n) i ->
  index.file i = n
  /\ index.mmap i
     = take (Z.to_nat (index.size i)) (index.mmap i)
       ++ replicate (length (index.mmap i) - Z.to_nat (index.size i)) x00.
Proof.
  induction 1 as [i Hf Hnew | i off pos Hr IH].
  - destruct (newIndex_inv _ c i Hf Hnew) as (Hs & Hn & Hm & _).
    rewrite Hs. change (os.Size (emptyFile n)) with 0.
    split; [exact Hn |].
    rewrite Hm. cbn [emptyFile os.data]. change (Z.to_nat 0) with 0%nat.
    rewrite resize_nil, length_replicate, Nat.sub_0_r. reflexivity.
  - destruct IH as (Hn & Ht).
    pose proof (index_reach_inv _ _ _ Hr) as (Hs' & Hl & _).
    destruct (index_fresh_inv _ _ _ Hr) as (_ & Hs).
    destruct (index_Write_cases off pos i Hs') as [[Hm ->] | [Hm ->]];
      cbn [fst index.size index.mmap index.file].
    + split; assumption.
    + split; [exact Hn |].
      set (m := index.mmap i) in *. set (k := Z.to_nat (index.size i)) in *.
      assert (Hk : (k + 12 <= length m)%nat) by lia.
      rewrite put_entry_length by exact Hk.
      replace (Z.to_nat (index.size i + 12)) with (k + 12)%nat by lia.
      assert (Hl4 : length (PutUint32 off) = 4%nat) by apply be_bytes_length.
      assert (Hl8 : length (PutUint64 pos) = 8%nat) by apply be_bytes_length.
      assert (Hpre : length (take k m ++ PutUint32 off ++ PutUint64 pos)
                     = (k + 12)%nat)
        by (rewrite !length_app, length_take; lia).
      rewrite !app_assoc, <- (app_assoc (take k m)).
      rewrite take_app_length' by (symmetry; exact Hpre).
      f_equal. rewrite Ht at 1.
      rewrite drop_app_ge by (rewrite length_take; lia).
      rewrite length_take, drop_replicate. f_equal. lia.
Qed.

Lemma newIndex_file f c i : index.newIndex f c = Ok i -> index.file i = os.Name f.
Proof.
  unfold index.newIndex.
  destruct (os.Truncate _ f) as [f' | |]; try discriminate. cbn [bind].
  destruct (os.Map f') as [m | |]; try discriminate. cbn [bind].
  intros [= <-]. reflexivity.
Qed.

Lemma index_Write_file off pos i :
  index.file (fst (index.Write off pos i)) = index.file i.
Proof.
  unfold index.Write. destruct (index.IsMaxed i); [reflexivity |].
  destruct (slice_put _ _ (PutUint32 off) _) as [m1 | |]; try reflexivity.
  destruct (slice_put _ _ (PutUint64 pos) m1) as [m2 | |]; reflexivity.
Qed.

(** Closing an index opened on an empty file leaves its entries, and
    opening it again under the same configuration gives the index that
    was closed. *)
Lemma index_Close_reopen c n i d :
  index_reach c (emptyFile n) i ->
  index.Close i d
  = (<[n := take (Z.to_nat (index.size i)) (index.mmap i)]> d, Ok tt)
  /\ index.newIndex
       {| os.Name := n;
          os.data := take (Z.to_nat (index.size i)) (index.mmap i) |} c
     = Ok i.
Proof.
  intros Hr.
  destruct (index_fresh_tail c n i Hr) as (Hn & Ht).
  destruct (index_fresh_inv c n i Hr) as (_ & Hs).
  pose proof (index_reach_inv _ _ _ Hr) as (Hs' & Hl & Hl').
  split.
  - unfold index.Close, os.Truncate. rewrite i64_small by lia.
    destruct (Z.ltb_spec (index.size i) 0); [lia |].
    cbn [os.data os.Name]. rewrite resize_le by lia. rewrite Hn. reflexivity.
  - unfold index.newIndex, os.Truncate, os.Map, os.Size. cbn [os.data os.Name].
    rewrite <- Hl'.
    destruct (Z.ltb_spec (Z.of_nat (length (index.mmap i))) 0); [lia |].
    cbn [bind os.data os.Name]. rewrite length_resize, Nat2Z.id.
    destruct (Z.eqb_spec (Z.of_nat (length (index.mmap i))) 0); [lia |].
    cbn [bind]. rewrite length_take, Nat.min_l by lia.
    rewrite Z2Nat.id, u64_small by lia.
    rewrite resize_spec, take_take, Nat.min_r, length_take, Nat.min_l by lia.
    rewrite <- Ht. rewrite <- Hn. destruct i; reflexivity.
Qed.

(** ** Reading the index *)

Lemma index_Read_EOF slot i :
  0 <= index.size i < 2 ^ 63 ->
  index.size i = 0 \/ (slot <> -1 /\ index.size i < u32 slot * 12 + 12) ->
  index.Read slot i = Err EOF.
Proof.
  intros Hs H. unfold index.Read.
  destruct (Z.eqb_spec (index.size i) 0) as [|Hnz]; [reflexivity |].
  destruct H as [H | [Hslot Hlt]]; [contradiction |].
  destruct (Z.eqb_spec slot (-1)); [contradiction |].
  change index.entWidth with 12.
  pose proof (u32_range slot) as Hu.
  rewrite (u64_small (u32 slot * 12)) by lia.
  rewrite u64_small by lia.
  destruct (Z.ltb_spec (index.size i) (u32 slot * 12 + 12)); [reflexivity | lia].
Qed.

Lemma index_Read_entry k i :
  0 <= k < 2 ^ 32 ->
  12 * k + 12 <= index.size i ->
  12 * k + 12 <= Z.of_nat (length (index.mmap i)) ->
  index.Read k i = Ok (index.entry (Z.to_nat k) (index.mmap i)).
Proof.
  intros Hk Hs Hm. unfold index.Read.
  destruct (Z.eqb_spec (index.size i) 0); [lia |].
  destruct (Z.eqb_spec k (-1)); [lia |].
  change index.entWidth with 12. change index.offWidth with 4.
  rewrite (u32_small k) by lia.
  rewrite (u64_small (k * 12)) by lia.
  rewrite !u64_small by lia.
  destruct (Z.ltb_spec (index.size i) (k * 12 + 12)); [lia |].
  rewrite !slice_ok by lia. cbn [bind]. unfold index.entry.
  replace (Z.to_nat (k * 12 + 4 - k * 12)) with 4%nat by lia.
  replace (Z.to_nat (k * 12 + 12 - (k * 12 + 4))) with 8%nat by lia.
  replace (Z.to_nat (k * 12)) with (12 * Z.to_nat k)%nat by lia.
  replace (Z.to_nat (k * 12 + 4)) with (12 * Z.to_nat k + 4)%nat by lia.
  reflexivity.
Qed.

(** An entry below the logical size and beyond the map: the slice
    expression panics. *)
Lemma index_Read_panic k i :
  0 <= k < 2 ^ 32 ->
  12 * k + 12 <= index.size i ->
  Z.of_nat (length (index.mmap i)) < 12 * k + 12 ->
  index.Read k i = Panic.
Proof.
  intros Hk Hs Hm. unfold index.Read.
  destruct (Z.eqb_spec (index.size i) 0); [lia |].
  destruct (Z.eqb_spec k (-1)); [lia |].
  change index.entWidth with 12. change index.offWidth with 4.
  rewrite (u32_small k) by lia.
  rewrite (u64_small (k * 12)) by lia.
  rewrite !u64_small by lia.
  destruct (Z.ltb_spec (index.size i) (k * 12 + 12)); [lia |].
  unfold slice.
  destruct (Z.leb_spec 0 (k * 12)); [| lia].
  destruct (Z.leb_spec (k * 12) (k * 12 + 4)); [| lia].
  destruct (Z.leb_spec 0 (k * 12 + 4)); [| lia].
  destruct (Z.leb_spec (k * 12 + 4) (k * 12 + 12)); [| lia].
  destruct (Z.leb_spec (k * 12 + 12) (Z.of_nat (length (index.mmap i)))); [lia |].
  destruct (Z.leb_spec (k * 12 + 4) (Z.of_nat (length (index.mmap i))));
    reflexivity.
Qed.

(** Slot -1 is the last slot, cut to 32 bits. *)
Lemma index_Read_last_wrap i :
  12 <= index.size i < 2 ^ 63 ->
  index.Read (-1) i = index.Read (u32 (index.size i / 12 - 1)) i.
Proof.
  intros Hs. unfold index.Read.
  destruct (Z.eqb_spec (index.size i) 0); [lia |].
  assert (1 <= index.size i / 12) by (apply Z.div_le_lower_bound; lia).
  assert (index.size i / 12 < 2 ^ 63) by (apply Z.div_lt_upper_bound; lia).
  change (-1 =? -1) with true. cbv iota.
  pose proof (u32_range (index.size i / 12 - 1)) as Hu.
  destruct (Z.eqb_spec (u32 (index.size i / 12 - 1)) (-1)); [lia |].
  change index.entWidth with 12.
  rewrite (u64_small (index.size i / 12 - 1)) by lia.
  rewrite (u32_small (u32 _)) by exact Hu.
  reflexivity.
Qed.

Lemma index_Read_last i :
  12 <= index.size i < 2 ^ 63 ->
  index.size i / 12 <= 2 ^ 32 ->
  index.Read (-1) i = index.Read (index.size i / 12 - 1) i.
Proof.
  intros Hs Hn. rewrite index_Read_last_wrap by exact Hs.
  assert (1 <= index.size i / 12) by (apply Z.div_le_lower_bound; lia).
  rewrite u32_small by lia. reflexivity.
Qed.

(** C9.  [index.Read] keeps the low 32 bits of the slot: for a slot
    [s >= 0], [Read s] is [Read (s mod 2^32)]; on an index with an
    entry, [Read (2^32)] is the entry of slot 0 and not [io.EOF]. *)
Theorem index_Read_truncates_slot i s :
  0 <= s < 2 ^ 63 ->
  index.Read s i = index.Read (s mod 2 ^ 32) i
  /\ (12 <= index.size i <= Z.of_nat (length (index.mmap i)) ->
      index.Read (2 ^ 32) i = Ok (index.entry 0 (index.mmap i))
      /\ index.Read (2 ^ 32) i = index.Read 0 i).
Proof.
  intros Hs. split.
  - unfold index.Read.
    destruct (index.size i =? 0); [reflexivity |].
    pose proof (Z.mod_pos_bound s (2 ^ 32) ltac:(lia)) as Hm.
    destruct (Z.eqb_spec s (-1)); [lia |].
    destruct (Z.eqb_spec (s mod 2 ^ 32) (-1)); [lia |].
    fold (u32 s). rewrite (u32_small (u32 s)) by apply u32_range.
    reflexivity.
  - intros Hsz.
    assert (E : index.Read (2 ^ 32) i = index.Read 0 i).
    { unfold index.Read. destruct (index.size i =? 0); reflexivity. }
    split; [| exact E].
    rewrite E. apply (index_Read_entry 0); lia.
Qed.

Lemma index_Read_truncates_slot_witness :
  let i := indexAfter 36 [(0, 0); (1, 15)] in
  0 <= 2 ^ 32 + 1 < 2 ^ 63
  /\ index.Read (2 ^ 32 + 1) i = index.Read 1 i
  /\ index.Read (2 ^ 32 + 1) i = Ok (1, 15)
  /\ index.Read (2 ^ 32) i = Ok (0, 0).
Proof.
  intros i.
  assert (H : 0 <= 2 ^ 32 + 1 < 2 ^ 63) by (split; [discriminate | reflexivity]).
  split; [exact H |].
  split; [exact (proj1 (index_Read_truncates_slot i (2 ^ 32 + 1) H)) |].
  split; reflexivity.
Defined.

(** ** The entries an index holds *)

Lemma entry_app_prefix k (pre suf : list byte) :
  (12 * k + 12 <= length pre)%nat ->
  index.entry k (pre ++ suf) = index.entry k pre.
Proof.
  intros H. unfold index.entry.
  rewrite !drop_app_le by lia.
  rewrite !take_app_le by (rewrite length_drop; lia).
  reflexivity.
Qed.

Lemma entry_take k n (m : list byte) :
  (12 * k + 12 <= n)%nat -> (n <= length m)%nat ->
  index.entry k (take n m) = index.entry k m.
Proof.
  intros H1 H2. rewrite <- (take_drop n m) at 2.
  symmetry. apply entry_app_prefix. rewrite length_take. lia.
Qed.

Lemma entry_put k (pre rest : list byte) off pos :
  length pre = (12 * k)%nat ->
  index.entry k (pre ++ PutUint32 off ++ PutUint64 pos ++ rest)
  = (u32 off, u64 pos).
Proof.
  intros H. unfold index.entry.
  assert (Hl4 : length (PutUint32 off) = 4%nat) by apply be_bytes_length.
  assert (Hl8 : length (PutUint64 pos) = 8%nat) by apply be_bytes_length.
  rewrite drop_app_length' by lia.
  rewrite take_app_length' by lia.
  rewrite (app_assoc pre), drop_app_length' by (rewrite length_app; lia).
  rewrite take_app_length' by lia.
  rewrite Uint32_PutUint32, Uint64_PutUint64. reflexivity.
Qed.

Lemma index_writes_snoc ws w i :
  index_writes (ws ++ [w]) i
  = fst (index.Write (fst w) (snd w) (index_writes ws i)).
Proof. unfold index_writes. rewrite fold_left_app. reflexivity. Qed.

(** After the writes [ws] on an index of logical size 0 that has room
    for them, slot [k] holds the [k]-th pair written. *)
Lemma index_writes_entries i0 ws :
  index.size i0 = 0 ->
  Z.of_nat (length (index.mmap i0)) < 2 ^ 63 ->
  12 * Z.of_nat (length ws) <= Z.of_nat (length (index.mmap i0)) ->
  let i := index_writes ws i0 in
  index.size i = 12 * Z.of_nat (length ws)
  /\ length (index.mmap i) = length (index.mmap i0)
  /\ (forall k w, ws !! k = Some w ->
        index.entry k (index.mmap i) = (u32 (fst w), u64 (snd w))).
Proof.
  intros H0 Hl. induction ws as [|w ws IH] using rev_ind; intros Hroom i.
  - subst i. cbn. rewrite H0. repeat split. intros k w Hk. discriminate.
  - subst i. rewrite length_app in Hroom. cbn [length] in Hroom.
    destruct IH as (Hs & Hlen & Hent); [lia |].
    rewrite index_writes_snoc.
    set (j := index_writes ws i0) in *.
    rewrite index_Write_ok by lia. cbn [fst index.size index.mmap].
    rewrite Hs, length_app. cbn [length].
    split; [lia |]. split; [rewrite put_entry_length; lia |].
    intros k v Hk.
    replace (Z.to_nat (12 * Z.of_nat (length ws))) with (12 * length ws)%nat by lia.
    assert (Htl : length (take (12 * length ws) (index.mmap j))
                  = (12 * length ws)%nat) by (rewrite length_take; lia).
    destruct (decide (k < length ws)%nat) as [Hlt | Hge].
    + rewrite lookup_app_l in Hk by exact Hlt.
      rewrite entry_app_prefix by lia.
      rewrite entry_take by lia. apply Hent. exact Hk.
    + apply lookup_lt_Some in Hk as Hk'.
      rewrite length_app in Hk'. cbn [length] in Hk'.
      assert (k = length ws) by lia. subst k.
      rewrite lookup_app_r, Nat.sub_diag in Hk by lia.
      injection Hk as <-. apply entry_put. exact Htl.
Qed.

(** C5, as the code has it.  On an index opened on an empty file and
    holding the pairs [ws], all written while there was room, at most
    2^32 of them: [Read] returns [io.EOF] when the size is 0, and for a
    slot other than -1 when [(slot mod 2^32) * 12 + 12 > size]; slot [k]
    reads as the [k]-th pair written; and slot -1 reads as the last. *)
Theorem index_read_semantics c n i0 ws :
  index.newIndex (emptyFile n) c = Ok i0 ->
  Forall (fun w => is_u32 (fst w) /\ is_u64 (snd w)) ws ->
  12 * Z.of_nat (length ws) <= Z.of_nat (length (index.mmap i0)) ->
  Z.of_nat (length ws) <= 2 ^ 32 ->
  let i := index_writes ws i0 in
  (forall slot,
     index.size i = 0 \/ (slot <> -1 /\ (slot mod 2 ^ 32) * 12 + 12 > index.size i) ->
     index.Read slot i = Err EOF)
  /\ (forall k w, ws !! k = Some w -> index.Read (Z.of_nat k) i = Ok w)
  /\ (forall w, last ws = Some w -> index.Read (-1) i = Ok w).
Proof.
  intros Hnew Hty Hroom Hcap i.
  assert (Hsz : os.Size (emptyFile n) < 2 ^ 63) by reflexivity.
  destruct (newIndex_inv (emptyFile n) c i0 Hsz Hnew)
    as (Hs0 & _ & _ & Hl & _).
  change (os.Size (emptyFile n)) with 0 in Hs0.
  destruct (index_writes_entries i0 ws Hs0 ltac:(lia) Hroom)
    as (Hs & Hlen & Hent). fold i in Hs, Hlen, Hent.
  assert (Hread : forall k w, ws !! k = Some w ->
            index.Read (Z.of_nat k) i = Ok w).
  { intros k w Hk. apply lookup_lt_Some in Hk as Hk'.
    rewrite index_Read_entry by lia.
    rewrite Nat2Z.id, (Hent k w Hk).
    rewrite Forall_lookup in Hty. destruct (Hty k w Hk) as [H32 H64].
    rewrite u32_small, u64_small by assumption. destruct w; reflexivity. }
  split; [| split].
  - intros slot H. apply index_Read_EOF; [lia |].
    destruct H as [H | [H1 H2]]; [left; exact H | right].
    split; [exact H1 | unfold u32; lia].
  - exact Hread.
  - intros w Hw. rewrite last_lookup in Hw.
    destruct ws as [|w0 ws']; [discriminate |].
    cbn [length] in *.
    rewrite index_Read_last by (rewrite Hs; try apply Z.div_le_upper_bound; lia).
    rewrite Hs.
    replace (12 * Z.of_nat (S (length ws')) / 12 - 1)
      with (Z.of_nat (Init.Nat.pred (S (length ws')))).
    + apply Hread. exact Hw.
    + rewrite Z.mul_comm, Z.div_mul by lia. cbn [Init.Nat.pred]. lia.
Qed.

Lemma index_read_semantics_witness :
  let c := mkConfig 1024 36 0 in
  let i0 := indexAfter 36 [] in
  let ws := [(0, 0); (1, 15)] in
  index.newIndex (emptyFile "0.index") c = Ok i0
  /\ Forall (fun w => is_u32 (fst w) /\ is_u64 (snd w)) ws
  /\ 12 * Z.of_nat (length ws) <= Z.of_nat (length (index.mmap i0))
  /\ Z.of_nat (length ws) <= 2 ^ 32
  /\ index.Read 0 (index_writes ws i0) = Ok (0, 0)
  /\ index.Read 1 (index_writes ws i0) = Ok (1, 15)
  /\ index.Read (-1) (index_writes ws i0) = Ok (1, 15)
  /\ index.Read 2 (index_writes ws i0) = Err EOF
  /\ index.Read (2 ^ 32 + 2) (index_writes ws i0) = Err EOF.
Proof.
  intros c i0 ws.
  assert (H1 : index.newIndex (emptyFile "0.index") c = Ok i0)
    by (vm_compute; reflexivity).
  assert (H2 : Forall (fun w => is_u32 (fst w) /\ is_u64 (snd w)) ws)
    by (repeat constructor; vm_compute; congruence).
  assert (H3 : 12 * Z.of_nat (length ws) <= Z.of_nat (length (index.mmap i0)))
    by (vm_compute; discriminate).
  assert (H4 : Z.of_nat (length ws) <= 2 ^ 32) by (vm_compute; discriminate).
  destruct (index_read_semantics c "0.index" i0 ws H1 H2 H3 H4)
    as (Heof & Hslot & Hlast).
  repeat (split; [assumption |]).
  split; [apply (Hslot 0%nat); reflexivity |].
  split; [apply (Hslot 1%nat); reflexivity |].
  split; [apply Hlast; reflexivity |].
  split; apply Heof; right; (split; [discriminate | vm_compute; reflexivity]).
Defined.

(** C5 as stated fails: on an index with one entry, [Read (2^32)] is
    that entry, although [2^32 * 12 + 12] exceeds the size 12. *)
Lemma index_Read_past_size_returns_entry :
  ~ (forall c n i slot,
       index_reach c (emptyFile n) i ->
       index.size i = 0 \/ slot * 12 + 12 > index.size i ->
       index.Read slot i = Err EOF).
Proof.
  intros H.
  specialize (H (mkConfig 1024 36 0) "0.index" (indexAfter 36 [(0, 0)])
                (2 ^ 32) (indexAfter_reach 36 [(0, 0)] eq_refl)).
  assert (E : index.Read (2 ^ 32) (indexAfter 36 [(0, 0)]) = Ok (0, 0))
    by (vm_compute; reflexivity).
  rewrite E in H. discriminate H. right. reflexivity.
Qed.

(** * The store *)

Lemma frame_length p : length (frame p) = (8 + length p)%nat.
Proof. unfold frame, PutUint64. rewrite length_app, be_bytes_length. reflexivity. Qed.

(** A successful append: the writer had no error, and the frame is
    behind everything appended before. *)
Lemma store_Append_Ok o1 o2 p s s' n pos :
  store.Append o1 o2 p s = (s', Ok (n, pos)) ->
  bufio.err (store.buf s) = None
  /\ bufio.err (store.buf s') = None
  /\ store.File s' = store.File s
  /\ store.contents s' = store.contents s ++ frame p
  /\ store.size s' = u64 (store.size s + u64 (Z.of_nat (length p) + 8))
  /\ n = u64 (Z.of_nat (length p) + 8)
  /\ pos = store.size s.
Proof.
  unfold store.Append, bufio.Write, store.contents, frame.
  destruct (bufio.err (store.buf s)) as [e|] eqn:E; [discriminate |].
  destruct o1; [| discriminate]. cbn [bufio.err bufio.pending].
  destruct o2; [| discriminate].
  intros [= <- <- <-]. cbn [store.File store.buf store.size bufio.err bufio.pending].
  change store.lenWidth with 8.
  rewrite <- !app_assoc. repeat split; reflexivity.
Qed.

(** With a writer free of errors and a device that takes the bytes, the
    append succeeds. *)
Lemma store_Append_Done p s :
  bufio.err (store.buf s) = None ->
  snd (store.Append os.Done os.Done p s)
  = Ok (u64 (Z.of_nat (length p) + 8), store.size s).
Proof.
  intros E. unfold store.Append, bufio.Write. rewrite E. reflexivity.
Qed.

(** A failed append leaves the logical size alone. *)
Lemma store_Append_size o1 o2 p s :
  is_Ok (snd (store.Append o1 o2 p s)) = false ->
  store.size (fst (store.Append o1 o2 p s)) = store.size s.
Proof.
  unfold store.Append, bufio.Write.
  destruct (bufio.err (store.buf s)); [reflexivity |].
  destruct o1; [| reflexivity]. cbn [bufio.err].
  destruct o2; [discriminate | reflexivity].
Qed.

Lemma store_Flush_contents o s :
  let '(b, f, _) := bufio.Flush o (store.buf s) (store.File s) in
  os.data f ++ bufio.pending b = store.contents s
  /\ (bufio.err b = None -> bufio.err (store.buf s) = None).
Proof.
  unfold bufio.Flush, store.contents.
  destruct (bufio.err (store.buf s)) eqn:E; [split; [reflexivity | congruence] |].
  destruct o; cbn [os.data bufio.pending bufio.err].
  - rewrite app_nil_r. split; reflexivity.
  - rewrite <- app_assoc, take_drop. split; [reflexivity | discriminate].
Qed.

Lemma store_Read_state o pos s :
  store.contents (fst (store.Read o pos s)) = store.contents s
  /\ store.size (fst (store.Read o pos s)) = store.size s
  /\ (bufio.err (store.buf (fst (store.Read o pos s))) = None ->
      bufio.err (store.buf s) = None).
Proof.
  unfold store.Read. pose proof (store_Flush_contents o s) as H.
  destruct (bufio.Flush o (store.buf s) (store.File s)) as [[b f] r].
  cbn [fst]. unfold store.contents at 1. cbn [store.File store.buf store.size].
  destruct H. repeat split; assumption.
Qed.

Lemma store_ReadAt_state o n off s :
  store.contents (fst (store.ReadAt o n off s)) = store.contents s
  /\ store.size (fst (store.ReadAt o n off s)) = store.size s
  /\ (bufio.err (store.buf (fst (store.ReadAt o n off s))) = None ->
      bufio.err (store.buf s) = None).
Proof.
  unfold store.ReadAt. pose proof (store_Flush_contents o s) as H.
  destruct (bufio.Flush o (store.buf s) (store.File s)) as [[b f] r].
  cbn [fst]. unfold store.contents at 1. cbn [store.File store.buf store.size].
  destruct H. repeat split; assumption.
Qed.

Lemma store_Append_err o1 o2 p s :
  bufio.err (store.buf (fst (store.Append o1 o2 p s))) = None ->
  is_Ok (snd (store.Append o1 o2 p s)) = true.
Proof.
  unfold store.Append, bufio.Write.
  destruct (bufio.err (store.buf s)) eqn:E; cbn [fst snd store.buf]; [congruence |].
  destruct o1; cbn [fst snd store.buf bufio.err]; [| discriminate].
  destruct o2; cbn [fst snd store.buf bufio.err]; [reflexivity | discriminate].
Qed.

(** While the writer has no error, the logical size is the number of
    bytes given to the store. *)
Lemma store_reach_size f s :
  store_reach f s ->
  bufio.err (store.buf s) = None ->
  store.size s = u64 (Z.of_nat (length (store.contents s))).
Proof.
  induction 1 as [s Hnew | s o1 o2 p Hr IH | s o pos Hr IH | s o n off Hr IH];
    intros E.
  - injection Hnew as <-. unfold store.contents. cbn. rewrite app_nil_r.
    reflexivity.
  - pose proof (store_Append_err _ _ _ _ E) as Hok.
    destruct (store.Append o1 o2 p s) as [s' [[n pos] | |]] eqn:EA;
      try discriminate.
    cbn [fst] in *.
    destruct (store_Append_Ok _ _ _ _ _ _ _ EA) as (E0 & _ & _ & Hc & Hs & _).
    rewrite Hs, Hc, IH by exact E0.
    rewrite length_app, frame_length, u64_add_l, u64_add_r. f_equal. lia.
  - destruct (store_Read_state o pos s) as (Hc & Hs & He).
    rewrite Hc, Hs. apply IH. apply He. exact E.
  - destruct (store_ReadAt_state o n off s) as (Hc & Hs & He).
    rewrite Hc, Hs. apply IH. apply He. exact E.
Qed.

(** Reading at the start of a frame returns its payload. *)
Lemma store_Read_frame s pre p post :
  bufio.err (store.buf s) = None ->
  store.contents s = pre ++ frame p ++ post ->
  Z.of_nat (length pre) + 8 + Z.of_nat (length p) < 2 ^ 63 ->
  snd (store.Read os.Done (Z.of_nat (length pre)) s) = Ok p.
Proof.
  intros E Hc Hb. unfold store.Read, bufio.Flush. rewrite E. cbn [snd bind].
  fold (store.contents s). rewrite Hc.
  unfold os.ReadAt. cbn [os.data]. change store.lenWidth with 8.
  rewrite i64_small by lia.
  destruct (Z.ltb_spec (Z.of_nat (length pre)) 0); [lia |].
  rewrite Nat2Z.id, drop_app_length.
  assert (H8 : length (PutUint64 (u64 (Z.of_nat (length p)))) = 8%nat)
    by apply be_bytes_length.
  unfold frame. rewrite <- app_assoc.
  rewrite (take_app_length' _ _ (Z.to_nat 8)) by (rewrite H8; reflexivity).
  rewrite H8. change (Z.of_nat 8 <? 8) with false. cbn [bind].
  rewrite Uint64_PutUint64, !u64_small by (try rewrite u64_small; lia).
  unfold store.make.
  destruct (Z.ltb_spec (Z.of_nat (length p)) (2 ^ 63)); [| lia]. cbn [bind].
  rewrite i64_small by lia.
  destruct (Z.ltb_spec (Z.of_nat (length pre) + 8) 0); [lia |].
  replace (Z.to_nat (Z.of_nat (length pre) + 8)) with (length pre + 8)%nat by lia.
  rewrite drop_app_ge, Nat.add_sub_swap, Nat.sub_diag by lia.
  cbn [Nat.add]. rewrite drop_app_length' by (symmetry; apply be_bytes_length).
  rewrite Nat2Z.id, take_app_length.
  destruct (Z.ltb_spec (Z.of_nat (length p)) (Z.of_nat (length p))); [lia |].
  reflexivity.
Qed.

Lemma store_appends_contents qs : forall s,
  bufio.err (store.buf s) = None ->
  bufio.err (store.buf (store_appends qs s)) = None
  /\ store.contents (store_appends qs s)
     = store.contents s ++ concat (map frame qs).
Proof.
  induction qs as [|q qs IH]; intros s E.
  - cbn. rewrite app_nil_r. split; [exact E | reflexivity].
  - cbn [store_appends fold_left map concat].
    pose proof (store_Append_Done q s E) as Hsnd.
    destruct (store.Append os.Done os.Done q s) as [s1 r] eqn:EA.
    cbn [snd fst] in *. subst r.
    destruct (store_Append_Ok _ _ _ _ _ _ _ EA) as (_ & E1 & _ & Hc & _).
    destruct (IH s1 E1) as (E2 & Hc2). fold (store_appends qs s1).
    split; [exact E2 |]. rewrite Hc2, Hc, <- app_assoc. reflexivity.
Qed.

(** C1.  On a store opened by [newStore], an append of [b] that the
    device accepts succeeds; a successful append returns
    [(8 + len b, size before)], and a read at the returned position,
    straight away or after further appends, returns [b]. *)
Theorem store_append_read f s b :
  store_reach f s ->
  (bufio.err (store.buf s) = None ->
   is_Ok (snd (store.Append os.Done os.Done b s)) = true)
  /\ (forall o1 o2 s' n pos qs,
        store.Append o1 o2 b s = (s', Ok (n, pos)) ->
        Z.of_nat (length (store.contents (store_appends qs s'))) < 2 ^ 63 ->
        n = 8 + Z.of_nat (length b)
        /\ pos = store.size s
        /\ store.size s' = store.size s + n
        /\ snd (store.Read os.Done pos (store_appends qs s')) = Ok b).
Proof.
  intros Hr. split.
  - intros E. rewrite store_Append_Done by exact E. reflexivity.
  - intros o1 o2 s' n pos qs HA Hb.
    destruct (store_Append_Ok _ _ _ _ _ _ _ HA)
      as (E0 & E1 & _ & Hc & Hs & -> & ->).
    destruct (store_appends_contents qs s' E1) as (E2 & Hc2).
    rewrite Hc2, Hc, !length_app, frame_length in Hb.
    pose proof (store_reach_size f s Hr E0) as Hsz.
    rewrite u64_small in Hsz by lia.
    rewrite Hs, (u64_small (Z.of_nat (length b) + 8)) by lia.
    rewrite u64_small by lia.
    repeat split; try lia.
    rewrite Hsz. apply store_Read_frame with (post := concat (map frame qs)).
    + exact E2.
    + rewrite Hc2, Hc, <- app_assoc. reflexivity.
    + lia.
Qed.

Lemma store_appends_reach f ps : forall s,
  store_reach f s -> store_reach f (store_appends ps s).
Proof.
  induction ps as [|p ps IH]; intros s Hr; [exact Hr |].
  apply IH. apply store_reach_Append. exact Hr.
Qed.

Lemma storeAfter_reach ps : store_reach (emptyFile "0.store") (storeAfter ps).
Proof.
  unfold storeAfter. cbn [store.newStore].
  apply store_appends_reach. apply store_reach_new. reflexivity.
Qed.

Lemma store_append_read_witness :
  let s := storeAfter [bytes_of_string "hello"] in
  let b := bytes_of_string "world" in
  let s' := fst (store.Append os.Done os.Done b s) in
  let qs := [bytes_of_string "!"] in
  store_reach (emptyFile "0.store") s
  /\ store.Append os.Done os.Done b s = (s', Ok (13, 13))
  /\ Z.of_nat (length (store.contents (store_appends qs s'))) < 2 ^ 63
  /\ store.size s = 13
  /\ store.size s' = 26
  /\ snd (store.Read os.Done 13 (store_appends qs s')) = Ok b.
Proof.
  intros s b s' qs.
  assert (Hr : store_reach (emptyFile "0.store") s) by apply storeAfter_reach.
  assert (HA : store.Append os.Done os.Done b s = (s', Ok (13, 13)))
    by (vm_compute; reflexivity).
  assert (Hb : Z.of_nat (length (store.contents (store_appends qs s'))) < 2 ^ 63)
    by (vm_compute; reflexivity).
  destruct (store_append_read (emptyFile "0.store") s b Hr) as [_ H].
  destruct (H os.Done os.Done s' 13 13 qs HA Hb) as (_ & Hpos & Hsz & Hread).
  split; [exact Hr |]. split; [exact HA |]. split; [exact Hb |].
  split; [symmetry; exact Hpos |].
  split; [rewrite Hsz, <- Hpos; reflexivity | exact Hread].
Defined.

(** * The segment *)

Section Segment.
Context {codec : Codec}.

Lemma segment_Append_Ok o1 o2 r s s' r' off :
  segment.Append o1 o2 r s = (s', r', Ok off) ->
  off = segment.nextOffset s
  /\ r' = {| api.Value := api.Value r; api.Offset := segment.nextOffset s |}
  /\ segment.nextOffset s' = u64 (segment.nextOffset s + 1)
  /\ segment.baseOffset s' = segment.baseOffset s
  /\ segment.config s' = segment.config s.
Proof.
  unfold segment.Append.
  destruct (Marshal _) as [p | |]; try discriminate.
  destruct (store.Append o1 o2 p (segment.store s)) as [st [[n pos] | |]];
    try discriminate.
  destruct (index.Write _ pos _) as [ix [[] | |]]; try discriminate.
  intros [= <- <- <-]. cbn. repeat split; reflexivity.
Qed.

Lemma segment_Append_fail o1 o2 r s :
  is_Ok (snd (segment.Append o1 o2 r s)) = false ->
  segment.nextOffset (fst (fst (segment.Append o1 o2 r s)))
  = segment.nextOffset s
  /\ segment.baseOffset (fst (fst (segment.Append o1 o2 r s)))
     = segment.baseOffset s.
Proof.
  unfold segment.Append.
  destruct (Marshal _) as [p | |]; try (split; reflexivity).
  destruct (store.Append o1 o2 p (segment.store s)) as [st [[n pos] | |]];
    try (split; reflexivity).
  destruct (index.Write _ pos _) as [ix [[] | |]];
    try (split; reflexivity).
  discriminate.
Qed.

Lemma segment_Append_stamp o1 o2 r s :
  snd (fst (segment.Append o1 o2 r s))
  = {| api.Value := api.Value r; api.Offset := segment.nextOffset s |}.
Proof.
  unfold segment.Append.
  destruct (Marshal _) as [p | |]; try reflexivity.
  destruct (store.Append o1 o2 p (segment.store s)) as [st [[n pos] | |]];
    try reflexivity.
  destruct (index.Write _ pos _) as [ix [[] | |]]; reflexivity.
Qed.

(** The offsets of a run of successful appends, in [uint64]
    arithmetic. *)
Lemma segment_appends_offsets_wrap rs : forall s,
  is_u64 (segment.nextOffset s) ->
  Forall (fun res => is_Ok res = true) (snd (segment_appends rs s)) ->
  snd (segment_appends rs s)
  = map (fun k => Ok (u64 (segment.nextOffset s + Z.of_nat k)))
        (seq 0 (length rs)).
Proof.
  induction rs as [|[[o1 o2] r] rest IH]; intros s Hty Hok; [reflexivity |].
  cbn [segment_appends length] in *.
  destruct (segment.Append o1 o2 r s) as [[s' r'] res] eqn:EA.
  specialize (IH s').
  destruct (segment_appends rest s') as [s'' ress] eqn:ER.
  cbn [snd] in *. inversion Hok as [|? ? Hres Hress]; subst.
  destruct res as [off | |]; try discriminate.
  destruct (segment_Append_Ok _ _ _ _ _ _ _ EA) as (-> & _ & Hn & _).
  cbn [seq map]. rewrite Z.add_0_r, (u64_small _ Hty). f_equal.
  rewrite IH by (try assumption; rewrite Hn; apply u64_range).
  rewrite <- seq_shift, map_map. apply map_ext.
  intros k. rewrite Hn, u64_add_l. do 2 f_equal. lia.
Qed.

Lemma segment_appends_offsets rs s :
  Forall (fun res => is_Ok res = true) (snd (segment_appends rs s)) ->
  0 <= segment.nextOffset s ->
  segment.nextOffset s + Z.of_nat (length rs) <= 2 ^ 64 ->
  snd (segment_appends rs s)
  = map (fun k => Ok (segment.nextOffset s + Z.of_nat k)) (seq 0 (length rs)).
Proof.
  intros Hok H0 Hb. destruct rs as [|x rs']; [reflexivity |].
  cbn [length] in Hb.
  rewrite segment_appends_offsets_wrap by (try assumption; split; lia).
  apply map_ext_in. intros k Hk. apply in_seq in Hk.
  cbn [length] in Hk. rewrite u64_small by lia. reflexivity.
Qed.

(** C2, as the code has it.  A successful [Append] stamps the record with
    [nextOffset],
    returns that offset and advances [nextOffset] by one; so a run of
    successful appends returns [nextOffset], [nextOffset + 1], ... in
    order: consecutive in [uint64] arithmetic, and increasing as long as
    the offsets fit in 64 bits. *)
Theorem segment_append_offsets s :
  (forall o1 o2 r s' r' off,
     segment.Append o1 o2 r s = (s', r', Ok off) ->
     off = segment.nextOffset s
     /\ api.Offset r' = segment.nextOffset s
     /\ api.Value r' = api.Value r
     /\ segment.nextOffset s' = u64 (segment.nextOffset s + 1))
  /\ (forall rs,
        Forall (fun res => is_Ok res = true) (snd (segment_appends rs s)) ->
        is_u64 (segment.nextOffset s) ->
        snd (segment_appends rs s)
        = map (fun k => Ok (u64 (segment.nextOffset s + Z.of_nat k)))
              (seq 0 (length rs)))
  /\ (forall rs,
        Forall (fun res => is_Ok res = true) (snd (segment_appends rs s)) ->
        0 <= segment.nextOffset s ->
        segment.nextOffset s + Z.of_nat (length rs) <= 2 ^ 64 ->
        snd (segment_appends rs s)
        = map (fun k => Ok (segment.nextOffset s + Z.of_nat k))
              (seq 0 (length rs))).
Proof.
  split; [| split].
  - intros o1 o2 r s' r' off EA.
    destruct (segment_Append_Ok _ _ _ _ _ _ _ EA) as (-> & -> & Hn & _).
    repeat split; try reflexivity. exact Hn.
  - intros rs Hok Hty. apply segment_appends_offsets_wrap; assumption.
  - intros rs. apply segment_appends_offsets.
Qed.

(** C7.  An [Append] that fails, at whichever stage, leaves
    [nextOffset] as it was: the next successful append returns the
    offset the failed one had stamped.  So it is when the store took the
    frame and the index refused the entry. *)
Theorem segment_append_failure o1 o2 r s :
  is_Ok (snd (segment.Append o1 o2 r s)) = false ->
  let s' := fst (fst (segment.Append o1 o2 r s)) in
  let r' := snd (fst (segment.Append o1 o2 r s)) in
  segment.nextOffset s' = segment.nextOffset s
  /\ segment.baseOffset s' = segment.baseOffset s
  /\ api.Offset r' = segment.nextOffset s
  /\ (forall o1' o2' q s'' q' off,
        segment.Append o1' o2' q s' = (s'', q', Ok off) ->
        off = api.Offset r' /\ off = segment.nextOffset s)
  /\ (forall p st n pos,
        Marshal r' = Ok p ->
        store.Append o1 o2 p (segment.store s) = (st, Ok (n, pos)) ->
        segment.store s' = st
        /\ is_Ok (snd (index.Write
                         (u32 (u64 (segment.nextOffset s - segment.baseOffset s)))
                         pos (segment.index s))) = false
        /\ segment.nextOffset s' = segment.nextOffset s).
Proof.
  intros Hfail s' r'.
  destruct (segment_Append_fail o1 o2 r s Hfail) as [Hn Hb].
  pose proof (segment_Append_stamp o1 o2 r s) as Hst. fold r' in Hst.
  split; [exact Hn |]. split; [exact Hb |].
  split; [rewrite Hst; reflexivity |]. split.
  - intros o1' o2' q s'' q' off EA.
    destruct (segment_Append_Ok _ _ _ _ _ _ _ EA) as (-> & _).
    fold s' in Hn. rewrite Hst. cbn [api.Offset]. split; [| exact Hn].
    exact Hn.
  - intros p st n pos HM HS. rewrite Hst in HM.
    subst s' r'. revert Hfail Hn. unfold segment.Append.
    rewrite HM, HS. cbn [segment.with_store segment.nextOffset
      segment.baseOffset segment.index].
    destruct (index.Write _ pos _) as [ix [[] | |]]; cbn; intros; try discriminate;
      repeat split; reflexivity.
Qed.

End Segment.

Lemma segment_append_offsets_witness :
  let s := segmentAfter 1024 5 [] in
  let rs := [accepted "hello"; accepted "world"; accepted "!"] in
  Forall (fun res => is_Ok res = true)
         (snd (segment_appends (codec := wire.codec) rs s))
  /\ 0 <= segment.nextOffset s
  /\ segment.nextOffset s + Z.of_nat (length rs) <= 2 ^ 64
  /\ snd (segment_appends (codec := wire.codec) rs s) = [Ok 5; Ok 6; Ok 7].
Proof.
  intros s rs.
  assert (H1 : Forall (fun res => is_Ok res = true)
                 (snd (segment_appends (codec := wire.codec) rs s)))
    by (vm_compute; repeat constructor).
  assert (H2 : 0 <= segment.nextOffset s) by (vm_compute; discriminate).
  assert (H3 : segment.nextOffset s + Z.of_nat (length rs) <= 2 ^ 64)
    by (vm_compute; discriminate).
  split; [exact H1 |]. split; [exact H2 |]. split; [exact H3 |].
  rewrite (proj2 (proj2 (segment_append_offsets (codec := wire.codec) s))
             rs H1 H2 H3).
  vm_compute. reflexivity.
Defined.

Lemma segment_append_failure_witness :
  let s := segmentAfter 12 0 [accepted "x"] in
  let out := segment.Append (codec := wire.codec) os.Done os.Done (record "y") s in
  is_Ok (snd out) = false
  /\ snd out = Err EOF
  /\ segment.nextOffset s = 1
  /\ segment.nextOffset (fst (fst out)) = 1
  /\ store.size (segment.store s) = 11
  /\ store.size (segment.store (fst (fst out))) = 24.
Proof.
  intros s out.
  assert (H : is_Ok (snd out) = false) by (vm_compute; reflexivity).
  destruct (segment_append_failure (codec := wire.codec)
              os.Done os.Done (record "y") s H) as (Hn & _).
  split; [exact H |]. split; [vm_compute; reflexivity |].
  split; [vm_compute; reflexivity |].
  split; [unfold out; rewrite Hn; vm_compute; reflexivity |].
  split; vm_compute; reflexivity.
Defined.

Lemma newSegment_Ok d base c s :
  segment.newSegment d base c = Ok s ->
  exists ix,
    index.newIndex (os.OpenFile d (segment.fileName base ".index")) c = Ok ix
    /\ segment.index s = ix
    /\ segment.store s
       = {| store.File := os.OpenFile d (segment.fileName base ".store");
            store.buf := bufio.NewWriter;
            store.size :=
              u64 (os.Size (os.OpenFile d (segment.fileName base ".store"))) |}
    /\ segment.baseOffset s = base
    /\ segment.config s = c
    /\ match index.Read (-1) ix with
       | Ok (off, _) => segment.nextOffset s = u64 (u64 (base + off) + 1)
       | Err _ => segment.nextOffset s = base
       | Panic => False
       end.
Proof.
  unfold segment.newSegment, store.newStore. cbn [bind].
  destruct (index.newIndex _ c) as [ix | |]; try discriminate. cbn [bind].
  intros H. exists ix.
  destruct (index.Read (-1) ix) as [[off pos] | e |]; try discriminate;
    cbn [bind] in H; injection H as <-; cbn; repeat split; reflexivity.
Qed.

Lemma entry_resize k n (m : list byte) :
  (12 * k + 12 <= n)%nat -> (12 * k + 12 <= length m)%nat ->
  index.entry k (resize n x00 m) = index.entry k m.
Proof.
  intros Hn Hm. rewrite resize_spec.
  rewrite entry_app_prefix by (rewrite length_take; lia).
  destruct (decide (n <= length m)%nat).
  - apply entry_take; lia.
  - rewrite take_ge by lia. reflexivity.
Qed.

(** C6, as the code has it.  When [newSegment] returns a segment, it
    has set [nextOffset] to [baseOffset] if the index file holds no
    entry (it is empty, or shorter than the twelve bytes of an entry),
    and to [baseOffset + off + 1], in [uint64] arithmetic, if it holds
    one to 2^32 entries, [off] being the relative offset of the last
    entry of the file.  (On a longer file [off] is read from the last
    slot cut to 32 bits.) *)
Theorem newSegment_nextOffset d base c s :
  segment.newSegment d base c = Ok s ->
  let ixf := default [] (d !! segment.fileName base ".index") in
  let last := Z.of_nat (length ixf) / 12 - 1 in
  Z.of_nat (length ixf) < 2 ^ 63 ->
  segment.baseOffset s = base
  /\ index.size (segment.index s) = Z.of_nat (length ixf)
  /\ (Z.of_nat (length ixf) < 12 -> segment.nextOffset s = base)
  /\ (12 <= Z.of_nat (length ixf) < 12 * (2 ^ 32 + 1) ->
      segment.nextOffset s
      = u64 (base + fst (index.entry (Z.to_nat last) ixf) + 1))
  /\ (12 <= Z.of_nat (length ixf) ->
      segment.nextOffset s
      = u64 (base + fst (index.entry (Z.to_nat (u32 last)) ixf) + 1)).
Proof.
  intros Hnew ixf last Hcap.
  assert (Hlast : last = Z.of_nat (length ixf) / 12 - 1) by reflexivity.
  clearbody last.
  destruct (newSegment_Ok d base c s Hnew) as (ix & Hix & Hi & _ & Hb & _ & Hn).
  assert (Hsz : os.Size (os.OpenFile d (segment.fileName base ".index")) < 2 ^ 63)
    by (unfold os.Size, os.OpenFile; cbn [os.data]; fold ixf; lia).
  destruct (newIndex_inv _ c ix Hsz Hix) as (Hs & _ & Hm & Hl & Hl').
  unfold os.Size, os.OpenFile in Hs, Hm. cbn [os.data] in Hs, Hm.
  fold ixf in Hs, Hm.
  assert (Hgen : 12 <= Z.of_nat (length ixf) ->
            segment.nextOffset s
            = u64 (base + fst (index.entry (Z.to_nat (u32 last)) ixf) + 1)).
  { intros H12.
    assert (Hq : 1 <= Z.of_nat (length ixf) / 12)
      by (apply Z.div_le_lower_bound; lia).
    pose proof (Z.mul_div_le (Z.of_nat (length ixf)) 12 ltac:(lia)) as Hle.
    pose proof (u32_range last) as Hu.
    assert (Hk : u32 last <= last) by (unfold u32; apply Z.mod_le; lia).
    rewrite index_Read_last_wrap in Hn by (rewrite Hs; lia).
    rewrite Hs, <- Hlast in Hn.
    destruct (Z.lt_ge_cases (Z.of_nat (length (index.mmap ix)))
                (12 * u32 last + 12)) as [Hlt | Hge].
    - rewrite index_Read_panic in Hn by lia. contradiction.
    - rewrite index_Read_entry in Hn by lia.
      rewrite Hm in Hn.
      rewrite entry_resize in Hn by (rewrite Hm, length_resize in Hge; lia).
      destruct (index.entry (Z.to_nat (u32 last)) ixf) as [off pos]. cbn [fst].
      rewrite Hn, u64_add_l. reflexivity. }
  split; [exact Hb |]. split; [rewrite Hi; exact Hs |]. split; [| split].
  - intros Hshort.
    assert (HE : index.Read (-1) ix = Err EOF).
    { unfold index.Read. rewrite Hs.
      destruct (Z.eqb_spec (Z.of_nat (length ixf)) 0); [reflexivity |].
      change index.entWidth with 12. rewrite Z.div_small by lia.
      change (-1 =? -1) with true. cbv iota.
      change (u64 (u64 (u32 (u64 (0 - 1)) * 12) + 12)) with (2 ^ 32 * 12).
      destruct (Z.ltb_spec (Z.of_nat (length ixf)) (2 ^ 32 * 12));
        [reflexivity | lia]. }
    rewrite HE in Hn. exact Hn.
  - intros [H12 Hcap32]. rewrite (Hgen H12).
    assert (Hq : 1 <= Z.of_nat (length ixf) / 12 <= 2 ^ 32).
    { split; [apply Z.div_le_lower_bound; lia |].
      apply Z.lt_succ_r. apply Z.div_lt_upper_bound; lia. }
    rewrite (u32_small last) by lia. reflexivity.
  - exact Hgen.
Qed.

Lemma newSegment_nextOffset_witness :
  let s0 := segmentAfter 1024 7 [accepted "a"; accepted "b"] in
  let d := closedDir s0 in
  let c := mkConfig 1024 1024 0 in
  let s := reopened 1024 7 s0 in
  segment.newSegment d 7 c = Ok s
  /\ d !! "7.index"
     = Some (PutUint32 0 ++ PutUint64 0 ++ PutUint32 1 ++ PutUint64 13)
  /\ Z.of_nat (length (default [] (d !! segment.fileName 7 ".index")))
     < 2 ^ 63
  /\ segment.nextOffset s = 9
  /\ segment.newSegment ∅ 7 c = Ok (segmentAfter 1024 7 [])
  /\ segment.nextOffset (segmentAfter 1024 7 []) = 7.
Proof.
  intros s0 d c s.
  assert (H1 : segment.newSegment d 7 c = Ok s) by (vm_compute; reflexivity).
  assert (H2 : Z.of_nat (length (default [] (d !! segment.fileName 7 ".index")))
               < 2 ^ 63) by (vm_compute; reflexivity).
  destruct (newSegment_nextOffset d 7 c s H1 H2) as (_ & _ & _ & Hlast & _).
  split; [exact H1 |]. split; [vm_compute; reflexivity |].
  split; [exact H2 |].
  split; [rewrite Hlast by (vm_compute; split; [discriminate | reflexivity]);
          vm_compute; reflexivity |].
  assert (H3 : segment.newSegment ∅ 7 c = Ok (segmentAfter 1024 7 []))
    by (vm_compute; reflexivity).
  split; [exact H3 |].
  apply (newSegment_nextOffset ∅ 7 c _ H3); vm_compute; reflexivity.
Defined.

(** ** Frames *)

Lemma frames_step k (bs : list byte) :
  bs <> [] ->
  frames (S k) bs
  = let n := Z.to_nat (Uint64 (take 8 bs)) in
    if (length bs <? 8 + n)%nat then None
    else match frames k (drop (8 + n) bs) with
         | Some ps => Some (take n (drop 8 bs) :: ps)
         | None => None
         end.
Proof. destruct bs; [contradiction | reflexivity]. Qed.

Lemma frame_not_nil p rest : frame p ++ rest <> [].
Proof.
  intros H. apply (f_equal length) in H.
  rewrite length_app, frame_length in H. discriminate.
Qed.

Lemma frame_split p rest :
  Z.of_nat (length p) < 2 ^ 64 ->
  Z.to_nat (Uint64 (take 8 (frame p ++ rest))) = length p
  /\ drop 8 (frame p ++ rest) = p ++ rest.
Proof.
  intros Hp. unfold frame.
  assert (H8 : length (PutUint64 (u64 (Z.of_nat (length p)))) = 8%nat)
    by apply be_bytes_length.
  rewrite <- app_assoc.
  rewrite take_app_length', drop_app_length' by (symmetry; exact H8).
  rewrite Uint64_PutUint64, !u64_small by (try rewrite u64_small; lia).
  split; [apply Nat2Z.id | reflexivity].
Qed.

Lemma frames_concat ps : forall fuel,
  (length ps <= fuel)%nat ->
  Forall (fun p => Z.of_nat (length p) < 2 ^ 64) ps ->
  frames fuel (concat (map frame ps)) = Some ps.
Proof.
  induction ps as [|p ps IH]; intros fuel Hfuel Hlen.
  - destruct fuel; reflexivity.
  - destruct fuel as [|k]; [cbn in Hfuel; lia |].
    cbn [map concat]. rewrite frames_step by apply frame_not_nil.
    inversion Hlen as [|? ? Hp Hps]; subst.
    destruct (frame_split p (concat (map frame ps)) Hp) as [Hn Hd].
    rewrite Hn. cbv zeta. rewrite Hd, take_app_length.
    rewrite length_app, frame_length.
    destruct (Nat.ltb_spec (8 + length p + length (concat (map frame ps)))
                           (8 + length p)); [lia |].
    rewrite drop_app_length' by (rewrite frame_length; reflexivity).
    rewrite IH by (try assumption; cbn in Hfuel; lia). reflexivity.
Qed.

Lemma concat_frames_length ps :
  (8 * length ps <= length (concat (map frame ps)))%nat
  /\ Forall (fun p => (length p <= length (concat (map frame ps)))%nat) ps.
Proof.
  induction ps as [|p ps [IH1 IH2]]; [split; [reflexivity | constructor] |].
  cbn [map concat length]. rewrite length_app, frame_length. split; [lia |].
  constructor; [lia |].
  eapply Forall_impl; [exact IH2 |]. intros q Hq. cbn beta in *. lia.
Qed.

Lemma store_framed_frames ps s :
  store_framed ps s ->
  Z.of_nat (length (store.contents s)) < 2 ^ 63 ->
  store_frames s = Some ps.
Proof.
  intros (junk & Hc & Hs & _) Hb. unfold store_frames.
  rewrite Hs, Nat2Z.id, Hc, take_app_length.
  rewrite Hc, length_app in Hb.
  destruct (concat_frames_length ps) as [H8 Hall].
  apply frames_concat; [lia |].
  eapply Forall_impl; [exact Hall |]. intros q Hq. cbn beta in *. lia.
Qed.

Lemma store_framed_new f s :
  os.data f = [] -> store.newStore f = Ok s -> store_framed [] s.
Proof.
  intros Hf [= <-]. exists []. unfold store.contents, os.Size.
  cbn. rewrite Hf. repeat split; reflexivity.
Qed.

Lemma store_framed_Append_Ok ps o1 o2 p s s' n pos :
  store_framed ps s ->
  store.Append o1 o2 p s = (s', Ok (n, pos)) ->
  Z.of_nat (length (store.contents s')) < 2 ^ 63 ->
  store_framed (ps ++ [p]) s' /\ store.size s' <> store.size s.
Proof.
  intros (junk & Hc & Hs & Hj) HA Hb.
  destruct (store_Append_Ok _ _ _ _ _ _ _ HA) as (E0 & E1 & _ & Hc' & Hs' & _).
  rewrite (Hj E0), app_nil_r in Hc.
  rewrite Hc', Hc, length_app, frame_length in Hb.
  assert (Hsz : store.size s' = store.size s + (Z.of_nat (length p) + 8)).
  { rewrite Hs', (u64_small (_ + 8)) by lia. apply u64_small. lia. }
  split; [| lia].
  exists []. rewrite app_nil_r, map_app, concat_app. cbn [map concat].
  rewrite app_nil_r, length_app, frame_length, Hc', Hc, Hsz, Hs.
  repeat split. lia.
Qed.

Lemma store_framed_Append_fail ps o1 o2 p s :
  store_framed ps s ->
  is_Ok (snd (store.Append o1 o2 p s)) = false ->
  store_framed ps (fst (store.Append o1 o2 p s))
  /\ store.size (fst (store.Append o1 o2 p s)) = store.size s.
Proof.
  intros (junk & Hc & Hs & Hj) Hfail.
  split; [| apply store_Append_size; exact Hfail].
  revert Hfail. unfold store.Append, bufio.Write, store_framed, store.contents in *.
  destruct (bufio.err (store.buf s)) as [e|] eqn:E; cbn [fst snd].
  - intros _. exists junk. cbn [store.File store.buf store.size].
    rewrite E. repeat split; assumption.
  - rewrite (Hj eq_refl), app_nil_r in Hc.
    destruct o1 as [|k1]; cbn [bufio.err bufio.pending fst snd].
    + destruct o2 as [|k2]; cbn [fst snd]; [discriminate |]. intros _.
      eexists. cbn [store.File store.buf store.size bufio.pending bufio.err].
      rewrite <- app_assoc, app_assoc, Hc.
      repeat split; [exact Hs | discriminate].
    + intros _. eexists.
      cbn [store.File store.buf store.size bufio.pending bufio.err].
      rewrite app_assoc, Hc. repeat split; [exact Hs | discriminate].
Qed.

Lemma store_framed_Read ps o pos s :
  store_framed ps s -> store_framed ps (fst (store.Read o pos s)).
Proof.
  intros (junk & Hc & Hs & Hj).
  destruct (store_Read_state o pos s) as (Hc' & Hs' & He).
  exists junk. rewrite Hc', Hs'. repeat split; try assumption.
  intros E. apply Hj, He, E.
Qed.

Lemma OpenFile_absent d name :
  d !! name = None -> os.OpenFile d name = emptyFile name.
Proof. intros H. unfold os.OpenFile, emptyFile. rewrite H. reflexivity. Qed.

Lemma store_Append_File o1 o2 p s :
  store.File (fst (store.Append o1 o2 p s)) = store.File s.
Proof.
  unfold store.Append.
  destruct (bufio.Write o1 _ (store.buf s)) as [b1 [w1 | e1 |]]; try reflexivity.
  destruct (bufio.Write o2 p b1) as [b2 [w2 | e2 |]]; reflexivity.
Qed.

Lemma store_Read_Name o pos s :
  os.Name (store.File (fst (store.Read o pos s))) = os.Name (store.File s).
Proof.
  unfold store.Read, bufio.Flush.
  destruct (bufio.err (store.buf s)); [reflexivity |].
  destruct o; reflexivity.
Qed.

Lemma store_Close_Ok o s d d' :
  store.Close o s d = (d', Ok tt) ->
  bufio.err (store.buf s) = None
  /\ d' = <[os.Name (store.File s) := store.contents s]> d.
Proof.
  unfold store.Close, bufio.Flush, store.contents.
  destruct (bufio.err (store.buf s)); [intros [= _ ?]; discriminate |].
  destruct o; intros [= <-]. split; reflexivity.
Qed.

Lemma fileName_store_index base :
  segment.fileName base ".store" <> segment.fileName base ".index".
Proof.
  unfold segment.fileName. intros H.
  apply (inj (String.app _)) in H. discriminate H.
Qed.

Section SegmentHistory.
Context {codec : Codec}.

Lemma segment_Append_names base o1 o2 r s :
  segment_names base s ->
  segment_names base (fst (fst (segment.Append o1 o2 r s))).
Proof.
  intros [Hst Hix]. unfold segment_names, segment.Append.
  destruct (Marshal _) as [p | e |]; cbn [fst]; try (split; assumption).
  pose proof (store_Append_File o1 o2 p (segment.store s)) as Hf.
  destruct (store.Append o1 o2 p (segment.store s)) as [st [[n pos] | e |]];
    cbn [fst] in Hf |- *;
    cbn [segment.with_store segment.store segment.index segment.nextOffset
         segment.baseOffset];
    try (rewrite Hf; split; assumption).
  pose proof (index_Write_file
                (u32 (u64 (segment.nextOffset s - segment.baseOffset s)))
                pos (segment.index s)) as Hw.
  destruct (index.Write _ pos _) as [ix [[] | |]]; cbn [fst] in Hw |- *;
    cbn [segment.with_index segment.with_nextOffset segment.with_store
         segment.store segment.index];
    rewrite Hf, Hw; split; assumption.
Qed.

Lemma segment_Read_names base o off s :
  segment_names base s -> segment_names base (fst (segment.Read o off s)).
Proof.
  intros [Hst Hix]. unfold segment_names, segment.Read.
  destruct (index.Read _ _) as [[rel pos] | e |]; cbn [fst];
    try (split; assumption).
  pose proof (store_Read_Name o pos (segment.store s)) as Hf.
  destruct (store.Read o pos (segment.store s)) as [st res].
  cbn [fst segment.with_store segment.store segment.index] in Hf |- *.
  rewrite Hf. split; assumption.
Qed.

Lemma segment_new_names d base c s :
  segment.newSegment d base c = Ok s -> segment_names base s.
Proof.
  intros Hnew.
  destruct (newSegment_Ok d base c s Hnew) as (ix & Hnix & Hi & Hs & _).
  unfold segment_names. rewrite Hs, Hi. split; [reflexivity |].
  apply (newIndex_file _ _ _ Hnix).
Qed.

Lemma segment_reach_names c base k s :
  segment_reach c base k s -> segment_names base s.
Proof.
  induction 1 as [d s Hst Hix Hnew | k s o1 o2 r Hr IH | k s o off Hr IH
                  | k s o d d' s' Hr IH Hcap Hclose Hnew].
  - eapply segment_new_names; eassumption.
  - apply segment_Append_names; assumption.
  - apply segment_Read_names; assumption.
  - eapply segment_new_names; eassumption.
Qed.

Lemma segment_new_inv c base d s :
  is_u64 base ->
  d !! segment.fileName base ".store" = None ->
  d !! segment.fileName base ".index" = None ->
  segment.newSegment d base c = Ok s ->
  segment_inv c base 0 s.
Proof.
  intros Hbase Hst Hix Hnew.
  destruct (newSegment_Ok d base c s Hnew) as (ix & Hnix & Hi & Hs & Hb & _ & Hn).
  rewrite OpenFile_absent in Hnix, Hs by assumption.
  assert (Hsz : os.Size (emptyFile (segment.fileName base ".index")) < 2 ^ 63)
    by reflexivity.
  destruct (newIndex_inv _ c ix Hsz Hnix) as (Hs0 & _).
  change (os.Size (emptyFile (segment.fileName base ".index"))) with 0 in Hs0.
  rewrite index_Read_EOF in Hn by (try left; lia).
  unfold segment_inv. rewrite Hi, Hs0, Hb, Hn, Hs.
  split; [reflexivity |].
  split; [apply index_reach_new; assumption |].
  split; [rewrite Z.add_0_r; symmetry; apply u64_small; exact Hbase |].
  split; [intros j Hj; change (0 / 12) with 0 in Hj; lia |].
  exists []. split; [| reflexivity].
  apply store_framed_new with (f := emptyFile (segment.fileName base ".store"));
    reflexivity.
Qed.

(** The store of a segment only grows. *)
Lemma segment_Append_grows o1 o2 r s :
  (length (store.contents (segment.store s))
   <= length (store.contents
                (segment.store (fst (fst (segment.Append o1 o2 r s))))))%nat.
Proof.
  unfold segment.Append.
  destruct (Marshal _) as [p | e |]; cbn [fst]; try reflexivity.
  assert (H : (length (store.contents (segment.store s))
               <= length (store.contents
                    (fst (store.Append o1 o2 p (segment.store s)))))%nat).
  { unfold store.Append, bufio.Write, store.contents.
    destruct (bufio.err (store.buf (segment.store s))); cbn [fst];
      [reflexivity |].
    destruct o1; cbn [bufio.err bufio.pending fst];
      [destruct o2 |]; cbn [fst store.File store.buf bufio.pending];
      rewrite !length_app; lia. }
  destruct (store.Append o1 o2 p (segment.store s)) as [st [[n pos] | e |]];
    cbn [fst] in H |- *; try exact H.
  destruct (index.Write _ pos _) as [ix [[] | |]]; exact H.
Qed.

Lemma segment_Read_contents o off s :
  store.contents (segment.store (fst (segment.Read o off s)))
  = store.contents (segment.store s).
Proof.
  unfold segment.Read.
  destruct (index.Read _ _) as [[rel pos] | e |]; cbn [fst]; try reflexivity.
  destruct (store_Read_state o pos (segment.store s)) as (Hc & _).
  destruct (store.Read o pos (segment.store s)) as [st res].
  exact Hc.
Qed.

Lemma segment_Append_inv c base k o1 o2 r s :
  segment_inv c base k s ->
  Z.of_nat (length (store.contents
    (segment.store (fst (fst (segment.Append o1 o2 r s)))))) < 2 ^ 63 ->
  segment_inv c base (k + dangling o1 o2 r s)
              (fst (fst (segment.Append o1 o2 r s))).
Proof.
  intros (Hb & Hix & Hn & Hdense & ps & Hfr & Hcnt).
  pose proof (index_reach_inv _ _ _ Hix) as (Hsz & Hl & _).
  destruct (index_fresh_inv _ _ _ Hix) as (Hmod & Hle).
  unfold segment_inv, dangling, segment.Append.
  destruct (Marshal _) as [p | e |]; cbn [fst snd is_Ok orb].
  2, 3: intros _; rewrite Z.eqb_refl, Nat.add_0_r;
        repeat split; try assumption; exists ps; split; assumption.
  destruct (store.Append o1 o2 p (segment.store s)) as [st res] eqn:ES.
  destruct res as [[n pos] | e |]; cbn [fst snd is_Ok orb].
  - cbn [segment.with_store segment.nextOffset segment.baseOffset
         segment.index].
    destruct (index_Write_cases
                (u32 (u64 (segment.nextOffset s - segment.baseOffset s)))
                pos (segment.index s) Hsz) as [[Hm E] | [Hm E]];
      pose proof (index_reach_Write _ _ _
                    (u32 (u64 (segment.nextOffset s - segment.baseOffset s)))
                    pos Hix) as Hix';
      rewrite E in Hix' |- *; cbn [fst snd is_Ok orb] in Hix' |- *;
      cbn [segment.with_index segment.with_store segment.with_nextOffset
           segment.store segment.index segment.baseOffset segment.nextOffset];
      intros Hbound;
      destruct (store_framed_Append_Ok ps _ _ _ _ _ _ _ Hfr ES Hbound)
        as [Hfr' Hne].
    + destruct (Z.eqb_spec (store.size st) (store.size (segment.store s)));
        [contradiction |].
      repeat split; try assumption.
      exists (ps ++ [p]). split; [exact Hfr' |].
      rewrite length_app. cbn [length]. lia.
    + rewrite Nat.add_0_r. cbn [index.size index.mmap].
      assert (Hdiv : (index.size (segment.index s) + 12) / 12
                     = index.size (segment.index s) / 12 + 1).
      { replace (index.size (segment.index s) + 12)
          with (index.size (segment.index s) + 1 * 12) by lia.
        apply Z.div_add. lia. }
      rewrite Hdiv.
      pose proof (Z.div_mod (index.size (segment.index s)) 12 ltac:(lia)) as Hdm.
      assert (Hq : 0 <= index.size (segment.index s) / 12 < 2 ^ 63)
        by (split; [apply Z.div_pos; lia | apply Z.div_lt_upper_bound; lia]).
      split; [exact Hb |]. split; [exact Hix' |].
      split; [rewrite Hn, u64_add_l; f_equal; lia |]. split.
      * intros j Hj.
        set (m := index.mmap (segment.index s)) in *.
        set (sz := Z.to_nat (index.size (segment.index s))) in *.
        assert (Htl : length (take sz m) = sz) by (rewrite length_take; lia).
        destruct (Z.lt_ge_cases (Z.of_nat j) (index.size (segment.index s) / 12))
          as [Hlt | Hge].
        -- rewrite entry_app_prefix by lia.
           rewrite entry_take by lia. apply Hdense. exact Hlt.
        -- assert (Hj' : Z.of_nat j = index.size (segment.index s) / 12) by lia.
           rewrite entry_put by lia. cbn [fst].
           rewrite (u32_small (u32 _)) by apply u32_range.
           rewrite u32_u64, <- u32_u64, Hn, Hb, u64_sub_l.
           replace (base + index.size (segment.index s) / 12 - base)
             with (index.size (segment.index s) / 12) by lia.
           rewrite u32_u64, Hj'. reflexivity.
      * exists (ps ++ [p]). split; [exact Hfr' |].
        rewrite length_app. cbn [length]. lia.
  - cbn [segment.with_store segment.store segment.index segment.baseOffset
         segment.nextOffset]. intros Hbound.
    destruct (store_framed_Append_fail ps o1 o2 p _ Hfr) as [Hfr' Hsame];
      [rewrite ES; reflexivity |].
    rewrite ES in Hfr', Hsame. cbn [fst] in Hfr', Hsame.
    rewrite Hsame, Z.eqb_refl, Nat.add_0_r.
    repeat split; try assumption. exists ps. split; assumption.
  - cbn [segment.with_store segment.store segment.index segment.baseOffset
         segment.nextOffset]. intros Hbound.
    destruct (store_framed_Append_fail ps o1 o2 p _ Hfr) as [Hfr' Hsame];
      [rewrite ES; reflexivity |].
    rewrite ES in Hfr', Hsame. cbn [fst] in Hfr', Hsame.
    rewrite Hsame, Z.eqb_refl, Nat.add_0_r.
    repeat split; try assumption. exists ps. split; assumption.
Qed.

Lemma segment_Read_inv c base k o off s :
  segment_inv c base k s ->
  segment_inv c base k (fst (segment.Read o off s)).
Proof.
  intros (Hb & Hix & Hn & Hdense & ps & Hfr & Hcnt).
  unfold segment.Read.
  destruct (index.Read _ _) as [[rel pos] | e |]; cbn [fst];
    try (repeat split; try assumption; exists ps; split; assumption).
  destruct (store.Read o pos (segment.store s)) as [st res] eqn:ER.
  cbn [fst segment.with_store].
  pose proof (store_framed_Read ps o pos _ Hfr) as Hfr'.
  rewrite ER in Hfr'. cbn [fst] in Hfr'.
  unfold segment_inv.
  cbn [segment.with_store segment.store segment.index segment.baseOffset
       segment.nextOffset].
  repeat split; try assumption. exists ps. split; assumption.
Qed.

(** What closing leaves in the directory. *)
Lemma segment_Close_Ok o s d d' :
  segment.Close o s d = (d', Ok tt) ->
  bufio.err (store.buf (segment.store s)) = None
  /\ exists d1,
       index.Close (segment.index s) d = (d1, Ok tt)
       /\ d' = <[os.Name (store.File (segment.store s))
                 := store.contents (segment.store s)]> d1.
Proof.
  unfold segment.Close.
  destruct (index.Close (segment.index s) d) as [d1 [[] | e |]];
    try (intros [= _ ?]; discriminate).
  intros H. destruct (store_Close_Ok _ _ _ _ H) as [He Hd].
  split; [exact He |]. exists d1. split; [reflexivity | exact Hd].
Qed.

(** The store of a segment that was closed and opened again holds what
    the store that was closed held. *)
Lemma segment_reopen_store base c o s d d' s' :
  segment_names base s ->
  segment.Close o s d = (d', Ok tt) ->
  segment.newSegment d' base c = Ok s' ->
  bufio.err (store.buf (segment.store s)) = None
  /\ segment.store s'
     = {| store.File :=
            {| os.Name := segment.fileName base ".store";
               os.data := store.contents (segment.store s) |};
          store.buf := bufio.NewWriter;
          store.size :=
            u64 (Z.of_nat (length (store.contents (segment.store s)))) |}.
Proof.
  intros [Hst Hix] Hclose Hnew.
  destruct (segment_Close_Ok _ _ _ _ Hclose) as (He & d1 & _ & ->).
  destruct (newSegment_Ok _ base c s' Hnew) as (ix & _ & _ & Hs & _).
  split; [exact He |]. rewrite Hs. unfold os.OpenFile, os.Size.
  rewrite Hst, lookup_insert_eq. reflexivity.
Qed.

Lemma segment_reopen_inv c base k o s d d' s' :
  is_u64 base ->
  segment_names base s ->
  segment_inv c base k s ->
  Z.of_nat (length (store.contents (segment.store s))) < 2 ^ 63 ->
  index.size (segment.index s) / 12 <= 2 ^ 32 ->
  segment.Close o s d = (d', Ok tt) ->
  segment.newSegment d' base c = Ok s' ->
  segment_inv c base k s'
  /\ segment.index s' = segment.index s
  /\ segment.nextOffset s' = segment.nextOffset s.
Proof.
  intros Hbase Hnames (Hb & Hix & Hn & Hdense & ps & Hfr & Hcnt) Hbound Hcap
         Hclose Hnew.
  destruct (segment_reopen_store base c o s d d' s' Hnames Hclose Hnew)
    as (He & Hstore).
  destruct Hnames as [Hst Hixn].
  destruct (segment_Close_Ok _ _ _ _ Hclose) as (_ & d1 & Hic & ->).
  destruct (index_Close_reopen c _ _ d Hix) as (Hic' & Hre).
  rewrite Hic' in Hic. injection Hic as <-.
  destruct (newSegment_Ok _ base c s' Hnew) as (ix & Hnix & Hi & _ & Hb' & _ & Hnext).
  unfold os.OpenFile in Hnix.
  rewrite Hst, lookup_insert_ne, lookup_insert_eq in Hnix
    by apply fileName_store_index.
  cbn [default from_option id] in Hnix. rewrite Hre in Hnix.
  injection Hnix as <-.
  pose proof (index_reach_inv _ _ _ Hix) as (Hsz & Hl & _).
  destruct (index_fresh_inv _ _ _ Hix) as (Hmod & Hle).
  pose proof (Z.div_mod (index.size (segment.index s)) 12 ltac:(lia)) as Hdm.
  assert (Hnext' : segment.nextOffset s' = segment.nextOffset s).
  { rewrite Hn.
    destruct (Z.eq_dec (index.size (segment.index s)) 0) as [E0 | Hnz].
    - rewrite index_Read_EOF in Hnext by (try left; lia).
      rewrite Hnext, E0. change (0 / 12) with 0.
      rewrite Z.add_0_r. symmetry. apply u64_small. exact Hbase.
    - assert (Hq : 1 <= index.size (segment.index s) / 12)
        by (apply Z.div_le_lower_bound; lia).
      rewrite index_Read_last in Hnext by lia.
      rewrite index_Read_entry in Hnext by lia.
      specialize (Hdense (Z.to_nat (index.size (segment.index s) / 12 - 1))
                    ltac:(lia)).
      destruct (index.entry _ _) as [rel pos]. cbn [fst] in Hdense.
      rewrite Hnext, Hdense, Z2Nat.id, u32_small, u64_add_l by lia.
      f_equal. lia. }
  split; [| split; [exact Hi | exact Hnext']].
  unfold segment_inv. rewrite Hi, Hb', Hnext', Hstore.
  split; [reflexivity |]. split; [exact Hix |]. split; [exact Hn |].
  split; [exact Hdense |].
  exists ps. split; [| exact Hcnt].
  destruct Hfr as (junk & Hc & Hs & Hj).
  rewrite (Hj He), app_nil_r in Hc.
  exists []. unfold store.contents at 1. cbn [store.File store.buf store.size
    os.data bufio.pending bufio.NewWriter bufio.err].
  rewrite !app_nil_r, Hc. rewrite Hc in Hbound.
  repeat split. apply u64_small. lia.
Qed.

(** The invariant holds as long as the store file is below 2^63
    bytes. *)
Lemma segment_reach_inv c base k s :
  is_u64 base ->
  segment_reach c base k s ->
  Z.of_nat (length (store.contents (segment.store s))) < 2 ^ 63 ->
  segment_inv c base k s.
Proof.
  intros Hbase. induction 1 as [d s Hst Hix Hnew | k s o1 o2 r Hr IH
                                | k s o off Hr IH
                                | k s o d d' s' Hr IH Hcap Hclose Hnew];
    intros Hbound.
  - eapply segment_new_inv; eassumption.
  - apply segment_Append_inv; [| exact Hbound].
    apply IH. pose proof (segment_Append_grows o1 o2 r s). lia.
  - apply segment_Read_inv. apply IH.
    rewrite segment_Read_contents in Hbound. exact Hbound.
  - pose proof (segment_reach_names _ _ _ _ Hr) as Hnames.
    destruct (segment_reopen_store base c o s d d' s' Hnames Hclose Hnew)
      as (_ & Hstore).
    assert (Hbound' : Z.of_nat (length (store.contents (segment.store s)))
                      < 2 ^ 63).
    { rewrite Hstore in Hbound. unfold store.contents at 1 in Hbound.
      cbn [store.File store.buf os.data bufio.pending bufio.NewWriter] in Hbound.
      rewrite app_nil_r in Hbound. exact Hbound. }
    eapply segment_reopen_inv; eauto.
Qed.

Lemma segment_appends_reach c base rs : forall k s,
  segment_reach c base k s ->
  exists k', segment_reach c base k' (fst (segment_appends rs s)).
Proof.
  induction rs as [|[[o1 o2] r] rest IH]; intros k s Hr.
  - exists k. exact Hr.
  - cbn [segment_appends].
    pose proof (segment_reach_Append c base k s o1 o2 r Hr) as Hr'.
    destruct (segment.Append o1 o2 r s) as [[s' r'] res].
    cbn [fst] in Hr'. destruct (IH _ s' Hr') as [k' Hk'].
    destruct (segment_appends rest s') as [s'' ress]. cbn [fst] in *.
    exists k'. exact Hk'.
Qed.

(** A segment that is closed and opened again under the same
    configuration resumes where it stopped: the index, [nextOffset] and
    the bytes of the store are those of the segment that was closed. *)
Lemma segment_reopen_recovers c base k o s d d' s' :
  is_u64 base ->
  segment_reach c base k s ->
  Z.of_nat (length (store.contents (segment.store s))) < 2 ^ 63 ->
  index.size (segment.index s) / 12 <= 2 ^ 32 ->
  segment.Close o s d = (d', Ok tt) ->
  segment.newSegment d' base c = Ok s' ->
  segment.nextOffset s' = segment.nextOffset s
  /\ segment.index s' = segment.index s
  /\ store.contents (segment.store s') = store.contents (segment.store s)
  /\ d' !! segment.fileName base ".index"
     = Some (take (Z.to_nat (index.size (segment.index s)))
                  (index.mmap (segment.index s))).
Proof.
  intros Hbase Hr Hbound Hcap Hclose Hnew.
  pose proof (segment_reach_names _ _ _ _ Hr) as Hnames.
  pose proof (segment_reach_inv c base k s Hbase Hr Hbound) as Hinv.
  destruct (segment_reopen_inv c base k o s d d' s' Hbase Hnames Hinv Hbound
              Hcap Hclose Hnew) as (_ & Hi & Hn).
  destruct (segment_reopen_store base c o s d d' s' Hnames Hclose Hnew)
    as (_ & Hstore).
  split; [exact Hn |]. split; [exact Hi |]. split.
  - rewrite Hstore. unfold store.contents at 1.
    cbn [store.File store.buf os.data bufio.pending bufio.NewWriter].
    apply app_nil_r.
  - destruct Hinv as (_ & Hix & _). destruct Hnames as [Hst _].
    destruct (segment_Close_Ok _ _ _ _ Hclose) as (_ & d1 & Hic & ->).
    destruct (index_Close_reopen c _ _ d Hix) as (Hic' & _).
    rewrite Hic' in Hic. injection Hic as <-.
    rewrite Hst, lookup_insert_ne, lookup_insert_eq
      by apply fileName_store_index.
    reflexivity.
Qed.

(** The offsets of a segment count its index entries. *)
Lemma segment_offsets_entries c base k s :
  is_u64 base ->
  segment_reach c base k s ->
  Z.of_nat (length (store.contents (segment.store s))) < 2 ^ 63 ->
  segment.baseOffset s = base
  /\ 0 <= index.size (segment.index s) < 2 ^ 63
  /\ index.size (segment.index s) mod 12 = 0
  /\ u64 (segment.nextOffset s - segment.baseOffset s)
     = index.size (segment.index s) / 12
  /\ (base + index.size (segment.index s) / 12 < 2 ^ 64 ->
      segment.baseOffset s <= segment.nextOffset s
      /\ segment.nextOffset s - segment.baseOffset s
         = index.size (segment.index s) / 12).
Proof.
  intros Hbase Hr Hbound.
  destruct (segment_reach_inv c base k s Hbase Hr Hbound)
    as (Hb & Hix & Hn & _).
  destruct (index_fresh_inv _ _ _ Hix) as (Hmod & Hs).
  pose proof (index_reach_inv _ _ _ Hix) as (Hsz & Hl & _).
  assert (Hq : 0 <= index.size (segment.index s) / 12 < 2 ^ 63).
  { split; [apply Z.div_pos; lia |].
    apply Z.div_lt_upper_bound; lia. }
  split; [exact Hb |]. split; [exact Hsz |]. split; [exact Hmod |]. split.
  - rewrite Hn, Hb, u64_sub_l.
    replace (base + index.size (segment.index s) / 12 - base)
      with (index.size (segment.index s) / 12) by lia.
    apply u64_small. lia.
  - intros Hfit. rewrite Hn, Hb, u64_small by (unfold is_u64 in Hbase; lia).
    lia.
Qed.

(** C3, as the code has it.  In every state of a segment opened on
    fresh files, after appends that succeeded or failed, after reads and
    after closing and opening it again,
    [nextOffset - baseOffset] is the number of index entries,
    [index.size / 12] (and [baseOffset <= nextOffset] while the offsets
    fit in 64 bits); the frames in the store are those entries and one
    more for each append that failed after the store took its frame. *)
Theorem segment_counts c base k s :
  is_u64 base ->
  segment_reach c base k s ->
  Z.of_nat (length (store.contents (segment.store s))) < 2 ^ 63 ->
  segment.baseOffset s = base
  /\ index.size (segment.index s) mod 12 = 0
  /\ u64 (segment.nextOffset s - segment.baseOffset s)
     = index.size (segment.index s) / 12
  /\ (base + index.size (segment.index s) / 12 < 2 ^ 64 ->
      segment.baseOffset s <= segment.nextOffset s
      /\ segment.nextOffset s - segment.baseOffset s
         = index.size (segment.index s) / 12)
  /\ exists ps,
       store_frames (segment.store s) = Some ps
       /\ Z.of_nat (length ps)
          = index.size (segment.index s) / 12 + Z.of_nat k.
Proof.
  intros Hbase Hr Hbound.
  destruct (segment_offsets_entries c base k s Hbase Hr Hbound)
    as (Hb & _ & Hmod & Hcount & Hfit).
  destruct (segment_reach_inv c base k s Hbase Hr Hbound)
    as (_ & _ & _ & _ & ps & Hfr & Hcnt).
  split; [exact Hb |]. split; [exact Hmod |]. split; [exact Hcount |].
  split; [exact Hfit |].
  exists ps. split; [| exact Hcnt].
  apply store_framed_frames; assumption.
Qed.

Lemma segment_Read_EOF o off s :
  0 <= index.size (segment.index s) < 2 ^ 63 ->
  u64 (off - segment.baseOffset s) <> 2 ^ 64 - 1 ->
  index.size (segment.index s) / 12 <= u32 (off - segment.baseOffset s) ->
  segment.Read o off s = (s, Err EOF).
Proof.
  intros Hsz Hne Hslot. unfold segment.Read.
  rewrite index_Read_EOF; [reflexivity | exact Hsz |].
  right. split.
  - unfold i64. cbv zeta.
    rewrite (u64_small (u64 _)) by apply u64_range.
    pose proof (u64_range (off - segment.baseOffset s)).
    destruct (_ <? _); lia.
  - rewrite u32_i64, u32_u64.
    pose proof (Z.mul_succ_div_gt (index.size (segment.index s)) 12 ltac:(lia)).
    lia.
Qed.

(** C8, as the code has it.  [Read off] at an offset out of range
    fails with the [io.EOF] of the index when [off] is not
    [baseOffset - 1] and the slot [(off - baseOffset) mod 2^32] holds no
    entry: so it is for [nextOffset <= off < baseOffset + 2^32], and for
    [off < baseOffset - 1] no more than [2^32 - entries] below
    [baseOffset]. *)
Theorem segment_Read_out_of_range c base k s o off :
  is_u64 base ->
  segment_reach c base k s ->
  Z.of_nat (length (store.contents (segment.store s))) < 2 ^ 63 ->
  is_u64 off ->
  off < segment.baseOffset s \/ segment.nextOffset s <= off ->
  (u64 (off - segment.baseOffset s) <> 2 ^ 64 - 1 ->
   index.size (segment.index s) / 12 <= u32 (off - segment.baseOffset s) ->
   segment.Read o off s = (s, Err EOF))
  /\ (base + index.size (segment.index s) / 12 < 2 ^ 64 ->
      segment.nextOffset s <= off < segment.baseOffset s + 2 ^ 32 ->
      segment.Read o off s = (s, Err EOF))
  /\ (off < segment.baseOffset s - 1 ->
      segment.baseOffset s - off
        <= 2 ^ 32 - index.size (segment.index s) / 12 ->
      segment.Read o off s = (s, Err EOF)).
Proof.
  intros Hbase Hr Hbound Hoff Hout.
  destruct (segment_offsets_entries c base k s Hbase Hr Hbound)
    as (Hb & Hsz & Hmod & _ & Hfit).
  assert (Hq : 0 <= index.size (segment.index s) / 12)
    by (apply Z.div_pos; lia).
  unfold is_u64 in *. split; [| split].
  - intros Hne Hslot. apply segment_Read_EOF; assumption.
  - intros Hnofl Hrange. destruct (Hfit Hnofl) as [Hle Hcnt].
    apply segment_Read_EOF; [exact Hsz | |].
    + rewrite u64_small by lia. lia.
    + rewrite u32_small by lia. lia.
  - intros Hlow Hdist. apply segment_Read_EOF; [exact Hsz | |].
    + rewrite u64_neg by lia. lia.
    + destruct (Z.eq_dec (off - segment.baseOffset s) (- 2 ^ 32)) as [E | E].
      * rewrite E. change (u32 (- 2 ^ 32)) with 0. lia.
      * rewrite u32_neg by lia. lia.
Qed.

End SegmentHistory.

(** * The segment on the wire format: instances *)

Lemma segmentAfter_reach M base rs :
  is_Ok (segment.newSegment ∅ base (mkConfig 1024 M 0)) = true ->
  exists k,
    segment_reach (codec := wire.codec) (mkConfig 1024 M 0) base k
                  (segmentAfter M base rs).
Proof.
  unfold segmentAfter.
  destruct (segment.newSegment ∅ base (mkConfig 1024 M 0)) as [s | |] eqn:E;
    try discriminate.
  intros _. apply segment_appends_reach with (k := 0%nat).
  apply segment_reach_new with (d := ∅); [apply lookup_empty .. | exact E].
Qed.

Lemma segment_counts_witness :
  let c := mkConfig 1024 12 0 in
  let s := segmentAfter 12 3 [accepted "x"; accepted "y"] in
  exists k,
    is_u64 3
    /\ segment_reach (codec := wire.codec) c 3 k s
    /\ Z.of_nat (length (store.contents (segment.store s))) < 2 ^ 63
    /\ segment.nextOffset s - segment.baseOffset s = 1
    /\ index.size (segment.index s) / 12 = 1
    /\ Z.of_nat (length (default [] (store_frames (segment.store s))))
       = 1 + Z.of_nat k.
Proof.
  intros c s.
  destruct (segmentAfter_reach 12 3 [accepted "x"; accepted "y"] eq_refl)
    as [k Hr].
  exists k.
  assert (Hbase : is_u64 3) by (split; [discriminate | reflexivity]).
  assert (Hb : Z.of_nat (length (store.contents (segment.store s))) < 2 ^ 63)
    by (vm_compute; reflexivity).
  assert (Hq : index.size (segment.index s) / 12 = 1)
    by (vm_compute; reflexivity).
  destruct (segment_counts (codec := wire.codec) c 3 k s Hbase Hr Hb)
    as (_ & _ & _ & Hfit & ps & Hfr & Hcnt).
  split; [exact Hbase |]. split; [exact Hr |]. split; [exact Hb |].
  split; [rewrite <- Hq; apply Hfit; vm_compute; reflexivity |].
  split; [exact Hq |].
  rewrite Hfr. change (default [] (Some ps)) with ps.
  rewrite Hcnt, Hq. reflexivity.
Defined.

(** C3 as stated fails: with [MaxIndexBytes = 12] the second append
    leaves its frame in the store and is refused by the index, so the
    store has two frames and the index one entry. *)
Lemma segment_frames_exceed_entries :
  ~ (forall c base k s,
       is_u64 base ->
       segment_reach (codec := wire.codec) c base k s ->
       segment.baseOffset s <= segment.nextOffset s
       /\ segment.nextOffset s - segment.baseOffset s
          = index.size (segment.index s) / 12
       /\ exists ps,
            store_frames (segment.store s) = Some ps
            /\ Z.of_nat (length ps) = index.size (segment.index s) / 12).
Proof.
  intros H.
  destruct (segmentAfter_reach 12 0 [accepted "x"; accepted "y"] eq_refl)
    as [k Hr].
  assert (Hbase : is_u64 0) by (split; [discriminate | reflexivity]).
  destruct (H _ _ _ _ Hbase Hr) as (_ & _ & ps & Hfr & Hcnt).
  assert (E : store_frames
                (segment.store (segmentAfter 12 0 [accepted "x"; accepted "y"]))
              = Some [[x0a; x01; x78]; [x0a; x01; x79; x10; x01]])
    by (vm_compute; reflexivity).
  rewrite E in Hfr. injection Hfr as <-.
  vm_compute in Hcnt. discriminate Hcnt.
Qed.

(** C2 as stated fails: offsets are [uint64] values and wrap.  A
    segment at base offset 2^64 - 1 returns 2^64 - 1 for its first
    append and 0 for its second. *)
Lemma segment_offsets_wrap_at_max :
  ~ (forall c base k s rs,
       is_u64 base ->
       segment_reach (codec := wire.codec) c base k s ->
       Forall (fun res => is_Ok res = true)
              (snd (segment_appends (codec := wire.codec) rs s)) ->
       snd (segment_appends (codec := wire.codec) rs s)
       = map (fun j => Ok (segment.nextOffset s + Z.of_nat j))
             (seq 0 (length rs))).
Proof.
  intros H.
  assert (Hnew : is_Ok (segment.newSegment ∅ (2 ^ 64 - 1) (mkConfig 1024 1024 0))
                 = true) by (vm_compute; reflexivity).
  destruct (segmentAfter_reach 1024 (2 ^ 64 - 1) [] Hnew) as [k Hr].
  assert (Hbase : is_u64 (2 ^ 64 - 1)) by (split; [discriminate | reflexivity]).
  assert (Hok : Forall (fun res => is_Ok res = true)
                  (snd (segment_appends (codec := wire.codec)
                          [accepted "x"; accepted "y"]
                          (segmentAfter 1024 (2 ^ 64 - 1) []))))
    by (vm_compute; repeat constructor).
  specialize (H _ _ _ _ _ Hbase Hr Hok).
  assert (E : snd (segment_appends (codec := wire.codec)
                     [accepted "x"; accepted "y"]
                     (segmentAfter 1024 (2 ^ 64 - 1) []))
              = [Ok (2 ^ 64 - 1); Ok 0]) by (vm_compute; reflexivity).
  rewrite E in H. vm_compute in H. discriminate H.
Qed.

(** C6 as stated fails: [newSegment] does not set [nextOffset] for
    every directory and configuration.  On the directory a segment of
    three entries leaves when it is closed, under a [MaxIndexBytes] of
    24, it maps 24 bytes of the index file, keeps its size of 36, and
    panics on reading the last entry. *)
Lemma newSegment_not_for_every_config :
  ~ (forall d base c,
       is_u64 base ->
       is_u64 (MaxIndexBytes (Segment c)) ->
       let ixf := default [] (d !! segment.fileName base ".index") in
       let last := Z.of_nat (length ixf) / 12 - 1 in
       match segment.newSegment d base c with
       | Ok s =>
           (ixf = [] -> segment.nextOffset s = base)
           /\ (12 <= Z.of_nat (length ixf) ->
               segment.nextOffset s
               = base + fst (index.entry (Z.to_nat last) ixf) + 1)
       | Err _ => True
       | Panic => False
       end).
Proof.
  intros H.
  assert (Hbase : is_u64 0) by (split; [reflexivity | reflexivity]).
  assert (HM : is_u64 (MaxIndexBytes (Segment (mkConfig 1024 24 0))))
    by (split; [discriminate | reflexivity]).
  specialize (H (closedDir (segmentAfter 36 0
                   [accepted "a"; accepted "b"; accepted "c"]))
                0 (mkConfig 1024 24 0) Hbase HM).
  vm_compute in H. exact H.
Qed.

Lemma segment_Read_out_of_range_witness :
  let c := mkConfig 1024 1024 0 in
  let s := segmentAfter 1024 5 [accepted "hello"] in
  exists k,
    is_u64 5
    /\ segment_reach (codec := wire.codec) c 5 k s
    /\ Z.of_nat (length (store.contents (segment.store s))) < 2 ^ 63
    /\ segment.nextOffset s = 6
    /\ segment.Read (codec := wire.codec) os.Done 6 s = (s, Err EOF)
    /\ segment.Read (codec := wire.codec) os.Done 3 s = (s, Err EOF).
Proof.
  intros c s.
  destruct (segmentAfter_reach 1024 5 [accepted "hello"] eq_refl) as [k Hr].
  exists k.
  assert (Hbase : is_u64 5) by (split; [discriminate | reflexivity]).
  assert (Hb : Z.of_nat (length (store.contents (segment.store s))) < 2 ^ 63)
    by (vm_compute; reflexivity).
  split; [exact Hbase |]. split; [exact Hr |]. split; [exact Hb |].
  split; [vm_compute; reflexivity |]. split.
  - assert (Hoff : is_u64 6) by (split; [discriminate | reflexivity]).
    assert (Hout : 6 < segment.baseOffset s \/ segment.nextOffset s <= 6)
      by (right; vm_compute; discriminate).
    destruct (segment_Read_out_of_range (codec := wire.codec)
                c 5 k s os.Done 6 Hbase Hr Hb Hoff Hout) as (_ & Habove & _).
    apply Habove; [vm_compute; reflexivity |].
    split; vm_compute; [discriminate | reflexivity].
  - assert (Hoff : is_u64 3) by (split; [discriminate | reflexivity]).
    assert (Hout : 3 < segment.baseOffset s \/ segment.nextOffset s <= 3)
      by (left; vm_compute; reflexivity).
    destruct (segment_Read_out_of_range (codec := wire.codec)
                c 5 k s os.Done 3 Hbase Hr Hb Hoff Hout) as (_ & _ & Hbelow).
    apply Hbelow; [vm_compute; reflexivity | vm_compute; discriminate].
Defined.

(** C8 as stated fails: [Read (baseOffset - 1)] asks the index for slot
    -1, its last entry, and returns the last record of the segment. *)
Lemma segment_Read_below_base_returns_last :
  ~ (forall c base k s o off,
       is_u64 base ->
       segment_reach (codec := wire.codec) c base k s ->
       is_u64 off ->
       off < segment.baseOffset s \/ segment.nextOffset s <= off ->
       snd (segment.Read (codec := wire.codec) o off s) = Err EOF).
Proof.
  intros H.
  destruct (segmentAfter_reach 1024 5 [accepted "hello"] eq_refl) as [k Hr].
  assert (Hbase : is_u64 5) by (split; [discriminate | reflexivity]).
  assert (Hoff : is_u64 4) by (split; [discriminate | reflexivity]).
  specialize (H _ _ _ _ os.Done 4 Hbase Hr Hoff).
  assert (Hout : 4 < segment.baseOffset (segmentAfter 1024 5 [accepted "hello"])
                 \/ segment.nextOffset (segmentAfter 1024 5 [accepted "hello"])
                    <= 4) by (left; vm_compute; reflexivity).
  specialize (H Hout).
  assert (E : snd (segment.Read (codec := wire.codec) os.Done 4
                     (segmentAfter 1024 5 [accepted "hello"]))
              = Ok {| api.Value := bytes_of_string "hello"; api.Offset := 5 |})
    by (vm_compute; reflexivity).
  rewrite E in H. discriminate H.
Qed.

(** * The scenarios of the specification, run on the model *)

(** Three records appended at base 0 get the offsets 0, 1 and 2, and
    [Read 1] is the second record with its offset. *)
Example scenario_three_appends :
  let rs := [accepted "hello"; accepted "world"; accepted "!"] in
  snd (segment_appends (codec := wire.codec) rs (segmentAfter 1024 0 []))
  = [Ok 0; Ok 1; Ok 2]
  /\ snd (segment.Read (codec := wire.codec) os.Done 1 (segmentAfter 1024 0 rs))
     = Ok {| api.Value := bytes_of_string "world"; api.Offset := 1 |}.
Proof. vm_compute. split; reflexivity. Qed.

(** With room for three entries the fourth append is refused by the
    index, and the segment is maxed after the third. *)
Example scenario_index_full :
  let rs := [accepted "a"; accepted "b"; accepted "c"] in
  segment.IsMaxed (segmentAfter 36 0 rs) = true
  /\ snd (segment.Append (codec := wire.codec) os.Done os.Done (record "d")
            (segmentAfter 36 0 rs))
     = Err EOF.
Proof. vm_compute. split; reflexivity. Qed.

(** A record appended, the segment closed and opened again, a second
    record appended: it gets offset 1, and both are read back. *)
Example scenario_reopen :
  let s := reopened 1024 0 (segmentAfter 1024 0 [accepted "x"]) in
  let out := segment.Append (codec := wire.codec) os.Done os.Done (record "y") s in
  snd out = Ok 1
  /\ snd (segment.Read (codec := wire.codec) os.Done 0 (fst (fst out)))
     = Ok {| api.Value := bytes_of_string "x"; api.Offset := 0 |}
  /\ snd (segment.Read (codec := wire.codec) os.Done 1 (fst (fst out)))
     = Ok {| api.Value := bytes_of_string "y"; api.Offset := 1 |}.
Proof. vm_compute. repeat split; reflexivity. Qed.

(** In the store alone: two appends and the two reads. *)
Example scenario_store :
  let b1 := bytes_of_string "first" in
  let b2 := bytes_of_string "second" in
  let s1 := store.Append os.Done os.Done b1 (storeAfter []) in
  let s2 := store.Append os.Done os.Done b2 (fst s1) in
  snd s1 = Ok (13, 0)
  /\ snd s2 = Ok (14, 13)
  /\ snd (store.Read os.Done 0 (fst s2)) = Ok b1
  /\ snd (store.Read os.Done 13 (fst s2)) = Ok b2.
Proof. vm_compute. repeat split; reflexivity. Qed.

(** An index of twelve bytes takes one entry. *)
Example scenario_index_one_entry :
  let i0 := indexAfter 12 [] in
  let w1 := index.Write 0 100 i0 in
  snd w1 = Ok tt
  /\ index.IsMaxed (fst w1) = true
  /\ snd (index.Write 1 200 (fst w1)) = Err EOF
  /\ index.Read (-1) i0 = Err EOF
  /\ index.Read (-1) (fst w1) = Ok (0, 100).
Proof. vm_compute. repeat split; reflexivity. Qed.

(** A write of the payload that the device cuts short leaves the length
    prefix behind, the size alone, and the writer in error: the next
    append fails as well. *)
Example scenario_store_failure :
  let b := bytes_of_string "lost" in
  let s1 := store.Append os.Done (os.Failed 2) b (storeAfter []) in
  snd s1 = Err EIO
  /\ store.size (fst s1) = 0
  /\ length (store.contents (fst s1)) = 10%nat
  /\ snd (store.Append os.Done os.Done b (fst s1)) = Err EIO.
Proof. vm_compute. repeat split; reflexivity. Qed.

(** A record the serializer refuses is not appended: the segment is as
    it was, and the next record gets the offset the refused one was
    stamped with. *)
Example scenario_marshal_failure :
  let small := wire.codec_of 8 in
  let s := segmentAfter 1024 0 [accepted "x"] in
  let out := segment.Append (codec := small) os.Done os.Done
               (record "too long a value") s in
  snd out = Err ECodec
  /\ fst (fst out) = s
  /\ api.Offset (snd (fst out)) = 1
  /\ snd (segment.Append (codec := small) os.Done os.Done (record "y")
            (fst (fst out)))
     = Ok 1.
Proof. vm_compute. repeat split; reflexivity. Qed.

(** * Further properties of the store *)

Lemma store_Append_extends o1 o2 p s :
  exists extra,
    store.contents (fst (store.Append o1 o2 p s)) = store.contents s ++ extra.
Proof.
  unfold store.Append, bufio.Write, store.contents.
  destruct (bufio.err (store.buf s)); cbn [fst store.File store.buf].
  - exists []. rewrite app_nil_r. reflexivity.
  - destruct o1; cbn [bufio.err bufio.pending fst store.File store.buf].
    + destruct o2; cbn [fst store.File store.buf bufio.pending];
        eexists; rewrite <- !app_assoc; reflexivity.
    + eexists. rewrite <- !app_assoc. reflexivity.
Qed.

Lemma store_ReadAt_Name o n off s :
  os.Name (store.File (fst (store.ReadAt o n off s))) = os.Name (store.File s).
Proof.
  unfold store.ReadAt, bufio.Flush.
  destruct (bufio.err (store.buf s)); [reflexivity |].
  destruct o; reflexivity.
Qed.

Lemma store_framed_ReadAt ps o n off s :
  store_framed ps s -> store_framed ps (fst (store.ReadAt o n off s)).
Proof.
  intros (junk & Hc & Hs & Hj).
  destruct (store_ReadAt_state o n off s) as (Hc' & Hs' & He).
  exists junk. rewrite Hc', Hs'. repeat split; try assumption.
  intros E. apply Hj, He, E.
Qed.

(** A store opened on an empty file holds frames below its logical
    size, as long as the file is below 2^63 bytes. *)
Lemma store_reach_framed n s :
  store_reach (emptyFile n) s ->
  Z.of_nat (length (store.contents s)) < 2 ^ 63 ->
  exists ps, store_framed ps s.
Proof.
  induction 1 as [s Hnew | s o1 o2 p Hr IH | s o pos Hr IH | s o k off Hr IH];
    intros Hb.
  - exists []. eapply store_framed_new; [| exact Hnew]. reflexivity.
  - destruct (store_Append_extends o1 o2 p s) as [extra He].
    destruct IH as [ps Hfr].
    { rewrite He, length_app in Hb. lia. }
    destruct (store.Append o1 o2 p s) as [s' [[w pos] | e |]] eqn:EA;
      cbn [fst] in *.
    + exists (ps ++ [p]).
      apply (store_framed_Append_Ok ps o1 o2 p s s' w pos Hfr EA Hb).
    + exists ps.
      destruct (store_framed_Append_fail ps o1 o2 p s Hfr) as [H _];
        [rewrite EA; reflexivity |].
      rewrite EA in H. exact H.
    + exists ps.
      destruct (store_framed_Append_fail ps o1 o2 p s Hfr) as [H _];
        [rewrite EA; reflexivity |].
      rewrite EA in H. exact H.
  - destruct (store_Read_state o pos s) as (Hc & _).
    destruct IH as [ps Hfr]; [rewrite <- Hc; exact Hb |].
    exists ps. apply store_framed_Read. exact Hfr.
  - destruct (store_ReadAt_state o k off s) as (Hc & _).
    destruct IH as [ps Hfr]; [rewrite <- Hc; exact Hb |].
    exists ps. apply store_framed_ReadAt. exact Hfr.
Qed.

(** X1.  The file format of the store: on a store opened on an empty
    file, a successful [Append] of [p] adds the frame of [p] behind the
    frames already there; the bytes of the store are then exactly the
    frames of the payloads appended, in order, and the logical size is
    their length. *)
Theorem store_append_adds_frame n s o1 o2 p s' r :
  store_reach (emptyFile n) s ->
  store.Append o1 o2 p s = (s', Ok r) ->
  Z.of_nat (length (store.contents s')) < 2 ^ 63 ->
  exists ps,
    store_frames s = Some ps
    /\ store_frames s' = Some (ps ++ [p])
    /\ store.contents s' = concat (map frame (ps ++ [p]))
    /\ store.size s' = Z.of_nat (length (store.contents s')).
Proof.
  intros Hr HA Hb. destruct r as [w pos].
  destruct (store_Append_Ok _ _ _ _ _ _ _ HA) as (E0 & E1 & _ & Hc & _).
  assert (Hb0 : Z.of_nat (length (store.contents s)) < 2 ^ 63)
    by (rewrite Hc, length_app in Hb; lia).
  destruct (store_reach_framed n s Hr Hb0) as [ps Hfr].
  destruct (store_framed_Append_Ok ps _ _ _ _ _ _ _ Hfr HA Hb) as [Hfr' _].
  exists ps.
  split; [apply store_framed_frames; assumption |].
  split; [apply store_framed_frames; assumption |].
  destruct Hfr' as (junk & Hc' & Hs' & Hj').
  rewrite (Hj' E1), app_nil_r in Hc'.
  split; [exact Hc' |]. rewrite Hs', Hc'. reflexivity.
Qed.

Lemma store_append_adds_frame_witness :
  let s := storeAfter [bytes_of_string "a"] in
  let p := bytes_of_string "bc" in
  let s' := fst (store.Append os.Done os.Done p s) in
  store_reach (emptyFile "0.store") s
  /\ store.Append os.Done os.Done p s = (s', Ok (10, 9))
  /\ Z.of_nat (length (store.contents s')) < 2 ^ 63
  /\ store_frames s' = Some [bytes_of_string "a"; bytes_of_string "bc"]
  /\ store.size s' = 19.
Proof.
  intros s p s'.
  assert (Hr : store_reach (emptyFile "0.store") s) by apply storeAfter_reach.
  assert (HA : store.Append os.Done os.Done p s = (s', Ok (10, 9)))
    by (vm_compute; reflexivity).
  assert (Hb : Z.of_nat (length (store.contents s')) < 2 ^ 63)
    by (vm_compute; reflexivity).
  destruct (store_append_adds_frame "0.store" s os.Done os.Done p s' (10, 9)
              Hr HA Hb) as (ps & H0 & H1 & _ & Hsz).
  split; [exact Hr |]. split; [exact HA |]. split; [exact Hb |].
  assert (E : store_frames s = Some [bytes_of_string "a"])
    by (vm_compute; reflexivity).
  rewrite E in H0. injection H0 as <-.
  split; [exact H1 |]. rewrite Hsz. vm_compute. reflexivity.
Defined.

(** X2.  An [Append] that fails leaves the logical size and every byte
    given to the store before as they were, and leaves the writer in
    error.  From then on the store is frozen: whatever is called on it
    afterwards, in any order, [Append], [Read] and [ReadAt] fail and
    leave the store, its size among the rest, exactly as the failed
    append left it. *)
Theorem store_failure_is_final o1 o2 p s :
  is_Ok (snd (store.Append o1 o2 p s)) = false ->
  let s' := fst (store.Append o1 o2 p s) in
  store.size s' = store.size s
  /\ (exists extra, store.contents s' = store.contents s ++ extra)
  /\ (forall t, store_later s' t ->
        t = s'
        /\ store.size t = store.size s
        /\ (forall o1' o2' q,
              is_Ok (snd (store.Append o1' o2' q t)) = false
              /\ fst (store.Append o1' o2' q t) = s')
        /\ (forall o pos,
              is_Ok (snd (store.Read o pos t)) = false
              /\ fst (store.Read o pos t) = s')
        /\ (forall o k off,
              is_Ok (snd (store.ReadAt o k off t)) = false
              /\ fst (store.ReadAt o k off t) = s')).
Proof.
  intros Hfail s'.
  assert (He : exists e, bufio.err (store.buf s') = Some e).
  { destruct (bufio.err (store.buf s')) as [e |] eqn:E; [exists e; reflexivity |].
    apply store_Append_err in E. congruence. }
  destruct He as [e He].
  assert (HA : forall a1 a2 q, store.Append a1 a2 q s' = (s', Err e)).
  { intros. clearbody s'. destruct s' as [f b sz]. cbn [store.buf] in He.
    unfold store.Append, bufio.Write. cbn [store.buf store.File store.size].
    rewrite He. reflexivity. }
  assert (HR : forall o pos, store.Read o pos s' = (s', Err e)).
  { intros. clearbody s'. destruct s' as [f b sz]. cbn [store.buf] in He.
    unfold store.Read, bufio.Flush. cbn [store.buf store.File store.size].
    rewrite He. reflexivity. }
  assert (HRA : forall o n off, store.ReadAt o n off s' = (s', Err e)).
  { intros. clearbody s'. destruct s' as [f b sz]. cbn [store.buf] in He.
    unfold store.ReadAt, bufio.Flush. cbn [store.buf store.File store.size].
    rewrite He. reflexivity. }
  assert (Hsize : store.size s' = store.size s)
    by (apply store_Append_size; exact Hfail).
  split; [exact Hsize |].
  split; [apply store_Append_extends |].
  assert (Hfrozen : forall t, store_later s' t -> t = s').
  { induction 1 as [| t a1 a2 q Hl IH | t o pos Hl IH | t o n off Hl IH].
    - reflexivity.
    - rewrite IH, HA. reflexivity.
    - rewrite IH, HR. reflexivity.
    - rewrite IH, HRA. reflexivity. }
  intros t Hl. rewrite (Hfrozen t Hl).
  split; [reflexivity |]. split; [exact Hsize |].
  split; [intros; rewrite HA; split; reflexivity |].
  split; intros; [rewrite HR | rewrite HRA]; split; reflexivity.
Qed.

Lemma store_failure_is_final_witness :
  let s := storeAfter [bytes_of_string "kept"] in
  let s' := fst (store.Append os.Done (os.Failed 2) (bytes_of_string "lost") s) in
  let t := fst (store.ReadAt os.Done 4 8 (fst (store.Read os.Done 0 s'))) in
  is_Ok (snd (store.Append os.Done (os.Failed 2) (bytes_of_string "lost") s))
  = false
  /\ store.size s' = 12
  /\ snd (store.Read os.Done 0 s') = Err EIO
  /\ store_later s' t
  /\ snd (store.Append os.Done os.Done (bytes_of_string "next") t) = Err EIO
  /\ is_Ok (snd (store.Append os.Done os.Done (bytes_of_string "next") t))
     = false
  /\ store.size (fst (store.Append os.Done os.Done (bytes_of_string "next") t))
     = 12.
Proof.
  intros s s' t.
  assert (H : is_Ok (snd (store.Append os.Done (os.Failed 2)
                            (bytes_of_string "lost") s)) = false)
    by (vm_compute; reflexivity).
  destruct (store_failure_is_final os.Done (os.Failed 2)
              (bytes_of_string "lost") s H) as (Hs & _ & Hdead).
  fold s' in Hs, Hdead.
  assert (Hl : store_later s' t)
    by (apply store_later_ReadAt, store_later_Read, store_later_now).
  destruct (Hdead t Hl) as (_ & Hsz & HA & _).
  destruct (HA os.Done os.Done (bytes_of_string "next")) as [Hfail Hsame].
  split; [exact H |]. split; [rewrite Hs; vm_compute; reflexivity |].
  split; [vm_compute; reflexivity |]. split; [exact Hl |].
  split; [vm_compute; reflexivity |].
  split; [exact Hfail |]. rewrite Hsame, Hs. vm_compute. reflexivity.
Defined.

(** What a read returns depends on the bytes given to the store, flushed
    or not, and on nothing else. *)
Lemma store_Read_contents pos s t :
  bufio.err (store.buf s) = None ->
  bufio.err (store.buf t) = None ->
  store.contents s = store.contents t ->
  forall o, snd (store.Read o pos s) = snd (store.Read o pos t).
Proof.
  intros Es Et Hc o. unfold store.Read, bufio.Flush. rewrite Es, Et.
  destruct o; cbn [snd]; [| reflexivity].
  unfold os.ReadAt. cbn [os.data bind].
  fold (store.contents s). fold (store.contents t). rewrite Hc. reflexivity.
Qed.

(** X3.  [Read] where no frame is: at a position with fewer than eight
    bytes behind it (the end of the store among them) it returns
    [io.EOF]; at a position that is negative as an [int64] the file
    refuses the offset. *)
Theorem store_Read_no_frame s pos :
  bufio.err (store.buf s) = None ->
  (0 <= pos < 2 ^ 63 ->
   Z.of_nat (length (store.contents s)) < pos + 8 ->
   snd (store.Read os.Done pos s) = Err EOF)
  /\ (2 ^ 63 <= pos < 2 ^ 64 -> snd (store.Read os.Done pos s) = Err EINVAL).
Proof.
  intros E. unfold store.Read, bufio.Flush. rewrite E. cbn [snd bind].
  fold (store.contents s). unfold os.ReadAt. cbn [os.data].
  change store.lenWidth with 8. split.
  - intros Hp Hlen. rewrite i64_small by lia.
    destruct (Z.ltb_spec pos 0); [lia |].
    rewrite length_take, length_drop.
    destruct (Z.ltb_spec (Z.of_nat (Init.Nat.min (Z.to_nat 8)
                (length (store.contents s) - Z.to_nat pos))) 8); [reflexivity | lia].
  - intros Hp. unfold i64. rewrite u64_small by lia.
    destruct (Z.ltb_spec pos (2 ^ 63)); [lia |].
    destruct (Z.ltb_spec (pos - 2 ^ 64) 0); [reflexivity | lia].
Qed.

Lemma store_Read_no_frame_witness :
  let s := storeAfter [bytes_of_string "hello"] in
  bufio.err (store.buf s) = None
  /\ snd (store.Read os.Done 13 s) = Err EOF
  /\ snd (store.Read os.Done 6 s) = Err EOF
  /\ snd (store.Read os.Done (2 ^ 63) s) = Err EINVAL.
Proof.
  intros s.
  assert (E : bufio.err (store.buf s) = None) by reflexivity.
  split; [exact E |].
  split; [apply (proj1 (store_Read_no_frame s 13 E)); vm_compute; split;
          congruence || reflexivity |].
  split; [apply (proj1 (store_Read_no_frame s 6 E)); vm_compute; split;
          congruence || reflexivity |].
  apply (proj2 (store_Read_no_frame s (2 ^ 63) E)).
  split; [discriminate | reflexivity].
Defined.

Lemma store_reach_Name f s :
  store_reach f s -> os.Name (store.File s) = os.Name f.
Proof.
  induction 1 as [s Hnew | s o1 o2 p Hr IH | s o pos Hr IH | s o k off Hr IH].
  - injection Hnew as <-. reflexivity.
  - rewrite store_Append_File. exact IH.
  - rewrite store_Read_Name. exact IH.
  - rewrite store_ReadAt_Name. exact IH.
Qed.



(** X5.  Closing the store and opening it again loses nothing: [Close]
    on a device that takes the bytes leaves every byte given to the
    store in its file and touches no other file, and [newStore] on that
    file gives a store with the same bytes, the same logical size and
    the same result for every read. *)
Theorem store_Close_reopen n s d d' :
  store_reach (emptyFile n) s ->
  store.Close os.Done s d = (d', Ok tt) ->
  d' = <[n := store.contents s]> d
  /\ exists s',
       store.newStore (os.OpenFile d' n) = Ok s'
       /\ store.contents s' = store.contents s
       /\ store.size s' = store.size s
       /\ store_frames s' = store_frames s
       /\ forall o pos, snd (store.Read o pos s') = snd (store.Read o pos s).
Proof.
  intros Hr Hclose.
  destruct (store_Close_Ok _ _ _ _ Hclose) as [E ->].
  rewrite (store_reach_Name _ _ Hr). cbn [emptyFile os.Name].
  split; [reflexivity |].
  eexists. split; [reflexivity |].
  unfold os.OpenFile, os.Size. rewrite lookup_insert_eq.
  cbn [default from_option id os.data].
  assert (Hc : store.contents
                 {| store.File := {| os.Name := n; os.data := store.contents s |};
                    store.buf := bufio.NewWriter;
                    store.size := u64 (Z.of_nat (length (store.contents s))) |}
               = store.contents s).
  { unfold store.contents at 1. cbn. apply app_nil_r. }
  assert (Hs : u64 (Z.of_nat (length (store.contents s))) = store.size s)
    by (symmetry; apply (store_reach_size _ _ Hr E)).
  split; [exact Hc |]. split; [exact Hs |]. split.
  - unfold store_frames. rewrite Hc. cbn [store.size]. rewrite Hs. reflexivity.
  - intros o pos. apply store_Read_contents; [reflexivity | exact E | exact Hc].
Qed.

Lemma store_Close_reopen_witness :
  let s := storeAfter [bytes_of_string "one"; bytes_of_string "two"] in
  let d' := fst (store.Close os.Done s ∅) in
  d' !! "0.store" = Some (frame (bytes_of_string "one")
                          ++ frame (bytes_of_string "two"))
  /\ exists s',
       store.newStore (os.OpenFile d' "0.store") = Ok s'
       /\ store.size s' = 22
       /\ snd (store.Read os.Done 11 s') = Ok (bytes_of_string "two").
Proof.
  intros s d'.
  assert (Hr : store_reach (emptyFile "0.store") s) by apply storeAfter_reach.
  assert (Hclose : store.Close os.Done s ∅ = (d', Ok tt)) by reflexivity.
  destruct (store_Close_reopen "0.store" s ∅ d' Hr Hclose)
    as (Hd & s' & Hnew & _ & Hs & _ & HR).
  split; [rewrite Hd, lookup_insert_eq; reflexivity |].
  exists s'. split; [exact Hnew |].
  split; [rewrite Hs; reflexivity |].
  rewrite HR. vm_compute. reflexivity.
Defined.

(** * Further properties of the index *)

(** X6.  The capacity of an index: opened on an empty file under
    [MaxIndexBytes], it takes the first [MaxIndexBytes / 12] writes and
    refuses every later one with [io.EOF]; after any sequence of writes
    its logical size is 12 times the number of writes it took, and the
    map keeps the length [MaxIndexBytes]. *)
Theorem index_writes_capacity c n i0 ws :
  is_u64 (MaxIndexBytes (Segment c)) ->
  index.newIndex (emptyFile n) c = Ok i0 ->
  let M := MaxIndexBytes (Segment c) in
  let i := index_writes ws i0 in
  index.size i = 12 * Z.min (Z.of_nat (length ws)) (M / 12)
  /\ Z.of_nat (length (index.mmap i)) = M
  /\ forall off pos,
       snd (index.Write off pos i)
       = if Z.of_nat (length ws) <? M / 12 then Ok tt else Err EOF.
Proof.
  intros Hc Hnew M i.
  assert (HM : 0 <= M < 2 ^ 64) by exact Hc.
  assert (Hsz : os.Size (emptyFile n) < 2 ^ 63) by reflexivity.
  assert (Hr0 : index_reach c (emptyFile n) i0)
    by (apply index_reach_new; assumption).
  assert (Hr : index_reach c (emptyFile n) i)
    by (apply index_writes_reach; exact Hr0).
  pose proof (index_reach_length c _ i Hc Hr) as Hlen. fold M in Hlen.
  pose proof (index_reach_inv _ _ _ Hr) as (Hs & Hl & _).
  pose proof (Z.div_mod M 12 ltac:(lia)) as Hdm.
  pose proof (Z.mod_pos_bound M 12 ltac:(lia)) as Hmod.
  assert (Hsize : index.size i = 12 * Z.min (Z.of_nat (length ws)) (M / 12)).
  { subst i. clear Hr Hlen Hs Hl.
    induction ws as [|w ws IH] using rev_ind.
    - destruct (newIndex_inv _ c i0 Hsz Hnew) as (H0 & _). cbn.
      rewrite H0. change (os.Size (emptyFile n)) with 0.
      rewrite Z.min_l; [reflexivity |]. apply Z.div_pos; lia.
    - rewrite index_writes_snoc, length_app. cbn [length].
      set (j := index_writes ws i0) in *.
      assert (Hrj : index_reach c (emptyFile n) j)
        by (apply index_writes_reach; exact Hr0).
      pose proof (index_reach_length c _ j Hc Hrj) as Hlenj. fold M in Hlenj.
      pose proof (index_reach_inv _ _ _ Hrj) as (Hsj & _).
      destruct (index_Write_cases (fst w) (snd w) j Hsj) as [[Hm ->] | [Hm ->]];
        cbn [fst index.size]; rewrite IH in *; lia. }
  split; [exact Hsize |]. split; [exact Hlen |].
  intros off pos.
  destruct (index_Write_cases off pos i Hs) as [[Hm ->] | [Hm ->]]; cbn [snd];
    destruct (Z.ltb_spec (Z.of_nat (length ws)) (M / 12)); try reflexivity; lia.
Qed.

Lemma index_writes_capacity_witness :
  let c := mkConfig 1024 30 0 in
  let ws := [(0, 0); (1, 20); (2, 40)] in
  exists i0,
    index.newIndex (emptyFile "0.index") c = Ok i0
    /\ index.size (index_writes ws i0) = 24
    /\ snd (index.Write 3 60 (index_writes ws i0)) = Err EOF.
Proof.
  intros c ws.
  assert (Hc : is_u64 (MaxIndexBytes (Segment c))) by (vm_compute; split; congruence).
  destruct (index.newIndex (emptyFile "0.index") c) as [i0 | |] eqn:Hnew;
    [| vm_compute in Hnew; discriminate Hnew
     | vm_compute in Hnew; discriminate Hnew].
  exists i0.
  destruct (index_writes_capacity c "0.index" i0 ws Hc Hnew) as (Hs & _ & Hw).
  split; [reflexivity |]. split; [rewrite Hs; reflexivity |].
  rewrite Hw. reflexivity.
Defined.

(** X7.  Closing the index and opening it again loses nothing: [Close]
    cuts the file to the entries written, twelve bytes each and no
    padding, and touches no other file; [newIndex] on that file under
    the same configuration gives the index that was closed, so every
    [Read] and [Write] goes on as before. *)
Theorem index_Close_keeps_entries c n i d :
  index_reach c (emptyFile n) i ->
  exists d' bs,
    index.Close i d = (d', Ok tt)
    /\ d' !! n = Some bs
    /\ Z.of_nat (length bs) = index.size i
    /\ bs = take (length bs) (index.mmap i)
    /\ (forall m, m <> n -> d' !! m = d !! m)
    /\ index.newIndex (os.OpenFile d' n) c = Ok i.
Proof.
  intros Hr.
  destruct (index_Close_reopen c n i d Hr) as (Hclose & Hre).
  destruct (index_fresh_inv c n i Hr) as (_ & Hs).
  exists (<[n := take (Z.to_nat (index.size i)) (index.mmap i)]> d),
         (take (Z.to_nat (index.size i)) (index.mmap i)).
  assert (Hl : length (take (Z.to_nat (index.size i)) (index.mmap i))
               = Z.to_nat (index.size i)) by (rewrite length_take; lia).
  split; [exact Hclose |]. split; [apply lookup_insert_eq |].
  split; [rewrite Hl; lia |]. split; [rewrite Hl; reflexivity |].
  split; [intros m Hm; apply lookup_insert_ne; congruence |].
  unfold os.OpenFile. rewrite lookup_insert_eq. exact Hre.
Qed.

Lemma index_Close_keeps_entries_witness :
  let c := mkConfig 1024 36 0 in
  let i := indexAfter 36 [(0, 0); (1, 15)] in
  exists d',
    index.Close i ∅ = (d', Ok tt)
    /\ d' !! "0.index"
       = Some (PutUint32 0 ++ PutUint64 0 ++ PutUint32 1 ++ PutUint64 15)
    /\ index.newIndex (os.OpenFile d' "0.index") c = Ok i.
Proof.
  intros c i.
  assert (Hr : index_reach c (emptyFile "0.index") i)
    by (apply (indexAfter_reach 36); reflexivity).
  destruct (index_Close_keeps_entries c "0.index" i ∅ Hr)
    as (d' & bs & Hclose & Hd & Hl & Hbs & _ & Hnew).
  exists d'. split; [exact Hclose |]. split; [| exact Hnew].
  rewrite Hd, Hbs.
  replace (length bs) with (Z.to_nat (index.size i)) by lia.
  vm_compute. reflexivity.
Defined.

(** * Further properties of the segment *)

Section SegmentLog.
Context {codec : Codec}.

Lemma segment_log_reach c base rs s :
  segment_log c base rs s -> exists k, segment_reach c base k s.
Proof.
  induction 1 as [d s Hst Hix Hnew | rs s o1 o2 r Hl [k IH]
                  | rs s o off Hl [k IH]
                  | rs s o d d' s' Hl [k IH] Hcap Hclose Hnew].
  - exists 0%nat. eapply segment_reach_new; eassumption.
  - eexists. apply segment_reach_Append. exact IH.
  - exists k. apply segment_reach_Read. exact IH.
  - exists k. eapply segment_reach_reopen; eassumption.
Qed.

Lemma segment_Read_index o off s :
  segment.index (fst (segment.Read o off s)) = segment.index s.
Proof.
  unfold segment.Read.
  destruct (index.Read _ _) as [[rel pos] | e |]; cbn [fst]; try reflexivity.
  destruct (store.Read o pos (segment.store s)) as [st res]. reflexivity.
Qed.

Lemma segment_Append_holds c base k rs o1 o2 r s :
  segment_inv c base k s ->
  Z.of_nat (length (store.contents
    (segment.store (fst (fst (segment.Append o1 o2 r s)))))) < 2 ^ 63 ->
  segment_holds base rs s ->
  segment_holds base
    (rs ++ if is_Ok (snd (segment.Append o1 o2 r s))
           then [snd (fst (segment.Append o1 o2 r s))] else [])
    (fst (fst (segment.Append o1 o2 r s))).
Proof.
  intros (Hb & Hix & Hn & Hdense & ps & Hfr & Hcnt) Hbound [Hlen Hent].
  pose proof (index_reach_inv _ _ _ Hix) as (Hsz & Hl & _).
  destruct (index_fresh_inv _ _ _ Hix) as (Hmod & Hle).
  pose proof (Z.div_mod (index.size (segment.index s)) 12 ltac:(lia)) as Hdm.
  revert Hbound. unfold segment_holds, segment.Append.
  destruct (Marshal _) as [p | e |] eqn:EM; cbn [fst snd is_Ok].
  2, 3: intros _; rewrite app_nil_r; split; assumption.
  destruct (store.Append o1 o2 p (segment.store s)) as [st res] eqn:ES.
  destruct (store_Append_extends o1 o2 p (segment.store s)) as [extra Hext].
  rewrite ES in Hext. cbn [fst] in Hext.
  assert (Hold : forall j r0, rs !! j = Some r0 ->
            api.Offset r0 = u64 (base + Z.of_nat j)
            /\ exists pre p0 post,
                 Marshal r0 = Ok p0
                 /\ store.contents st = pre ++ frame p0 ++ post
                 /\ snd (index.entry j (index.mmap (segment.index s)))
                    = Z.of_nat (length pre)).
  { intros j r0 Hj.
    destruct (Hent j r0 Hj) as (Ho & pre & p0 & post & HM & Hc & He).
    split; [exact Ho |]. exists pre, p0, (post ++ extra).
    rewrite Hext, Hc, <- !app_assoc. repeat split; assumption. }
  destruct res as [[n pos] | e |]; cbn [fst snd is_Ok].
  - cbn [segment.with_store segment.nextOffset segment.baseOffset
         segment.index].
    destruct (index_Write_cases
                (u32 (u64 (segment.nextOffset s - segment.baseOffset s)))
                pos (segment.index s) Hsz) as [[Hm E] | [Hm E]];
      rewrite E; cbn [fst snd is_Ok];
      cbn [segment.with_index segment.with_store segment.with_nextOffset
           segment.store segment.index segment.baseOffset segment.nextOffset];
      intros Hbound.
    + rewrite app_nil_r. split; [exact Hlen | exact Hold].
    + cbn [index.size index.mmap].
      destruct (store_Append_Ok _ _ _ _ _ _ _ ES) as (E0 & _ & _ & Hc & _ & _ & Hp).
      destruct Hfr as (junk & Hc0 & Hs0 & Hj0).
      rewrite (Hj0 E0), app_nil_r in Hc0.
      set (m := index.mmap (segment.index s)) in *.
      set (sz := Z.to_nat (index.size (segment.index s))) in *.
      assert (Htl : length (take sz m) = sz) by (rewrite length_take; lia).
      split.
      * rewrite length_app. cbn [length].
        replace (index.size (segment.index s) + 12)
          with (index.size (segment.index s) + 1 * 12) by lia.
        rewrite Z.div_add by lia. lia.
      * intros j r0 Hj.
        destruct (decide (j < length rs)%nat) as [Hlt | Hge].
        -- rewrite lookup_app_l in Hj by exact Hlt.
           destruct (Hold j r0 Hj) as (Ho & pre & p0 & post & HM & Hc' & He).
           split; [exact Ho |]. exists pre, p0, post.
           split; [exact HM |]. split; [exact Hc' |].
           rewrite entry_app_prefix by lia.
           rewrite entry_take by lia. exact He.
        -- apply lookup_lt_Some in Hj as Hj'.
           rewrite length_app in Hj'. cbn [length] in Hj'.
           assert (j = length rs) by lia. subst j.
           rewrite lookup_app_r, Nat.sub_diag in Hj by lia.
           injection Hj as <-. cbn [api.Offset].
           split; [rewrite Hn, Hlen; reflexivity |].
           exists (store.contents (segment.store s)), p, [].
           split; [exact EM |]. split; [rewrite app_nil_r; exact Hc |].
           rewrite entry_put by lia. cbn [snd].
           rewrite Hp, Hs0, Hc0. apply u64_small.
           rewrite Hc, Hc0, length_app in Hbound. lia.
  - intros _. rewrite app_nil_r. split; [exact Hlen | exact Hold].
  - intros _. rewrite app_nil_r. split; [exact Hlen | exact Hold].
Qed.

Lemma segment_log_holds c base rs s :
  is_u64 base ->
  segment_log c base rs s ->
  Z.of_nat (length (store.contents (segment.store s))) < 2 ^ 63 ->
  segment_holds base rs s.
Proof.
  intros Hbase. induction 1 as [d s Hst Hix Hnew | rs s o1 o2 r Hl IH
                                | rs s o off Hl IH
                                | rs s o d d' s' Hl IH Hcap Hclose Hnew];
    intros Hbound.
  - destruct (newSegment_Ok d base c s Hnew) as (ix & Hnix & Hi & _).
    rewrite OpenFile_absent in Hnix by assumption.
    assert (Hsz : os.Size (emptyFile (segment.fileName base ".index")) < 2 ^ 63)
      by reflexivity.
    destruct (newIndex_inv _ c ix Hsz Hnix) as (Hs0 & _).
    split; [rewrite Hi, Hs0; reflexivity |]. intros j r Hj. discriminate.
  - assert (Hb0 : Z.of_nat (length (store.contents (segment.store s))) < 2 ^ 63)
      by (pose proof (segment_Append_grows o1 o2 r s); lia).
    destruct (segment_log_reach _ _ _ _ Hl) as [k Hr].
    apply (segment_Append_holds c base k); [| exact Hbound | apply IH; exact Hb0].
    apply segment_reach_inv; assumption.
  - rewrite segment_Read_contents in Hbound.
    destruct (IH Hbound) as [Hlen Hent].
    split; [rewrite segment_Read_index; exact Hlen |].
    rewrite segment_Read_index, segment_Read_contents. exact Hent.
  - destruct (segment_log_reach _ _ _ _ Hl) as [k Hr].
    pose proof (segment_reach_names _ _ _ _ Hr) as Hnames.
    destruct (segment_reopen_store base c o s d d' s' Hnames Hclose Hnew)
      as (_ & Hstore).
    assert (Hc : store.contents (segment.store s')
                 = store.contents (segment.store s)).
    { rewrite Hstore. unfold store.contents at 1.
      cbn [store.File store.buf os.data bufio.pending bufio.NewWriter].
      apply app_nil_r. }
    rewrite Hc in Hbound.
    destruct (segment_reopen_recovers c base k o s d d' s' Hbase Hr Hbound
                Hcap Hclose Hnew) as (_ & Hi & _).
    destruct (IH Hbound) as [Hlen Hent].
    split; [rewrite Hi; exact Hlen |]. rewrite Hi, Hc. exact Hent.
Qed.

Lemma segment_appends_log c base l : forall rs s,
  segment_log c base rs s ->
  segment_log c base (rs ++ segment_accepted l s) (fst (segment_appends l s)).
Proof.
  induction l as [|[[o1 o2] r] rest IH]; intros rs s H;
    cbn [segment_accepted segment_appends].
  - rewrite app_nil_r. exact H.
  - pose proof (segment_log_Append c base rs s o1 o2 r H) as H'.
    destruct (segment.Append o1 o2 r s) as [[s' r'] res].
    cbn [fst snd] in H'. specialize (IH _ _ H').
    destruct (segment_appends rest s') as [s'' ress]. cbn [fst] in *.
    rewrite app_assoc. exact IH.
Qed.

(** X8.  Reading back what was appended: in every state of a segment
    opened on fresh files, after appends that succeeded or failed,
    after reads and after closing and opening it again, the [j]-th
    record accepted has the offset [baseOffset + j], and for
    [j < 2^32], the range of a relative offset, [Read] at that offset
    on a device that takes the bytes returns that record, whenever
    [Unmarshal] inverts [Marshal] on it and the writer of the store is
    not in error. *)
Theorem segment_Read_returns_appended c base rs s j r :
  is_u64 base ->
  segment_log c base rs s ->
  Z.of_nat (length (store.contents (segment.store s))) < 2 ^ 63 ->
  bufio.err (store.buf (segment.store s)) = None ->
  rs !! j = Some r ->
  Z.of_nat j < 2 ^ 32 ->
  (forall p, Marshal r = Ok p -> Unmarshal p = Ok r) ->
  api.Offset r = u64 (base + Z.of_nat j)
  /\ snd (segment.Read os.Done (api.Offset r) s) = Ok r.
Proof.
  intros Hbase Hl Hbound Herr Hj H32 Hcodec.
  destruct (segment_log_holds c base rs s Hbase Hl Hbound) as [Hlen Hent].
  destruct (Hent j r Hj) as (Ho & pre & p & post & HM & Hc & He).
  split; [exact Ho |].
  destruct (segment_log_reach _ _ _ _ Hl) as [k Hr].
  destruct (segment_reach_inv c base k s Hbase Hr Hbound) as (Hb & Hix & _).
  pose proof (index_reach_inv _ _ _ Hix) as (Hsz & Hlm & _).
  destruct (index_fresh_inv _ _ _ Hix) as (Hmod & Hle).
  pose proof (Z.div_mod (index.size (segment.index s)) 12 ltac:(lia)) as Hdm.
  apply lookup_lt_Some in Hj as Hj'.
  unfold segment.Read. rewrite Ho, Hb, u64_sub_l.
  replace (base + Z.of_nat j - base) with (Z.of_nat j) by lia.
  rewrite u64_small, i64_small by lia.
  rewrite index_Read_entry by lia. rewrite Nat2Z.id.
  destruct (index.entry j (index.mmap (segment.index s))) as [rel pos].
  cbn [snd] in He. subst pos.
  pose proof (store_Read_frame (segment.store s) pre p post Herr Hc) as HR.
  destruct (store.Read os.Done (Z.of_nat (length pre)) (segment.store s))
    as [st res].
  cbn [snd] in HR |- *. rewrite HR.
  - cbn [bind]. apply Hcodec. exact HM.
  - rewrite Hc, !length_app, frame_length in Hbound. lia.
Qed.

(** X9.  [IsMaxed] and [Append]: on a device that takes the bytes, an
    append of a record that [Marshal] accepts succeeds exactly when the
    index has room for one more entry.  So an append to a segment that
    is not maxed succeeds; and the limit [MaxStoreBytes] is for the
    caller to respect: a segment that is maxed by its store alone still
    takes the record. *)
Theorem segment_IsMaxed_Append c base k s r p :
  is_u64 base ->
  is_u64 (MaxIndexBytes (Segment c)) ->
  segment_reach c base k s ->
  Z.of_nat (length (store.contents (segment.store s))) < 2 ^ 63 ->
  bufio.err (store.buf (segment.store s)) = None ->
  Marshal {| api.Value := api.Value r; api.Offset := segment.nextOffset s |}
  = Ok p ->
  let res := snd (segment.Append os.Done os.Done r s) in
  res = (if MaxIndexBytes (Segment c) <? index.size (segment.index s) + 12
         then Err EOF else Ok (segment.nextOffset s))
  /\ (segment.IsMaxed s = false -> res = Ok (segment.nextOffset s))
  /\ (index.size (segment.index s) + 12 <= MaxIndexBytes (Segment c) ->
      MaxStoreBytes (Segment c) <= store.size (segment.store s) ->
      segment.IsMaxed s = true /\ res = Ok (segment.nextOffset s)).
Proof.
  intros Hbase HM Hr Hbound Herr HMar res.
  destruct (segment_reach_inv c base k s Hbase Hr Hbound) as (Hb & Hix & _).
  pose proof (index_reach_inv _ _ _ Hix) as (Hsz & _).
  pose proof (index_reach_length c _ _ HM Hix) as Hlen.
  assert (Hcfg : segment.config s = c).
  { clear - Hr. induction Hr as [d s Hst Hixn Hnew | k s o1 o2 r Hr IH
                                 | k s o off Hr IH
                                 | k s o d d' s' Hr IH Hcap Hclose Hnew].
    - destruct (newSegment_Ok d base c s Hnew) as (ix & _ & _ & _ & _ & Hc & _).
      exact Hc.
    - rewrite <- IH. unfold segment.Append.
      destruct (Marshal _) as [q | |]; try reflexivity.
      destruct (store.Append o1 o2 q (segment.store s)) as [st [[n pos] | |]];
        try reflexivity.
      destruct (index.Write _ pos _) as [ix [[] | |]]; reflexivity.
    - rewrite <- IH. unfold segment.Read.
      destruct (index.Read _ _) as [[rel pos] | |]; try reflexivity.
      destruct (store.Read o pos (segment.store s)) as [st res]. reflexivity.
    - destruct (newSegment_Ok d' base c s' Hnew) as (ix & _ & _ & _ & _ & Hc & _).
      exact Hc. }
  assert (Hres : res = (if MaxIndexBytes (Segment c)
                             <? index.size (segment.index s) + 12
                        then Err EOF else Ok (segment.nextOffset s))).
  { subst res. unfold segment.Append. rewrite HMar.
    unfold store.Append, bufio.Write. rewrite Herr.
    cbn [bufio.err bufio.pending segment.with_store segment.nextOffset
         segment.baseOffset segment.index].
    destruct (index_Write_cases
                (u32 (u64 (segment.nextOffset s - segment.baseOffset s)))
                (store.size (segment.store s)) (segment.index s) Hsz)
      as [[Hm E] | [Hm E]]; rewrite E; cbn [snd];
      destruct (Z.ltb_spec (MaxIndexBytes (Segment c))
                           (index.size (segment.index s) + 12));
      try reflexivity; lia. }
  split; [exact Hres |]. unfold segment.IsMaxed. rewrite Hcfg.
  change index.entWidth with 12. rewrite u64_small by lia.
  split.
  - intros Hmax. apply orb_false_iff in Hmax as [_ Hmax].
    rewrite Hres, Hmax. reflexivity.
  - intros Hroom Hstore. rewrite Hres.
    destruct (Z.ltb_spec (MaxIndexBytes (Segment c))
                         (index.size (segment.index s) + 12)); [lia |].
    destruct (Z.leb_spec (MaxStoreBytes (Segment c))
                         (store.size (segment.store s))); [| lia].
    split; reflexivity.
Qed.

(** X10.  [Remove] deletes the two files of the segment and no other
    file; when closing fails it deletes nothing: both files stay, and
    the error of [Close] is returned. *)
Theorem segment_Remove_files c base k s o d :
  is_u64 base ->
  segment_reach c base k s ->
  Z.of_nat (length (store.contents (segment.store s))) < 2 ^ 63 ->
  let d' := fst (segment.Remove o s d) in
  let res := snd (segment.Remove o s d) in
  (res = Ok tt ->
   d' !! segment.fileName base ".store" = None
   /\ d' !! segment.fileName base ".index" = None
   /\ forall m, m <> segment.fileName base ".store" ->
                m <> segment.fileName base ".index" -> d' !! m = d !! m)
  /\ (res <> Ok tt ->
      res = snd (segment.Close o s d)
      /\ d' = fst (segment.Close o s d)
      /\ is_Some (d' !! segment.fileName base ".store")
      /\ is_Some (d' !! segment.fileName base ".index")).
Proof.
  intros Hbase Hr Hbound d' res.
  destruct (segment_reach_names _ _ _ _ Hr) as [Hst Hixn].
  destruct (segment_reach_inv c base k s Hbase Hr Hbound) as (_ & Hix & _).
  destruct (index_Close_reopen c _ _ d Hix) as (Hic & _).
  subst d' res. unfold segment.Remove, segment.Close, index.Name.
  rewrite Hic, Hst, Hixn. unfold store.Close.
  destruct (bufio.Flush o (store.buf (segment.store s))
              (store.File (segment.store s))) as [[b f] r] eqn:EF.
  assert (Hf : os.Name f = segment.fileName base ".store").
  { revert EF. unfold bufio.Flush.
    destruct (bufio.err _); [intros [= _ <- _]; exact Hst |].
    destruct o; intros [= _ <- _]; exact Hst. }
  rewrite Hf. pose proof (fileName_store_index base) as Hne.
  destruct r as [[] | e |]; cbn [fst snd]; (split; [intros Hres | intros Hres]);
    try discriminate; try contradiction.
  - split; [apply lookup_delete_eq |].
    split; [rewrite lookup_delete_ne, lookup_delete_eq by exact Hne;
            reflexivity |].
    intros m H1 H2.
    rewrite !lookup_delete_ne, !lookup_insert_ne by congruence. reflexivity.
  - split; [reflexivity |]. split; [reflexivity |].
    split; [rewrite lookup_insert_eq; eexists; reflexivity |].
    rewrite lookup_insert_ne, lookup_insert_eq by exact Hne.
    eexists; reflexivity.
  - split; [reflexivity |]. split; [reflexivity |].
    split; [rewrite lookup_insert_eq; eexists; reflexivity |].
    rewrite lookup_insert_ne, lookup_insert_eq by exact Hne.
    eexists; reflexivity.
Qed.

(** X11.  Opening a segment again under a smaller [MaxIndexBytes] than
    its index file holds: [newIndex] cuts the map to the new limit and
    keeps the old size, so the read of the last entry in [newSegment]
    slices beyond the map, and [newSegment] panics. *)
Theorem newSegment_smaller_index_panics c c' base k o s d d' :
  is_u64 base ->
  segment_reach c base k s ->
  Z.of_nat (length (store.contents (segment.store s))) < 2 ^ 63 ->
  index.size (segment.index s) / 12 <= 2 ^ 32 ->
  segment.Close o s d = (d', Ok tt) ->
  0 < MaxIndexBytes (Segment c') < index.size (segment.index s) ->
  segment.newSegment d' base c' = Panic.
Proof.
  intros Hbase Hr Hbound Hcap Hclose HM.
  destruct (segment_reach_names _ _ _ _ Hr) as [Hst Hixn].
  destruct (segment_reach_inv c base k s Hbase Hr Hbound) as (_ & Hix & _).
  destruct (segment_Close_Ok _ _ _ _ Hclose) as (_ & d1 & Hic & ->).
  destruct (index_Close_reopen c _ _ d Hix) as (Hic' & _).
  rewrite Hic' in Hic. injection Hic as <-.
  pose proof (index_reach_inv _ _ _ Hix) as (Hsz & Hlm & _).
  destruct (index_fresh_inv _ _ _ Hix) as (Hmod & Hle).
  pose proof (Z.div_mod (index.size (segment.index s)) 12 ltac:(lia)) as Hdm.
  set (sz := index.size (segment.index s)) in *.
  set (M := MaxIndexBytes (Segment c')) in *.
  unfold segment.newSegment, store.newStore. cbn [bind].
  unfold os.OpenFile. rewrite Hst.
  rewrite (lookup_insert_ne _ _ (segment.fileName base ".index"))
    by apply fileName_store_index.
  rewrite !lookup_insert_eq. cbn [default from_option id].
  unfold index.newIndex, os.Truncate, os.Map, os.Size. cbn [os.data os.Name].
  fold M. rewrite i64_small by lia.
  destruct (Z.ltb_spec M 0); [lia |]. cbn [bind os.data os.Name].
  rewrite length_resize, length_take, Nat.min_l by lia.
  destruct (Z.eqb_spec (Z.of_nat (Z.to_nat M)) 0); [lia |]. cbn [bind].
  rewrite Z2Nat.id, u64_small by lia.
  assert (Hq : 1 <= sz / 12) by (apply Z.div_le_lower_bound; lia).
  rewrite index_Read_last by (cbn [index.size]; lia).
  rewrite index_Read_panic;
    [reflexivity | cbn [index.size]; lia | cbn [index.size]; lia |].
  cbn [index.mmap index.size]. rewrite length_resize. lia.
Qed.

End SegmentLog.

Lemma segmentAfter_log M base l :
  is_Ok (segment.newSegment ∅ base (mkConfig 1024 M 0)) = true ->
  exists s0,
    segment.newSegment ∅ base (mkConfig 1024 M 0) = Ok s0
    /\ segment_log (codec := wire.codec) (mkConfig 1024 M 0) base
         (segment_accepted (codec := wire.codec) l s0) (segmentAfter M base l).
Proof.
  unfold segmentAfter.
  destruct (segment.newSegment ∅ base (mkConfig 1024 M 0)) as [s | |] eqn:E;
    try discriminate.
  intros _. exists s. split; [reflexivity |].
  apply (segment_appends_log (codec := wire.codec) _ base l [] s).
  apply segment_log_new with (d := ∅); [apply lookup_empty .. | exact E].
Qed.

Lemma segment_Read_returns_appended_witness :
  let c := mkConfig 1024 36 0 in
  let s1 := segmentAfter 36 16 [accepted "first"; accepted "second"] in
  let s := reopened 36 16 s1 in
  let r := {| api.Value := bytes_of_string "second"; api.Offset := 17 |} in
  exists rs,
    segment_log (codec := wire.codec) c 16 rs s
    /\ rs !! 1%nat = Some r
    /\ snd (segment.Read (codec := wire.codec) os.Done 17 s) = Ok r.
Proof.
  intros c s1 s r.
  destruct (segmentAfter_log 36 16 [accepted "first"; accepted "second"] eq_refl)
    as (s0 & Hnew0 & Hl1).
  vm_compute in Hnew0. injection Hnew0 as <-.
  fold s1 in Hl1.
  assert (Hclose : segment.Close os.Done s1 ∅ = (closedDir s1, Ok tt))
    by (vm_compute; reflexivity).
  assert (Hnew : segment.newSegment (closedDir s1) 16 c = Ok s)
    by (vm_compute; reflexivity).
  assert (Hcap : index.size (segment.index s1) / 12 <= 2 ^ 32)
    by (vm_compute; discriminate).
  pose proof (segment_log_reopen (codec := wire.codec) c 16 _ s1 os.Done ∅
                (closedDir s1) s Hl1 Hcap Hclose Hnew) as Hl.
  eexists. split; [exact Hl |].
  assert (Hbase : is_u64 16) by (split; [discriminate | reflexivity]).
  assert (Hb : Z.of_nat (length (store.contents (segment.store s))) < 2 ^ 63)
    by (vm_compute; reflexivity).
  assert (He : bufio.err (store.buf (segment.store s)) = None)
    by (vm_compute; reflexivity).
  assert (H32 : Z.of_nat 1 < 2 ^ 32) by reflexivity.
  assert (Hcodec : forall p, Marshal (Codec := wire.codec) r = Ok p ->
                             Unmarshal (Codec := wire.codec) p = Ok r).
  { intros p Hp. vm_compute in Hp. injection Hp as <-. vm_compute. reflexivity. }
  assert (Hj : segment_accepted (codec := wire.codec)
                 [accepted "first"; accepted "second"]
                 (segmentAfter 36 16 []) !! 1%nat = Some r)
    by (vm_compute; reflexivity).
  destruct (segment_Read_returns_appended (codec := wire.codec) c 16 _ s 1 r
              Hbase Hl Hb He Hj H32 Hcodec) as [_ HR].
  split; [exact Hj | exact HR].
Defined.

Lemma segment_IsMaxed_Append_witness :
  let c := mkConfig 1024 36 0 in
  let s := segmentAfter 36 0 [accepted "a"] in
  let full := segmentAfter 36 0 [accepted "a"; accepted "b"; accepted "c"] in
  segment.IsMaxed s = false
  /\ snd (segment.Append (codec := wire.codec) os.Done os.Done (record "b") s)
     = Ok 1
  /\ snd (segment.Append (codec := wire.codec) os.Done os.Done (record "d") full)
     = Err EOF.
Proof.
  intros c s full.
  assert (Hbase : is_u64 0) by (split; [reflexivity | reflexivity]).
  assert (HM : is_u64 (MaxIndexBytes (Segment c)))
    by (split; [discriminate | reflexivity]).
  destruct (segmentAfter_reach 36 0 [accepted "a"] eq_refl) as [k Hr].
  destruct (segmentAfter_reach 36 0
              [accepted "a"; accepted "b"; accepted "c"] eq_refl) as [k' Hr'].
  assert (Hb : Z.of_nat (length (store.contents (segment.store s))) < 2 ^ 63)
    by (vm_compute; reflexivity).
  assert (Hb' : Z.of_nat (length (store.contents (segment.store full))) < 2 ^ 63)
    by (vm_compute; reflexivity).
  assert (He : bufio.err (store.buf (segment.store s)) = None)
    by (vm_compute; reflexivity).
  assert (He' : bufio.err (store.buf (segment.store full)) = None)
    by (vm_compute; reflexivity).
  assert (Hmax : segment.IsMaxed s = false) by (vm_compute; reflexivity).
  destruct (Marshal (Codec := wire.codec)
              {| api.Value := api.Value (record "b");
                 api.Offset := segment.nextOffset s |}) as [p | |] eqn:Hp;
    [| vm_compute in Hp; discriminate Hp | vm_compute in Hp; discriminate Hp].
  destruct (Marshal (Codec := wire.codec)
              {| api.Value := api.Value (record "d");
                 api.Offset := segment.nextOffset full |}) as [p' | |] eqn:Hp';
    [| vm_compute in Hp'; discriminate Hp' | vm_compute in Hp'; discriminate Hp'].
  destruct (segment_IsMaxed_Append (codec := wire.codec) c 0 k s (record "b") p
              Hbase HM Hr Hb He Hp) as (_ & Hfree & _).
  destruct (segment_IsMaxed_Append (codec := wire.codec) c 0 k' full
              (record "d") p' Hbase HM Hr' Hb' He' Hp') as (Hfull & _).
  split; [exact Hmax |]. split; [exact (Hfree Hmax) |].
  rewrite Hfull. vm_compute. reflexivity.
Defined.

Lemma segment_Remove_files_witness :
  let s := segmentAfter 36 7 [accepted "a"] in
  let d := <["notes" := bytes_of_string "kept"]> (closedDir s) in
  let d' := fst (segment.Remove os.Done s d) in
  snd (segment.Remove os.Done s d) = Ok tt
  /\ is_Some (d !! "7.store")
  /\ d' !! "7.store" = None
  /\ d' !! "7.index" = None
  /\ d' !! "notes" = Some (bytes_of_string "kept").
Proof.
  intros s d d'.
  assert (Hbase : is_u64 7) by (split; [discriminate | reflexivity]).
  destruct (segmentAfter_reach 36 7 [accepted "a"] eq_refl) as [k Hr].
  assert (Hb : Z.of_nat (length (store.contents (segment.store s))) < 2 ^ 63)
    by (vm_compute; reflexivity).
  assert (Hres : snd (segment.Remove os.Done s d) = Ok tt)
    by (vm_compute; reflexivity).
  destruct (segment_Remove_files (codec := wire.codec) (mkConfig 1024 36 0) 7 k
              s os.Done d Hbase Hr Hb) as [Hok _].
  destruct (Hok Hres) as (H1 & H2 & H3).
  split; [exact Hres |].
  split; [vm_compute; eexists; reflexivity |].
  split; [exact H1 |]. split; [exact H2 |].
  unfold d'. rewrite (H3 "notes") by discriminate. apply lookup_insert_eq.
Defined.

Lemma newSegment_smaller_index_panics_witness :
  let s := segmentAfter 36 0 [accepted "a"; accepted "b"; accepted "c"] in
  segment.Close os.Done s ∅ = (closedDir s, Ok tt)
  /\ is_Ok (segment.newSegment (closedDir s) 0 (mkConfig 1024 36 0)) = true
  /\ segment.newSegment (closedDir s) 0 (mkConfig 1024 24 0) = Panic.
Proof.
  intros s.
  assert (Hbase : is_u64 0) by (split; [reflexivity | reflexivity]).
  destruct (segmentAfter_reach 36 0
              [accepted "a"; accepted "b"; accepted "c"] eq_refl) as [k Hr].
  assert (Hb : Z.of_nat (length (store.contents (segment.store s))) < 2 ^ 63)
    by (vm_compute; reflexivity).
  assert (Hcap : index.size (segment.index s) / 12 <= 2 ^ 32)
    by (vm_compute; discriminate).
  assert (Hclose : segment.Close os.Done s ∅ = (closedDir s, Ok tt))
    by (vm_compute; reflexivity).
  assert (HM : 0 < MaxIndexBytes (Segment (mkConfig 1024 24 0))
               < index.size (segment.index s))
    by (vm_compute; split; reflexivity).
  split; [exact Hclose |]. split; [vm_compute; reflexivity |].
  exact (newSegment_smaller_index_panics (codec := wire.codec)
           (mkConfig 1024 36 0) (mkConfig 1024 24 0) 0 k os.Done s ∅
           (closedDir s) Hbase Hr Hb Hcap Hclose HM).
Defined.

(** * The handlers of the service *)

Section Service.
Context {L E : Type} {log : server.CommitLog L E}.
Variable outOfRange : E -> bool.

(** X12.  [ProduceStream] answers the requests in order until the first
    failure: the responses sent are those of [Produce] on the first
    requests, one for each, every one of them sent; then [Recv] failed,
    or [Produce] failed, or [Send] failed, and that error is returned.
    When it is [Send] that failed, the record of that request is in the
    log although its offset never reached the client. *)
Theorem ProduceStream_replies recv closing (l l' : L) sent e :
  server.ProduceStream recv closing l = (l', sent, e) ->
  exists lmid,
    (length sent <= length recv)%nat
    /\ Forall (fun x => snd x = None) (take (length sent) recv)
    /\ server.produced (map fst (take (length sent) recv)) l = (lmid, sent)
    /\ match drop (length sent) recv with
       | [] => e = closing /\ l' = lmid
       | (req, send) :: _ =>
           server.Produce req lmid = (l', server.Error e)
           \/ exists res,
                server.Produce req lmid = (l', server.Value res)
                /\ send = Some e
       end.
Proof.
  revert l l' sent e.
  induction recv as [|[req send] rest IH]; intros l l' sent e H.
  - injection H as <- <- <-. exists l. cbn.
    repeat split; constructor.
  - cbn [server.ProduceStream] in H.
    destruct (server.Produce req l) as [l1 [res | e1]] eqn:EP.
    + destruct send as [es |].
      * injection H as <- <- <-. exists l. cbn.
        split; [lia |]. split; [constructor |]. split; [reflexivity |].
        right. exists res. split; [exact EP | reflexivity].
      * destruct (server.ProduceStream rest closing l1) as [[l2 sent'] e']
          eqn:ER.
        injection H as <- <- <-.
        destruct (IH _ _ _ _ ER) as (lmid & Hn & Hall & Hp & Hrest).
        exists lmid. cbn [length take drop map fst].
        split; [lia |].
        split; [constructor; [reflexivity | exact Hall] |].
        split; [| exact Hrest].
        cbn [server.produced]. rewrite EP, Hp. reflexivity.
    + injection H as <- <- <-. exists l. cbn.
      split; [lia |]. split; [constructor |]. split; [reflexivity |].
      left. exact EP.
Qed.

(** X13.  [ConsumeStream] sends the records in order and without gaps:
    the offset of the request has advanced by one for each response
    sent; over a log that reads leave as it is, the [k]-th response
    carries the record at the offset asked for plus [k].  The handler
    returns nil only once the context is done, and never returns an
    out-of-range error of the log: such an error can only come from
    [Send]. *)
Theorem ConsumeStream_in_order turns req (l l' : L) req' sent out :
  is_u64 (ConsumeRequest.Offset req) ->
  server.ConsumeStream outOfRange turns req l = (l', req', sent, out) ->
  ConsumeRequest.Offset req'
  = u64 (ConsumeRequest.Offset req + Z.of_nat (length sent))
  /\ (length sent <= length turns)%nat
  /\ ((forall off l0, fst (server.Read off l0) = l0) ->
      l' = l
      /\ forall k res, sent !! k = Some res ->
           snd (server.Read (u64 (ConsumeRequest.Offset req + Z.of_nat k)) l)
           = server.Value (ConsumeResponse.Record_ res))
  /\ (out = Some None -> In server.Cancelled turns)
  /\ (forall e, out = Some (Some e) -> outOfRange e = true ->
        In (server.Running (Some e)) turns).
Proof.
  revert req l l' req' sent out.
  induction turns as [|t rest IH]; intros req l l' req' sent out Hreq H.
  - injection H as <- <- <- <-. cbn.
    split; [rewrite Z.add_0_r; symmetry; apply u64_small; exact Hreq |].
    split; [lia |]. split; [split; [reflexivity | intros k res Hk; discriminate] |].
    split; [discriminate | discriminate].
  - destruct t as [| send]; cbn [server.ConsumeStream] in H.
    + injection H as <- <- <- <-. cbn.
      split; [rewrite Z.add_0_r; symmetry; apply u64_small; exact Hreq |].
      split; [lia |].
      split; [split; [reflexivity | intros k res Hk; discriminate] |].
      split; [intros _; left; reflexivity | discriminate].
    + unfold server.Consume in H.
      destruct (server.Read (ConsumeRequest.Offset req) l) as [l1 r] eqn:ER.
      destruct r as [record | e1].
      * destruct send as [es |].
        -- injection H as <- <- <- <-. cbn.
           split; [rewrite Z.add_0_r; symmetry; apply u64_small; exact Hreq |].
           split; [lia |]. split.
           { intros Hpure. split; [| intros k res Hk; discriminate].
             rewrite <- (Hpure (ConsumeRequest.Offset req) l), ER. reflexivity. }
           split; [discriminate |].
           intros e [= ->] _. left. reflexivity.
        -- destruct (server.ConsumeStream outOfRange rest _ l1)
             as [[[l2 req2] sent'] out'] eqn:EC.
           injection H as <- <- <- <-.
           assert (Hreq' : is_u64 (ConsumeRequest.Offset
                     {| ConsumeRequest.Offset :=
                          u64 (ConsumeRequest.Offset req + 1) |}))
             by apply u64_range.
           destruct (IH _ _ _ _ _ _ Hreq' EC)
             as (Hoff & Hlen & Hrec & Hnil & Herr).
           cbn [ConsumeRequest.Offset] in Hoff, Hrec.
           cbn [length].
           split; [rewrite Hoff, u64_add_l; f_equal; lia |].
           split; [lia |]. split.
           { intros Hpure. destruct (Hrec Hpure) as [-> Hk].
             pose proof (Hpure (ConsumeRequest.Offset req) l) as Hl.
             rewrite ER in Hl. cbn [fst] in Hl. subst l1.
             split; [reflexivity |]. intros [|k] res Hres.
             - injection Hres as <-. cbn [ConsumeResponse.Record_].
               rewrite Z.add_0_r, u64_small, ER by exact Hreq. reflexivity.
             - cbn in Hres. specialize (Hk k res Hres).
               rewrite u64_add_l in Hk.
               replace (ConsumeRequest.Offset req + Z.of_nat (S k))
                 with (ConsumeRequest.Offset req + 1 + Z.of_nat k) by lia.
               exact Hk. }
           split; [intros Ho; right; apply Hnil; exact Ho |].
           intros e Ho He. right. apply Herr; assumption.
      * destruct (outOfRange e1) eqn:Eo.
        -- destruct (IH _ _ _ _ _ _ Hreq H)
             as (Hoff & Hlen & Hrec & Hnil & Herr).
           split; [exact Hoff |]. split; [cbn [length]; lia |]. split.
           { intros Hpure. destruct (Hrec Hpure) as [-> Hk].
             pose proof (Hpure (ConsumeRequest.Offset req) l) as Hl.
             rewrite ER in Hl. cbn [fst] in Hl. subst l1.
             split; [reflexivity | exact Hk]. }
           split; [intros Ho; right; apply Hnil; exact Ho |].
           intros e Ho He. right. apply Herr; assumption.
        -- injection H as <- <- <- <-. cbn.
           split; [rewrite Z.add_0_r; symmetry; apply u64_small; exact Hreq |].
           split; [lia |]. split.
           { intros Hpure. split; [| intros k res Hk; discriminate].
             rewrite <- (Hpure (ConsumeRequest.Offset req) l), ER. reflexivity. }
           split; [discriminate |].
           intros e [= ->] He. congruence.
Qed.

(** X14.  At the end of the log [ConsumeStream] polls: as long as the
    log answers the offset asked for with an out-of-range error ([P]
    holds of the states the log goes through), the handler sends
    nothing, keeps the offset and goes round its loop; it returns, and
    returns nil, only when the context is done. *)
Theorem ConsumeStream_polls (P : L -> Prop) turns req (l : L) :
  P l ->
  (forall l0, P l0 ->
     P (fst (server.Read (ConsumeRequest.Offset req) l0))
     /\ exists e,
          snd (server.Read (ConsumeRequest.Offset req) l0) = server.Error e
          /\ outOfRange e = true) ->
  exists l',
    P l'
    /\ server.ConsumeStream outOfRange turns req l
       = (l', req, [],
          if existsb (fun t => match t with
                               | server.Cancelled => true
                               | server.Running _ => false
                               end) turns
          then Some None else None).
Proof.
  intros Hl Hend. revert l Hl. induction turns as [|t rest IH]; intros l Hl.
  - exists l. split; [exact Hl | reflexivity].
  - destruct t as [| send]; cbn [server.ConsumeStream existsb orb].
    + exists l. split; [exact Hl | reflexivity].
    + unfold server.Consume. destruct (Hend l Hl) as (HP & e & HR & He).
      destruct (server.Read (ConsumeRequest.Offset req) l) as [l1 r].
      cbn [fst snd] in HP, HR. subst r. rewrite He. apply IH. exact HP.
Qed.

End Service.

Lemma ProduceStream_replies_witness :
  let recv := [(produceRequest "a", None); (produceRequest "b", None);
               (produceRequest "c", Some Unavailable);
               (produceRequest "d", None)] in
  let sent := [{| ProduceResponse.Offset := 0 |};
               {| ProduceResponse.Offset := 1 |}] in
  exists l' lmid,
    server.ProduceStream (log := memLog) recv (OffsetOutOfRange 0) []
    = (l', sent, Unavailable)
    /\ server.produced (log := memLog)
         [produceRequest "a"; produceRequest "b"] [] = (lmid, sent)
    /\ server.Produce (log := memLog) (produceRequest "c") lmid
       = (l', server.Value {| ProduceResponse.Offset := 2 |}).
Proof.
  intros recv sent.
  set (l' := fst (fst (server.ProduceStream (log := memLog) recv
                         (OffsetOutOfRange 0) []))).
  assert (H : server.ProduceStream (log := memLog) recv (OffsetOutOfRange 0) []
              = (l', sent, Unavailable)) by (vm_compute; reflexivity).
  destruct (ProduceStream_replies (log := memLog) recv (OffsetOutOfRange 0)
              [] l' sent Unavailable H) as (lmid & _ & _ & Hp & Hrest).
  exists l', lmid. split; [exact H |]. split; [exact Hp |].
  cbn [length drop sent recv] in Hrest.
  destruct Hrest as [Hfail | (res & Hres & _)].
  - vm_compute in Hp. injection Hp as <-. vm_compute in Hfail. discriminate Hfail.
  - rewrite Hres. vm_compute in Hp. injection Hp as <-.
    vm_compute in Hres. injection Hres as <-. reflexivity.
Defined.

Lemma ConsumeStream_in_order_witness :
  let l := [record "a"; record "b"] in
  let req := {| ConsumeRequest.Offset := 0 |} in
  let turns := [server.Running None; server.Running None;
                server.Running None; server.Cancelled] in
  server.ConsumeStream (log := memLog) memOutOfRange turns req l
  = (l, {| ConsumeRequest.Offset := 2 |},
     [{| ConsumeResponse.Record_ := record "a" |};
      {| ConsumeResponse.Record_ := record "b" |}], Some None)
  /\ In server.Cancelled turns.
Proof.
  intros l req turns.
  assert (Hreq : is_u64 (ConsumeRequest.Offset req))
    by (split; [reflexivity | reflexivity]).
  assert (H : server.ConsumeStream (log := memLog) memOutOfRange turns req l
              = (l, {| ConsumeRequest.Offset := 2 |},
                 [{| ConsumeResponse.Record_ := record "a" |};
                  {| ConsumeResponse.Record_ := record "b" |}], Some None))
    by (vm_compute; reflexivity).
  destruct (ConsumeStream_in_order (log := memLog) memOutOfRange turns req l
              _ _ _ _ Hreq H) as (_ & _ & _ & Hnil & _).
  split; [exact H | exact (Hnil eq_refl)].
Defined.

Lemma ConsumeStream_polls_witness :
  let l := [record "a"; record "b"] in
  let req := {| ConsumeRequest.Offset := 2 |} in
  server.ConsumeStream (log := memLog) memOutOfRange
    [server.Running None; server.Running None; server.Running None] req l
  = (l, req, [], None)
  /\ server.ConsumeStream (log := memLog) memOutOfRange
       [server.Running None; server.Cancelled; server.Running None] req l
     = (l, req, [], Some None).
Proof.
  intros l req.
  assert (Hend : forall l0, l0 = l ->
            fst (server.Read (CommitLog := memLog)
                   (ConsumeRequest.Offset req) l0) = l
            /\ exists e,
                 snd (server.Read (CommitLog := memLog)
                        (ConsumeRequest.Offset req) l0) = server.Error e
                 /\ memOutOfRange e = true).
  { intros l0 ->. split; [reflexivity |]. eexists. split; reflexivity. }
  destruct (ConsumeStream_polls (log := memLog) memOutOfRange (fun l0 => l0 = l)
              [server.Running None; server.Running None; server.Running None]
              req l eq_refl Hend) as (l1 & -> & H1).
  destruct (ConsumeStream_polls (log := memLog) memOutOfRange (fun l0 => l0 = l)
              [server.Running None; server.Cancelled; server.Running None]
              req l eq_refl Hend) as (l2 & -> & H2).
  split; [exact H1 | exact H2].
Defined.

(** * What a segment never does *)

Lemma index_Read_slot off i :
  off <> -1 ->
  0 <= index.size i < 2 ^ 63 ->
  12 * u32 off + 12 <= index.size i ->
  12 * u32 off + 12 <= Z.of_nat (length (index.mmap i)) ->
  index.Read off i
  = Ok (index.entry (Z.to_nat (u32 off)) (index.mmap i)).
Proof.
  intros Hoff Hs Hk Hm. unfold index.Read.
  pose proof (u32_range off) as Hu.
  destruct (Z.eqb_spec (index.size i) 0); [lia |].
  destruct (Z.eqb_spec off (-1)); [contradiction |].
  change index.entWidth with 12. change index.offWidth with 4.
  set (k := u32 off) in *.
  rewrite (u64_small (k * 12)) by lia.
  rewrite !u64_small by lia.
  destruct (Z.ltb_spec (index.size i) (k * 12 + 12)); [lia |].
  rewrite !slice_ok by lia. cbn [bind]. unfold index.entry.
  replace (Z.to_nat (k * 12 + 4 - k * 12)) with 4%nat by lia.
  replace (Z.to_nat (k * 12 + 12 - (k * 12 + 4))) with 8%nat by lia.
  replace (Z.to_nat (k * 12)) with (12 * Z.to_nat k)%nat by lia.
  replace (Z.to_nat (k * 12 + 4)) with (12 * Z.to_nat k + 4)%nat by lia.
  reflexivity.
Qed.

(** On an index whose entries lie within the map, a read fails with an
    error or returns one of the entries. *)
Lemma index_Read_cases off i :
  0 <= index.size i < 2 ^ 63 ->
  index.size i mod 12 = 0 ->
  index.size i <= Z.of_nat (length (index.mmap i)) ->
  (exists e, index.Read off i = Err e)
  \/ (exists j, Z.of_nat j < index.size i / 12
                /\ index.Read off i = Ok (index.entry j (index.mmap i))).
Proof.
  intros Hs Hmod Hle.
  pose proof (Z.div_mod (index.size i) 12 ltac:(lia)) as Hdm.
  destruct (Z.eq_dec (index.size i) 0) as [E0 | Hnz].
  { left. exists EOF. unfold index.Read. rewrite E0. reflexivity. }
  assert (Hq : 1 <= index.size i / 12) by lia.
  destruct (Z.eq_dec off (-1)) as [-> | Hoff].
  - right. rewrite index_Read_last_wrap by lia.
    assert (Hk : 0 <= u32 (index.size i / 12 - 1) <= index.size i / 12 - 1).
    { split; [apply u32_range |]. unfold u32. apply Z.mod_le; lia. }
    exists (Z.to_nat (u32 (index.size i / 12 - 1))).
    split; [lia |].
    apply index_Read_entry; [pose proof (u32_range (index.size i / 12 - 1)) |
                             |]; lia.
  - pose proof (u32_range off) as Hu.
    destruct (Z.lt_ge_cases (index.size i) (12 * u32 off + 12)) as [Hlt | Hge].
    + left. exists EOF. apply index_Read_EOF; [exact Hs |].
      right. split; [exact Hoff | lia].
    + right. exists (Z.to_nat (u32 off)). split; [lia |].
      apply index_Read_slot; lia.
Qed.

Section SegmentSafety.
Context {codec : Codec}.


(** X16.  On a segment opened on fresh files, [Append] panics on a
    nil record and on no other: whatever the device does and whatever
    offset is asked for, [Append] of a record that is not nil, [Read]
    and [Close] return a value or an error, as long as [Marshal] and
    [Unmarshal] do. *)
Theorem segment_panics_only_on_nil c base rs s :
  is_u64 base ->
  segment_log c base rs s ->
  Z.of_nat (length (store.contents (segment.store s))) < 2 ^ 63 ->
  (forall r, Marshal r <> Panic) ->
  (forall p, Unmarshal p <> Panic) ->
  (forall o1 o2 record,
     snd (segment_Append_ptr o1 o2 record s) = Panic <-> record = None)
  /\ (forall o1 o2 r, snd (segment.Append o1 o2 r s) <> Panic)
  /\ (forall o off, snd (segment.Read o off s) <> Panic)
  /\ (forall o d, snd (segment.Close o s d) <> Panic).
Proof.
  intros Hbase Hl Hbound HMar HUn.
  destruct (segment_log_holds c base rs s Hbase Hl Hbound) as [Hlen Hent].
  destruct (segment_log_reach _ _ _ _ Hl) as [k Hr].
  destruct (segment_reach_inv c base k s Hbase Hr Hbound) as (_ & Hix & _).
  pose proof (index_reach_inv _ _ _ Hix) as (Hsz & _).
  destruct (index_fresh_inv _ _ _ Hix) as (Hmod & Hle).
  assert (HA : forall o1 o2 r, snd (segment.Append o1 o2 r s) <> Panic);
    [| split; [| split; [exact HA | split]]].
  - intros o1 o2 r. unfold segment.Append.
    destruct (Marshal _) as [p | e |] eqn:EM; cbn [snd];
      [| discriminate | destruct (HMar _ EM)].
    destruct (store.Append o1 o2 p (segment.store s)) as [st res] eqn:ES.
    assert (Hres : res <> Panic).
    { revert ES. unfold store.Append, bufio.Write.
      destruct (bufio.err _); [intros [= _ <-]; discriminate |].
      destruct o1; cbn [bufio.err]; [| intros [= _ <-]; discriminate].
      destruct o2; intros [= _ <-]; discriminate. }
    destruct res as [[n pos] | e |]; cbn [snd];
      [| discriminate | contradiction].
    cbn [segment.with_store segment.nextOffset segment.baseOffset
         segment.index].
    destruct (index_Write_cases
                (u32 (u64 (segment.nextOffset s - segment.baseOffset s)))
                pos (segment.index s) Hsz) as [[_ E] | [_ E]];
      rewrite E; discriminate.
  - intros o1 o2 [r |]; cbn [segment_Append_ptr snd].
    + specialize (HA o1 o2 r).
      destruct (segment.Append o1 o2 r s) as [[s' r'] res].
      cbn [snd] in HA |- *. split; [contradiction | discriminate].
    + split; reflexivity.
  - intros o off. unfold segment.Read.
    destruct (index_Read_cases
                (i64 (u64 (off - segment.baseOffset s))) (segment.index s)
                Hsz Hmod (proj2 Hle)) as [[e E] | (j & Hj & E)];
      rewrite E; [discriminate |].
    destruct (lookup_lt_is_Some_2 rs j ltac:(lia)) as [r Hjr].
    destruct (Hent j r Hjr) as (_ & pre & p & post & HM & Hc & He).
    destruct (index.entry j (index.mmap (segment.index s))) as [rel pos].
    cbn [snd] in He. subst pos.
    assert (Hfit : Z.of_nat (length pre) + 8 + Z.of_nat (length p) < 2 ^ 63)
      by (rewrite Hc, !length_app, frame_length in Hbound; lia).
    assert (HR : snd (store.Read o (Z.of_nat (length pre)) (segment.store s))
                 <> Panic).
    { destruct (bufio.err (store.buf (segment.store s))) as [e |] eqn:Ee.
      - unfold store.Read, bufio.Flush. rewrite Ee. discriminate.
      - destruct o as [| n].
        + rewrite (store_Read_frame _ pre p post Ee Hc Hfit). discriminate.
        + unfold store.Read, bufio.Flush. rewrite Ee. discriminate. }
    destruct (store.Read o (Z.of_nat (length pre)) (segment.store s))
      as [st [q | e |]]; cbn [snd bind] in HR |- *;
      [apply HUn | discriminate | contradiction].
  - intros o d. unfold segment.Close.
    destruct (index_Close_reopen c _ _ d Hix) as [-> _].
    unfold store.Close, bufio.Flush.
    destruct (bufio.err _); [discriminate |].
    destruct o; discriminate.
Qed.

End SegmentSafety.

Lemma wire_fields_no_panic fuel : forall bs r, wire.fields fuel bs r <> Panic.
Proof.
  induction fuel as [|k IH]; intros bs r; destruct bs as [|tag rest];
    cbn [wire.fields]; try discriminate.
  destruct tag; try discriminate;
    destruct (wire.uvarint 10 rest) as [[v rest'] |]; try discriminate;
    try apply IH.
  destruct (_ <? _); [discriminate | apply IH].
Qed.

Lemma wire_codec_no_panic :
  (forall r, Marshal (Codec := wire.codec) r <> Panic)
  /\ (forall p, Unmarshal (Codec := wire.codec) p <> Panic).
Proof.
  split.
  - intros r. cbn [Marshal wire.codec wire.codec_of]. unfold wire.marshal.
    destruct (_ <? _); discriminate.
  - intros p. apply wire_fields_no_panic.
Qed.


Lemma segment_panics_only_on_nil_witness :
  let c := mkConfig 1024 24 0 in
  let s := segmentAfter 24 0 [accepted "a"; accepted "b"; accepted "c"] in
  snd (segment_Append_ptr (codec := wire.codec) os.Done os.Done None s) = Panic
  /\ snd (segment_Append_ptr (codec := wire.codec) os.Done os.Done
            (Some (record "d")) s) <> Panic
  /\ snd (segment.Read (codec := wire.codec) os.Done (2 ^ 64 - 1) s) <> Panic
  /\ snd (segment.Read (codec := wire.codec) (os.Failed 0) 1 s) <> Panic.
Proof.
  intros c s.
  destruct (segmentAfter_log 24 0 [accepted "a"; accepted "b"; accepted "c"]
              eq_refl) as (s0 & Hnew0 & Hl).
  vm_compute in Hnew0. injection Hnew0 as <-. fold s in Hl.
  assert (Hbase : is_u64 0) by (split; [reflexivity | reflexivity]).
  assert (Hb : Z.of_nat (length (store.contents (segment.store s))) < 2 ^ 63)
    by (vm_compute; reflexivity).
  destruct wire_codec_no_panic as [HM HU].
  destruct (segment_panics_only_on_nil (codec := wire.codec) c 0 _ s Hbase Hl
              Hb HM HU) as (Hnil & _ & HR & _).
  split; [apply Hnil; reflexivity |].
  split; [intros H; apply Hnil in H; discriminate H |].
  split; apply HR.
Defined.
